(** * A* search engine: run-to-completion [Search] and incremental [Stepper]

    A shallow embedding of the Go package [astar]: the priority frontier
    ([PriorityQueue], driven by Go's [container/heap]), the orchestrator loop
    of [Search], the [Stepper] state machine, the options, and the path
    reconstruction of package [internal].

    Conventions of the embedding.

    - [NodeType] is the Go type parameter (any comparable type); Go's [==] on
      it is decidable equality.
    - Costs are Go [float64] values.  The development is generic in the cost
      type and its two operations used by the code ([+] and [<]); no law is
      assumed of them unless a lemma says so, hence every unconditional lemma
      holds for IEEE binary64 ([PrimFloat]), at which the concrete runs below
      are evaluated.
    - A [*PriorityQueueItem] is an address into an item store ([mem]); the
      frontier slice and [openSetMap] hold addresses, so the aliasing between
      the two is explicit.
    - Worker pool and channels.  Both channels are unbuffered and the
      orchestrator sends every task of a round before it receives any
      proposal: a worker that has computed its proposal blocks on its send, so
      a round with more neighbours than workers blocks for ever ([Blocked]).
      Otherwise the proposals of a round arrive in an order chosen by the
      scheduler; [arrive u ps] is that choice for the round expanding [u]
      (each node is expanded at most once), either a full delivery or the
      proposals received before the context's cancellation is observed.
      Cancellation is observed by the orchestrator only, at the point where
      it collects proposals; a worker that leaves on cancellation before it
      has accepted a task is not modelled, and so neither is [Stepper.Close]:
      that a call returns is stated for runs whose context is not cancelled
      ([never_cancelled]).
    - [workers] is the number of workers started, which is [NumberOfWorkers]
      after the options were applied, or none when that is not positive
      ([SearchWithOptions], [StepWithOptions]).
    - Of [examples/vizweb] the grid, its adapter to [Graph] and the heuristic
      are embedded (module [Vizweb]), with Go's 64-bit [int]; the random
      walls and the HTTP handlers are not. *)

From Stdlib Require Import ZArith Lia.
From Stdlib Require Import Floats.PrimFloat Floats.SpecFloat Floats.FloatOps.
From stdpp Require Import base option list gmap.

Set Default Proof Using "Type".
#[local] Set Warnings "-clear-no-such-hyp".

(** ** Outcomes *)

(** The [error] results of the package: [errors.New("no path found")] and the
    context's error. *)
Inductive SearchError : Type :=
  | ErrNoPathFound
  | ErrCanceled.

(** A call returns a value and an [error] ([None] is Go's [nil]), never
    returns, or stops in a run-time panic. *)
Inductive Outcome (R : Type) : Type :=
  | Returned (r : R) (err : option SearchError)
  | Blocked
  | Panicked.
Arguments Returned {R} r err.
Arguments Blocked {R}.
Arguments Panicked {R}.

Section Astar.

Context {NodeType : Type} `{Countable NodeType}.
Context {Cost : Type}.

(** [0.0], [+] and [<] of [float64]. *)
Variable cost_zero : Cost.
Variable cost_add : Cost → Cost → Cost.
Variable cost_lt : Cost → Cost → bool.

(** The zero value of [NodeType]. *)
Variable zeroNode : NodeType.

(** ** Data model *)

Record Neighbor : Type := mkNeighbor {
  ID : NodeType;
  EdgeCost : Cost
}.

Record PriorityQueueItem : Type := mkItem {
  Node : NodeType;
  GScore : Cost;
  FCost : Cost;
  IndexInQueue : nat
}.

Record RelaxProposal : Type := mkProposal {
  FromNode : NodeType;
  ToNode : NodeType;
  PGScore : Cost;
  PFCost : Cost
}.

Record Result : Type := mkResult {
  Path : list NodeType;
  TotalCost : Cost;
  ExpandedNodes : nat;
  Found : bool
}.

(** ** Priority frontier

    [slice] is the Go slice of item pointers, [mem] the items they point to. *)
Record PriorityQueue : Type := mkPQ {
  slice : list nat;
  mem : list PriorityQueueItem
}.

Definition Len (q : PriorityQueue) : nat := length (slice q).

Definition item_at (q : PriorityQueue) (i : nat) : option PriorityQueueItem :=
  a ← slice q !! i; mem q !! a.

(** [queue[i].FCost < queue[j].FCost]; an index out of range panics in Go,
    which no caller below provokes. *)
Definition Less (q : PriorityQueue) (i j : nat) : bool :=
  match item_at q i, item_at q j with
  | Some x, Some y => cost_lt (FCost x) (FCost y)
  | _, _ => false
  end.

Definition set_index (i : nat) (it : PriorityQueueItem) : PriorityQueueItem :=
  mkItem (Node it) (GScore it) (FCost it) i.

Definition Swap (q : PriorityQueue) (i j : nat) : PriorityQueue :=
  match slice q !! i, slice q !! j with
  | Some a, Some b =>
      mkPQ (<[j := a]> (<[i := b]> (slice q)))
           (alter (set_index j) a (alter (set_index i) b (mem q)))
  | _, _ => q
  end.

(** [PriorityQueue.Push]: appends the pointer and leaves [IndexInQueue]
    untouched. *)
Definition pq_Push (q : PriorityQueue) (a : nat) : PriorityQueue :=
  mkPQ (slice q ++ [a]) (mem q).

(** [PriorityQueue.Pop]: removes and returns the last pointer. *)
Definition pq_Pop (q : PriorityQueue) : option (nat * PriorityQueue) :=
  a ← last (slice q);
  Some (a, mkPQ (take (Len q - 1) (slice q)) (mem q)).

(** *** container/heap (Go standard library) *)

(** Parent index [(j - 1) / 2]; Go's integer division truncates, so the parent
    of [0] is [0], as with natural numbers. *)
Definition parent (j : nat) : nat := (j - 1) / 2.

Fixpoint up_loop (fuel : nat) (q : PriorityQueue) (j : nat) : PriorityQueue :=
  match fuel with
  | 0 => q
  | S fuel' =>
      let i := parent j in
      if bool_decide (i = j) || negb (Less q j i) then q
      else up_loop fuel' (Swap q i j) i
  end.

(** The loop runs at most [j] times: [parent j < j] for [0 < j]. *)
Definition up (q : PriorityQueue) (j : nat) : PriorityQueue :=
  up_loop (S j) q j.

Fixpoint down_loop (fuel : nat) (q : PriorityQueue) (i n : nat)
  : PriorityQueue * nat :=
  match fuel with
  | 0 => (q, i)
  | S fuel' =>
      let j1 := 2 * i + 1 in
      if n <=? j1 then (q, i)
      else
        let j2 := j1 + 1 in
        let j := if (j2 <? n) && Less q j2 j1 then j2 else j1 in
        if negb (Less q j i) then (q, i)
        else down_loop fuel' (Swap q i j) j n
  end.

(** [down] returns [i > i0]; the loop index grows strictly and stays below
    [n]. *)
Definition down (q : PriorityQueue) (i0 n : nat) : PriorityQueue * bool :=
  let '(q', i) := down_loop n q i0 n in (q', i0 <? i).

Definition heap_Init (q : PriorityQueue) : PriorityQueue :=
  let n := Len q in
  fold_left (fun q i => fst (down q i n)) (rev (seq 0 (n / 2))) q.

Definition heap_Push (q : PriorityQueue) (a : nat) : PriorityQueue :=
  let q1 := pq_Push q a in
  up q1 (Len q1 - 1).

(** [heap.Pop]; on an empty queue Go panics ([None]). *)
Definition heap_Pop (q : PriorityQueue) : option (nat * PriorityQueue) :=
  match Len q with
  | 0 => None
  | S n => pq_Pop (fst (down (Swap q 0 n) 0 n))
  end.

Definition heap_Fix (q : PriorityQueue) (i : nat) : PriorityQueue :=
  let '(q1, moved) := down q i (Len q) in
  if moved then q1 else up q1 i.

(** [&PriorityQueueItem{...}]: a fresh item; its address is the next free
    one. *)
Definition new_item (q : PriorityQueue) (it : PriorityQueueItem)
  : PriorityQueue * nat :=
  (mkPQ (slice q) (mem q ++ [it]), length (mem q)).

(** ** Search state

    The locals of [Search] and the like-named fields of [Stepper]
    ([gScore] is [pathCostFromStart] in [Search]). *)
Record State : Type := mkState {
  openSet : PriorityQueue;
  openSetMap : gmap NodeType nat;
  closedSet : gmap NodeType bool;
  cameFrom : gmap NodeType NodeType;
  gScore : gmap NodeType Cost
}.

(** [closedSet[n]] on a Go [map[NodeType]bool]. *)
Definition closed (st : State) (n : NodeType) : bool :=
  default false (closedSet st !! n).

(** ** Worker *)

(** What a worker computes from an [ExpandTask]. *)
Definition propose (fromNode : NodeType) (currentG : Cost) (goalNode : NodeType)
    (heuristic : NodeType → NodeType → Cost) (nb : Neighbor) : RelaxProposal :=
  let tentativeG := cost_add currentG (EdgeCost nb) in
  mkProposal fromNode (ID nb) tentativeG
             (cost_add tentativeG (heuristic (ID nb) goalNode)).

(** ** Relaxation: the body of the proposal case, the same in [Search] and
    [Step]. *)
Definition relax (st : State) (p : RelaxProposal) : State :=
  if closed st (ToNode p) then st
  else
    let improves :=
      match gScore st !! ToNode p with
      | None => true
      | Some currentG => cost_lt (PGScore p) currentG
      end in
    if negb improves then st
    else
      let g' := <[ToNode p := PGScore p]> (gScore st) in
      let came' := <[ToNode p := FromNode p]> (cameFrom st) in
      match openSetMap st !! ToNode p with
      | None =>
          let '(q1, a) :=
            new_item (openSet st) (mkItem (ToNode p) (PGScore p) (PFCost p) 0) in
          mkState (heap_Push q1 a) (<[ToNode p := a]> (openSetMap st))
                  (closedSet st) came' g'
      | Some a =>
          match mem (openSet st) !! a with
          | Some item =>
              if cost_lt (PFCost p) (FCost item) then
                let q1 :=
                  mkPQ (slice (openSet st))
                       (<[a := mkItem (Node item) (PGScore p) (PFCost p)
                                      (IndexInQueue item)]> (mem (openSet st))) in
                mkState (heap_Fix q1 (IndexInQueue item)) (openSetMap st)
                        (closedSet st) came' g'
              else
                mkState (openSet st) (openSetMap st) (closedSet st) came' g'
          | None =>
              mkState (openSet st) (openSetMap st) (closedSet st) came' g'
          end
      end.

(** ** Path reconstruction *)

Fixpoint reconstruct_loop (fuel : nat) (came : gmap NodeType NodeType)
    (current start : NodeType) (path : list NodeType) : option (list NodeType) :=
  match fuel with
  | 0 => None
  | S fuel' =>
      if bool_decide (current = start) then Some path
      else
        match came !! current with
        | None => Some path
        | Some previousNode =>
            reconstruct_loop fuel' came previousNode start (path ++ [previousNode])
        end
  end.

(** A walk that has followed more links than the map has keys has entered a
    cycle and the Go loop never exits: [None]. *)
Definition reconstructPath (came : gmap NodeType NodeType)
    (current start : NodeType) : option (list NodeType) :=
  path ← reconstruct_loop (S (size came)) came current start [current];
  Some (rev path).

Fixpoint inferStart_loop (fuel : nat) (came : gmap NodeType NodeType)
    (cur : NodeType) : option NodeType :=
  match fuel with
  | 0 => None
  | S fuel' =>
      match came !! cur with
      | None => Some cur
      | Some prev => inferStart_loop fuel' came prev
      end
  end.

Definition inferStartFromCameFrom (came : gmap NodeType NodeType)
    (current : NodeType) : option NodeType :=
  inferStart_loop (S (size came)) came current.

(** *** Package [internal]

    [internal.ReconstructPath] has the body of [reconstructPath]; here the
    reversal is the loop of the source, which exchanges [path[i]] and
    [path[j]] while [i < j].  ([j] starts at [len(path)-1], which is never
    negative: the path holds at least [current].) *)
Fixpoint reverse_loop (fuel : nat) (path : list NodeType) (i j : nat)
  : list NodeType :=
  match fuel with
  | 0 => path
  | S fuel' =>
      if i <? j then
        match path !! i, path !! j with
        | Some x, Some y =>
            reverse_loop fuel' (<[j := x]> (<[i := y]> path)) (i + 1) (j - 1)
        | _, _ => path
        end
      else path
  end.

(** The loop runs at most [len(path)/2] times. *)
Definition reverse_in_place (path : list NodeType) : list NodeType :=
  reverse_loop (length path) path 0 (length path - 1).

Definition ReconstructPath (came : gmap NodeType NodeType)
    (current start : NodeType) : option (list NodeType) :=
  path ← reconstruct_loop (S (size came)) came current start [current];
  Some (reverse_in_place path).

(** ** Environment of a run *)

(** What the orchestrator receives in one collection loop. *)
Inductive Arrival : Type :=
  | Delivered (ps : list RelaxProposal)
  | CanceledAfter (ps : list RelaxProposal).

(** [graph.Neighbors], the heuristic, the number of workers that the loop
    [for i := 0; i < NumberOfWorkers; i++] starts (none when
    [NumberOfWorkers] is not positive), and the scheduler's choices. *)
Variable graph : NodeType → list Neighbor.
Variable heuristic : NodeType → NodeType → Cost.
Variable workers : Z.
Variable arrive : NodeType → list RelaxProposal → Arrival.

(** The proposals the workers compute for the tasks of one round. *)
Definition proposals (currentNode : NodeType) (currentG : Cost)
    (goalNode : NodeType) : list RelaxProposal :=
  map (propose currentNode currentG goalNode heuristic) (graph currentNode).

(** A scheduler can deliver the round's proposals in any order, or a part of
    them before a cancellation. *)
Definition valid_arrival (ps : list RelaxProposal) (a : Arrival) : Prop :=
  match a with
  | Delivered l => l ≡ₚ ps
  | CanceledAfter l => l ⊆+ ps ∧ length l < length ps
  end.

(** ** Search *)

Definition initial_state (startNode goalNode : NodeType) : State :=
  let '(q1, a) :=
    new_item (heap_Init (mkPQ [] []))
             (mkItem startNode cost_zero (heuristic startNode goalNode) 0) in
  mkState (heap_Push q1 a) {[startNode := a]} ∅ ∅ {[startNode := cost_zero]}.

(** [delete(openSetMap, currentNode)] after the pop. *)
Definition popped (st : State) (q' : PriorityQueue) (currentNode : NodeType)
  : State :=
  mkState q' (delete currentNode (openSetMap st)) (closedSet st) (cameFrom st)
          (gScore st).

(** [closedSet[currentNode] = true]. *)
Definition close (st : State) (currentNode : NodeType) : State :=
  mkState (openSet st) (openSetMap st) (<[currentNode := true]> (closedSet st))
          (cameFrom st) (gScore st).

(** One pass through the body of the orchestrator's [for] loop. *)
Inductive Iter (S R : Type) : Type :=
  | Continue (s : S)
  | Retry (s : S)
  | Finish (o : Outcome R).
Arguments Continue {S R} s.
Arguments Retry {S R} s.
Arguments Finish {S R} o.

(** [Retry] is the [continue] that skips an already closed node, [Continue]
    the end of the body, [Finish] a [return]. *)
Definition search_body (startNode goalNode : NodeType) (st : State)
    (expandedNodes : nat) : Iter (State * nat) Result :=
  if Len (openSet st) =? 0 then
    Finish (Returned (mkResult [] cost_zero expandedNodes false)
                     (Some ErrNoPathFound))
  else
    match heap_Pop (openSet st) with
    | None => Finish Panicked
    | Some (a, q') =>
        match mem q' !! a with
        | None => Finish Panicked
        | Some currentItem =>
            let currentNode := Node currentItem in
            let st1 := popped st q' currentNode in
            if closed st1 currentNode then Retry (st1, expandedNodes)
            else
              let st2 := close st1 currentNode in
              let expandedNodes' := S expandedNodes in
              if bool_decide (currentNode = goalNode) then
                match reconstructPath (cameFrom st2) currentNode startNode with
                | None => Finish Blocked
                | Some path =>
                    Finish (Returned (mkResult path (GScore currentItem)
                                               expandedNodes' true) None)
                end
              else if (workers <? Z.of_nat (length (graph currentNode)))%Z then
                Finish Blocked
              else
                match arrive currentNode
                        (proposals currentNode (GScore currentItem) goalNode) with
                | CanceledAfter _ =>
                    Finish (Returned (mkResult [] cost_zero 0 false)
                                     (Some ErrCanceled))
                | Delivered ps =>
                    Continue (fold_left relax ps st2, expandedNodes')
                end
        end
    end.

(** The orchestrator loop; [fuel] bounds the number of passes and [None]
    means it was too small. *)
Fixpoint search_loop (fuel : nat) (startNode goalNode : NodeType) (st : State)
    (expandedNodes : nat) : option (Outcome Result) :=
  match fuel with
  | 0 => None
  | S fuel' =>
      match search_body startNode goalNode st expandedNodes with
      | Continue (st', n') | Retry (st', n') =>
          search_loop fuel' startNode goalNode st' n'
      | Finish o => Some o
      end
  end.

Definition Search (fuel : nat) (startNode goalNode : NodeType)
  : option (Outcome Result) :=
  search_loop fuel startNode goalNode (initial_state startNode goalNode) 0.

(** ** Stepper *)

Record StepSnapshot : Type := mkSnapshot {
  Current : NodeType;
  Open : gmap NodeType bool;
  Closed : gmap NodeType bool;
  CameFrom : gmap NodeType NodeType;
  Done : bool;
  SFound : bool;
  SPath : list NodeType;
  StepIndex : nat
}.

(** The mutable fields of the Go struct, and [goal]; [graph], [heuristic] and
    [workers] are those of the environment. *)
Record Stepper : Type := mkStepper {
  goal : NodeType;
  state : State;
  stepCount : nat;
  done : bool;
  found : bool
}.

Definition NewStepper (startNode goalNode : NodeType) : Stepper :=
  mkStepper goalNode (initial_state startNode goalNode) 0 false false.

Definition openSetToBoolMap (st : State) : gmap NodeType bool :=
  (fun _ => true) <$> openSetMap st.

(** The body of [Step] up to its first [return]: [StepRetry] is
    [return s.Step()] on the updated receiver. *)
Inductive StepIter : Type :=
  | StepRetry (s : Stepper)
  | StepReturn (o : Outcome (StepSnapshot * Stepper)).

Definition step_body (s : Stepper) : StepIter :=
  let st := state s in
  if done s then
    StepReturn
      (Returned (mkSnapshot zeroNode (openSetToBoolMap st) (closedSet st)
                            (cameFrom st) true (found s) [] (stepCount s), s)
                None)
  else if Len (openSet st) =? 0 then
    StepReturn
      (Returned (mkSnapshot zeroNode (openSetToBoolMap st) (closedSet st)
                            (cameFrom st) true false [] (stepCount s),
                 mkStepper (goal s) st (stepCount s) true (found s))
                None)
  else
    let stepCount' := S (stepCount s) in
    match heap_Pop (openSet st) with
    | None => StepReturn Panicked
    | Some (a, q') =>
        match mem q' !! a with
        | None => StepReturn Panicked
        | Some currentItem =>
            let current := Node currentItem in
            let st1 := popped st q' current in
            if closed st1 current then
              StepRetry (mkStepper (goal s) st1 stepCount' (done s) (found s))
            else
              let st2 := close st1 current in
              if bool_decide (current = goal s) then
                match inferStartFromCameFrom (cameFrom st2) current with
                | None => StepReturn Blocked
                | Some inferred =>
                    match reconstructPath (cameFrom st2) current inferred with
                    | None => StepReturn Blocked
                    | Some path =>
                        StepReturn
                          (Returned (mkSnapshot current (openSetToBoolMap st2)
                                                (closedSet st2) (cameFrom st2)
                                                true true path stepCount',
                                     mkStepper (goal s) st2 stepCount' true true)
                                    None)
                    end
                end
              else if (workers <? Z.of_nat (length (graph current)))%Z then
                StepReturn Blocked
              else
                match arrive current
                        (proposals current (GScore currentItem) (goal s)) with
                | CanceledAfter ps =>
                    let st3 := fold_left relax ps st2 in
                    StepReturn
                      (Returned (mkSnapshot zeroNode ∅ ∅ ∅ true false []
                                            stepCount',
                                 mkStepper (goal s) st3 stepCount' true (found s))
                                (Some ErrCanceled))
                | Delivered ps =>
                    let st3 := fold_left relax ps st2 in
                    StepReturn
                      (Returned (mkSnapshot current (openSetToBoolMap st3)
                                            (closedSet st3) (cameFrom st3)
                                            false false [] stepCount',
                                 mkStepper (goal s) st3 stepCount' (done s)
                                           (found s))
                                None)
                end
        end
    end.

(** [fuel] bounds the chain of retries; it is never exhausted from [Step]
    (lemma [Step_rec_fuel]). *)
Fixpoint Step_rec (fuel : nat) (s : Stepper) : Outcome (StepSnapshot * Stepper) :=
  match fuel with
  | 0 => Blocked
  | S fuel' =>
      match step_body s with
      | StepRetry s' => Step_rec fuel' s'
      | StepReturn o => o
      end
  end.

(** Every retry follows a pop, so [Len + 1] calls suffice. *)
Definition Step (s : Stepper) : Outcome (StepSnapshot * Stepper) :=
  Step_rec (S (Len (openSet (state s)))) s.

(** Calling [Step] until a snapshot has [Done]; [None] when [fuel] calls did
    not suffice.  The last snapshot, the receiver and the last error are
    returned. *)
Fixpoint step_until_done (fuel : nat) (s : Stepper)
  : option (Outcome (StepSnapshot * Stepper)) :=
  match fuel with
  | 0 => None
  | S fuel' =>
      match Step s with
      | Returned (snap, s') err =>
          if Done snap then Some (Returned (snap, s') err)
          else step_until_done fuel' s'
      | o => Some o
      end
  end.

(** * Specification

    The predicates in which the properties of the engine are stated: what the
    heap operations keep, the invariants of a run, the runs themselves, and
    the relations between the states of a run. *)

(** ** The frontier

    The fields of an item that the heap operations never write. *)
Definition payload (it : PriorityQueueItem) : NodeType * Cost * Cost :=
  (Node it, GScore it, FCost it).

(** [q'] holds the pointers of [q] in some order, and every item has kept
    its [Node], [GScore] and [FCost]. *)
Definition same_items (q q' : PriorityQueue) : Prop :=
  slice q ≡ₚ slice q' ∧ payload <$> mem q = payload <$> mem q'.

(** The node of the item at address [a]. *)
Definition node_at (q : PriorityQueue) (a : nat) : option NodeType :=
  Node <$> mem q !! a.

(** The slice holds distinct allocated pointers, [openSetMap] is exactly the
    node-to-pointer index of the items in the slice, and no indexed node is
    closed. *)
Record frontier_ok (st : State) : Prop := mkFrontierOk {
  fo_nodup : NoDup (slice (openSet st));
  fo_alloc : ∀ a, a ∈ slice (openSet st) → a < length (mem (openSet st));
  fo_index : ∀ v a,
    openSetMap st !! v = Some a ↔
    a ∈ slice (openSet st) ∧ node_at (openSet st) a = Some v;
  fo_open : ∀ v, is_Some (openSetMap st !! v) → closed st v = false
}.

(** The test [!exists || proposal.GScore < currentG]. *)
Definition improves (st : State) (p : RelaxProposal) : Prop :=
  gScore st !! ToNode p = None
  ∨ ∃ g, gScore st !! ToNode p = Some g ∧ cost_lt (PGScore p) g = true.

(** The item store after the in-place update of the item at [a]. *)
Definition tightened (m : list PriorityQueueItem) (a : nat) (p : RelaxProposal)
  : list PriorityQueueItem :=
  match m !! a with
  | Some item =>
      if cost_lt (PFCost p) (FCost item) then
        <[a := mkItem (Node item) (PGScore p) (PFCost p) (IndexInQueue item)]> m
      else m
  | None => m
  end.

(** What a relaxation does: the proposal is discarded; or the scores are
    written and a new item is pushed; or the scores are written and the item
    of the node, already in the frontier, is tightened when its f-score
    improves. *)
Inductive relax_effect (st : State) (p : RelaxProposal) (st' : State) : Prop :=
  | relax_discard :
      st' = st →
      closed st (ToNode p) = true ∨
      (∃ g, gScore st !! ToNode p = Some g ∧ cost_lt (PGScore p) g = false) →
      relax_effect st p st'
  | relax_push :
      closed st (ToNode p) = false →
      improves st p →
      openSetMap st !! ToNode p = None →
      closedSet st' = closedSet st →
      cameFrom st' = <[ToNode p := FromNode p]> (cameFrom st) →
      gScore st' = <[ToNode p := PGScore p]> (gScore st) →
      openSetMap st' = <[ToNode p := length (mem (openSet st))]> (openSetMap st) →
      slice (openSet st') ≡ₚ length (mem (openSet st)) :: slice (openSet st) →
      payload <$> mem (openSet st') =
        payload <$> (mem (openSet st)
                     ++ [mkItem (ToNode p) (PGScore p) (PFCost p) 0]) →
      relax_effect st p st'
  | relax_update a :
      closed st (ToNode p) = false →
      improves st p →
      openSetMap st !! ToNode p = Some a →
      closedSet st' = closedSet st →
      cameFrom st' = <[ToNode p := FromNode p]> (cameFrom st) →
      gScore st' = <[ToNode p := PGScore p]> (gScore st) →
      openSetMap st' = openSetMap st →
      slice (openSet st') ≡ₚ slice (openSet st) →
      payload <$> mem (openSet st') =
        payload <$> tightened (mem (openSet st)) a p →
      relax_effect st p st'.

(** ** The predecessor links

    [rooted st start v]: following [cameFrom] from [v] through closed nodes
    ends at [start]. *)
Inductive rooted (st : State) (start : NodeType) : NodeType → Prop :=
  | rooted_start : rooted st start start
  | rooted_step v u :
      closed st v = true →
      cameFrom st !! v = Some u →
      rooted st start u →
      rooted st start v.

(** The links point to closed nodes, the start node has none, every node of
    the frontier but the start has one, and every closed node is rooted.
    Before the first pop only the start node is in the frontier. *)
Record tree_ok (start : NodeType) (st : State) : Prop := mkTreeOk {
  to_start :
    closed st start = true
    ∨ (cameFrom st = ∅ ∧ ∀ v, is_Some (openSetMap st !! v) → v = start);
  to_pred : ∀ v u, cameFrom st !! v = Some u → closed st u = true;
  to_root : cameFrom st !! start = None;
  to_open : ∀ v,
    is_Some (openSetMap st !! v) → v = start ∨ is_Some (cameFrom st !! v);
  to_rooted : ∀ v, closed st v = true → rooted st start v
}.

(** The invariant of a run; the closed set only stores [true]. *)
Definition run_inv (start : NodeType) (st : State) : Prop :=
  frontier_ok st ∧ tree_ok start st
  ∧ ∀ v b, closedSet st !! v = Some b → b = true.

(** ** Runs *)

(** The proposals a round receives. *)
Definition arrived (a : Arrival) : list RelaxProposal :=
  match a with Delivered l | CanceledAfter l => l end.

(** In every round the scheduler delivers proposals of that round. *)
Definition fair_schedule : Prop := ∀ u ps, valid_arrival ps (arrive u ps).

(** The context is not cancelled while the search runs: no worker leaves and
    every round receives all its proposals. *)
Definition never_cancelled : Prop := ∀ u ps, ∃ l, arrive u ps = Delivered l.

(** The states at the head of the orchestrator loop in a run of [Search]. *)
Inductive search_reach (startNode goalNode : NodeType) : State → nat → Prop :=
  | sr_init :
      search_reach startNode goalNode (initial_state startNode goalNode) 0
  | sr_continue st n st' n' :
      search_reach startNode goalNode st n →
      search_body startNode goalNode st n = Continue (st', n') →
      search_reach startNode goalNode st' n'
  | sr_retry st n st' n' :
      search_reach startNode goalNode st n →
      search_body startNode goalNode st n = Retry (st', n') →
      search_reach startNode goalNode st' n'.

(** The receivers met in a sequence of [Step] calls on a new [Stepper]. *)
Inductive stepper_reach (startNode goalNode : NodeType) : Stepper → Prop :=
  | tr_new : stepper_reach startNode goalNode (NewStepper startNode goalNode)
  | tr_step s snap s' err :
      stepper_reach startNode goalNode s →
      Step s = Returned (snap, s') err →
      stepper_reach startNode goalNode s'.

(** Splits the body of [Search] or [Step], given as the hypothesis [Hbody],
    along its branches down to the round of relaxations. *)
Ltac body_cases Hbody st Hpop Hit Hcl :=
  let a := fresh "a" in
  let q' := fresh "q'" in
  let it := fresh "it" in
  destruct (Len (openSet st) =? 0) eqn:?;
  [|destruct (heap_Pop (openSet st)) as [[a q']|] eqn:Hpop;
    [destruct (mem q' !! a) as [it|] eqn:Hit;
     [destruct (closed (popped st q' (Node it)) (Node it)) eqn:Hcl|]|]].

(** ** Relations between the states of a run

    The closed nodes of [st] are closed in [st']. *)
Definition closed_le (st st' : State) : Prop :=
  ∀ v, closed st v = true → closed st' v = true.

(** [lowered g g']: [g'] is [g] after some strict decreases. *)
Inductive lowered : Cost → Cost → Prop :=
  | lowered_refl g : lowered g g
  | lowered_step g g1 g2 :
      lowered g g1 → cost_lt g2 g1 = true → lowered g g2.

(** Every g-score entry of [st] is still an entry of [st'], unchanged or
    lowered. *)
Definition gscore_le (st st' : State) : Prop :=
  ∀ v g, gScore st !! v = Some g →
         ∃ g', gScore st' !! v = Some g' ∧ lowered g g'.

(** At the head of the loop the counter is the number of closed nodes and the
    goal has not been popped. *)
Definition count_inv (goalNode : NodeType) (st : State) (n : nat) : Prop :=
  frontier_ok st
  ∧ (∀ v b, closedSet st !! v = Some b → b = true)
  ∧ n = size (closedSet st)
  ∧ closed st goalNode = false.

(** ** The [Stepper] *)

(** The snapshot of the [if s.done] branch. *)
Definition done_snapshot (s : Stepper) : StepSnapshot :=
  mkSnapshot zeroNode (openSetToBoolMap (state s)) (closedSet (state s))
             (cameFrom (state s)) true (found s) [] (stepCount s).

(** The four returns of a call that finds [s.done] false and pops a node that
    is not closed, and the return of a call on a finished receiver. *)
Inductive step_result (s : Stepper)
  : StepSnapshot → Stepper → option SearchError → Prop :=
  | res_done :
      done s = true →
      step_result s (done_snapshot s) s None
  | res_exhausted :
      done s = false →
      Len (openSet (state s)) = 0 →
      step_result s
        (mkSnapshot zeroNode (openSetToBoolMap (state s)) (closedSet (state s))
                    (cameFrom (state s)) true false [] (stepCount s))
        (mkStepper (goal s) (state s) (stepCount s) true (found s)) None
  | res_goal a q' it inferred path :
      done s = false →
      heap_Pop (openSet (state s)) = Some (a, q') →
      mem q' !! a = Some it →
      closed (state s) (Node it) = false →
      Node it = goal s →
      inferStartFromCameFrom
        (cameFrom (close (popped (state s) q' (Node it)) (Node it))) (Node it)
        = Some inferred →
      reconstructPath
        (cameFrom (close (popped (state s) q' (Node it)) (Node it))) (Node it)
        inferred = Some path →
      step_result s
        (mkSnapshot (Node it)
           (openSetToBoolMap (close (popped (state s) q' (Node it)) (Node it)))
           (closedSet (close (popped (state s) q' (Node it)) (Node it)))
           (cameFrom (close (popped (state s) q' (Node it)) (Node it)))
           true true path (S (stepCount s)))
        (mkStepper (goal s) (close (popped (state s) q' (Node it)) (Node it))
                   (S (stepCount s)) true true)
        None
  | res_canceled a q' it ps :
      done s = false →
      heap_Pop (openSet (state s)) = Some (a, q') →
      mem q' !! a = Some it →
      closed (state s) (Node it) = false →
      Node it ≠ goal s →
      (Z.of_nat (length (graph (Node it))) ≤ workers)%Z →
      arrive (Node it) (proposals (Node it) (GScore it) (goal s))
        = CanceledAfter ps →
      step_result s
        (mkSnapshot zeroNode ∅ ∅ ∅ true false [] (S (stepCount s)))
        (mkStepper (goal s)
           (fold_left relax ps (close (popped (state s) q' (Node it)) (Node it)))
           (S (stepCount s)) true (found s))
        (Some ErrCanceled)
  | res_expanded a q' it ps :
      done s = false →
      heap_Pop (openSet (state s)) = Some (a, q') →
      mem q' !! a = Some it →
      closed (state s) (Node it) = false →
      Node it ≠ goal s →
      (Z.of_nat (length (graph (Node it))) ≤ workers)%Z →
      arrive (Node it) (proposals (Node it) (GScore it) (goal s))
        = Delivered ps →
      step_result s
        (mkSnapshot (Node it)
           (openSetToBoolMap
              (fold_left relax ps (close (popped (state s) q' (Node it)) (Node it))))
           (closedSet
              (fold_left relax ps (close (popped (state s) q' (Node it)) (Node it))))
           (cameFrom
              (fold_left relax ps (close (popped (state s) q' (Node it)) (Node it))))
           false false [] (S (stepCount s)))
        (mkStepper (goal s)
           (fold_left relax ps (close (popped (state s) q' (Node it)) (Node it)))
           (S (stepCount s)) false (found s))
        None.



(** The error [Step] returns where [Search] returns [err]: the exhausted
    frontier is an error of [Search] only. *)
Definition step_error (err : option SearchError) : option SearchError :=
  match err with
  | Some ErrNoPathFound => None
  | _ => err
  end.

(** How the last snapshot of a [Stepper] matches a result of [Search]. *)
Definition agrees (r : Result) (snap : StepSnapshot) : Prop :=
  Done snap = true
  ∧ SFound snap = Found r
  ∧ size (Closed snap) = ExpandedNodes r
  ∧ SPath snap = Path r.

(** ** Paths and costs *)

(** [walk p cs]: [p] is a non-empty sequence of nodes in which every
    consecutive pair is an edge given by [graph.Neighbors], and [cs] lists
    the costs of those edges in order. *)
Inductive walk : list NodeType → list Cost → Prop :=
  | walk_one v : walk [v] []
  | walk_step p u v c cs :
      walk (p ++ [u]) cs →
      mkNeighbor v c ∈ graph u →
      walk (p ++ [u; v]) (cs ++ [c]).

(** [chain came v l e]: [l] lists the nodes met after [v] when following
    [came] from [v] to [e]. *)
Inductive chain (came : gmap NodeType NodeType)
  : NodeType → list NodeType → NodeType → Prop :=
  | chain_nil v : chain came v [] v
  | chain_cons v u l e :
      came !! v = Some u → chain came u l e → chain came v (u :: l) e.

(** [trail came start v l e]: the loop of [reconstructPath], at [v], appends
    the nodes [l] and stops at [e], the start node or a node without
    predecessor. *)
Inductive trail (came : gmap NodeType NodeType) (start : NodeType)
  : NodeType → list NodeType → NodeType → Prop :=
  | trail_stop v : v = start ∨ came !! v = None → trail came start v [] v
  | trail_step v u l e :
      v ≠ start → came !! v = Some u → trail came start u l e →
      trail came start v (u :: l) e.

(** Every predecessor link is an edge of the graph. *)
Definition links_ok (st : State) : Prop :=
  ∀ v u, cameFrom st !! v = Some u → ∃ c, mkNeighbor v c ∈ graph u.

(** [path_cost startNode l v g]: [g] is the sum, from the zero cost and in
    order, of the edge costs along a path from [startNode] to [v] that visits
    no node twice; [l] lists the earlier nodes of the path, the latest
    first.  These are the values [tentativeGScore] can take for [v]. *)
Inductive path_cost (startNode : NodeType)
  : list NodeType → NodeType → Cost → Prop :=
  | pc_start : path_cost startNode [] startNode cost_zero
  | pc_edge l u g v c :
      path_cost startNode l u g →
      mkNeighbor v c ∈ graph u →
      v ∉ u :: l →
      path_cost startNode (u :: l) v (cost_add g c).

(** Between two such sums for the same node, adding the heuristic value of
    the node keeps strict order: the lower g-score has the lower f-score.
    Rounding can break this, as on [rounding_graph] below; on
    [shortcut_graph] it holds at [float64]. *)
Definition exact_on_paths (startNode goalNode : NodeType) : Prop :=
  ∀ v l1 g1 l2 g2,
    path_cost startNode l1 v g1 → path_cost startNode l2 v g2 →
    cost_lt g1 g2 = true →
    cost_lt (cost_add g1 (heuristic v goalNode))
            (cost_add g2 (heuristic v goalNode)) = true.

(** Every g-score is the sum along a path without repetition whose earlier
    nodes are closed. *)
Definition sums_ok (startNode : NodeType) (st : State) : Prop :=
  ∀ v g, gScore st !! v = Some g →
    ∃ l, path_cost startNode l v g ∧ ∀ x, x ∈ l → closed st x = true.

(** The items of the frontier carry the g-score of their node, and the
    g-score of a node is that of its predecessor plus the cost of an edge
    between them. *)
Record cost_ok (startNode goalNode : NodeType) (st : State) : Prop := mkCostOk {
  co_items : ∀ a it,
    a ∈ slice (openSet st) → mem (openSet st) !! a = Some it →
    gScore st !! Node it = Some (GScore it)
    ∧ (Node it ≠ startNode →
       FCost it = cost_add (GScore it) (heuristic (Node it) goalNode));
  co_links : ∀ v u,
    cameFrom st !! v = Some u →
    ∃ gu c, gScore st !! u = Some gu ∧ mkNeighbor v c ∈ graph u
            ∧ gScore st !! v = Some (cost_add gu c);
  co_start : gScore st !! startNode = Some cost_zero
}.

(** ** Finite graphs *)

(** The nodes of [U] that are not closed yet. *)
Definition unclosed (U : gset NodeType) (st : State) : gset NodeType :=
  filter (fun v => closed st v = false) U.

(** Every node of the open-set index is in [U]. *)
Definition open_in (U : gset NodeType) (st : State) : Prop :=
  ∀ v, is_Some (openSetMap st !! v) → v ∈ U.

(** ** The index kept in the items

    The [IndexInQueue] of an item of the slice is its position, or [0]. *)
Definition index_ok (q : PriorityQueue) : Prop :=
  ∀ k a it, slice q !! k = Some a → mem q !! a = Some it →
            IndexInQueue it = k ∨ IndexInQueue it = 0.

(** Distinct allocated pointers, with such indices. *)
Record pq_ok (q : PriorityQueue) : Prop := mkPqOk {
  pq_nodup : NoDup (slice q);
  pq_alloc : ∀ a, a ∈ slice q → a < length (mem q);
  pq_index : index_ok q
}.

(** The frontier as the heap operations need it. *)
Definition heap_ok (st : State) : Prop :=
  frontier_ok st ∧ pq_ok (openSet st).

(** ** The order of the frontier *)







(** * Properties *)

(** ** Exchanging two cells of a slice *)

Section ListSwap.
Context {A : Type}.
Implicit Types l : list A.

Lemma delete_insert_same l i x : delete i (<[i:=x]> l) = delete i l.
Proof.
  revert i. induction l as [|y l IH]; intros [|i]; simpl; try done.
  by rewrite IH.
Qed.

Lemma insert_Permutation_delete l i x :
  i < length l → <[i:=x]> l ≡ₚ x :: delete i l.
Proof.
  intros Hi. rewrite <-(delete_insert_same l i x).
  apply delete_Permutation, list_lookup_insert_eq, Hi.
Qed.

Lemma exchange_Permutation l i j a b :
  l !! i = Some a → l !! j = Some b → <[j:=a]> (<[i:=b]> l) ≡ₚ l.
Proof.
  intros Hi Hj.
  assert (i < length l) by (by eapply lookup_lt_Some).
  assert (j < length l) by (by eapply lookup_lt_Some).
  destruct (decide (i = j)) as [->|Hne].
  - rewrite list_insert_insert_eq. simplify_eq. by rewrite list_insert_id.
  - set (l' := <[i:=b]> l).
    assert (Hj' : l' !! j = Some b)
      by (unfold l'; by rewrite list_lookup_insert_ne).
    assert (Hd : delete j l' ≡ₚ delete i l).
    { apply (Permutation_cons_inv (a:=b)).
      rewrite <-(delete_Permutation l' j b Hj').
      unfold l'. by apply insert_Permutation_delete. }
    rewrite insert_Permutation_delete by (unfold l'; by rewrite length_insert).
    rewrite Hd. symmetry. by apply delete_Permutation.
Qed.

End ListSwap.

(** ** The heap operations only rearrange the frontier

    [container/heap] moves pointers inside the slice and rewrites
    [IndexInQueue]; the pointers held and the [Node], [GScore] and [FCost] of
    every item stay what they were. *)

#[local] Instance same_items_refl : Reflexive same_items.
Proof. by intros q. Qed.

#[local] Instance same_items_trans : Transitive same_items.
Proof. intros q1 q2 q3 [? ?] [? ?]. split; by etrans. Qed.

Lemma payload_alter_index i a (m : list PriorityQueueItem) :
  payload <$> alter (set_index i) a m = payload <$> m.
Proof.
  rewrite (list_fmap_alter _ (set_index i) id) by (by apply Forall_forall).
  apply list_eq. intros k. rewrite list_lookup_alter.
  case_decide; [|done]. subst. by destruct (_ !! _).
Qed.

Lemma Swap_same_items q i j : same_items q (Swap q i j).
Proof.
  unfold Swap.
  destruct (slice q !! i) as [a|] eqn:Hi; [|done].
  destruct (slice q !! j) as [b|] eqn:Hj; [|done].
  split; simpl.
  - symmetry. by apply exchange_Permutation.
  - by rewrite !payload_alter_index.
Qed.

Lemma up_loop_same_items fuel q j : same_items q (up_loop fuel q j).
Proof.
  revert q j. induction fuel as [|fuel IH]; intros q j; simpl; [done|].
  destruct (_ || _); [done|].
  etrans; [apply (Swap_same_items q (parent j) j)|apply IH].
Qed.

Lemma down_loop_same_items fuel q i n :
  same_items q (down_loop fuel q i n).1.
Proof.
  revert q i. induction fuel as [|fuel IH]; intros q i; simpl; [done|].
  destruct (n <=? _); [done|].
  destruct (negb _); [done|].
  etrans; [apply Swap_same_items|apply IH].
Qed.

Lemma down_same_items q i n : same_items q (down q i n).1.
Proof.
  unfold down. pose proof (down_loop_same_items n q i n) as Hs.
  by destruct (down_loop n q i n).
Qed.

Lemma heap_Fix_same_items q i : same_items q (heap_Fix q i).
Proof.
  unfold heap_Fix. pose proof (down_same_items q i (Len q)) as Hs.
  destruct (down q i (Len q)) as [q1 [|]]; simpl in *; [done|].
  etrans; [done|apply up_loop_same_items].
Qed.

Lemma heap_Push_items q a :
  slice (heap_Push q a) ≡ₚ a :: slice q
  ∧ payload <$> mem (heap_Push q a) = payload <$> mem q.
Proof.
  unfold heap_Push, up.
  destruct (up_loop_same_items (S (Len (pq_Push q a) - 1)) (pq_Push q a)
              (Len (pq_Push q a) - 1)) as [Hp Hm].
  split; [|by rewrite <-Hm].
  rewrite <-Hp. simpl. by rewrite Permutation_app_comm.
Qed.

Lemma same_items_Len q q' : same_items q q' → Len q = Len q'.
Proof. intros [Hp _]. unfold Len. by rewrite Hp. Qed.

Lemma heap_Pop_None q : heap_Pop q = None ↔ Len q = 0.
Proof.
  unfold heap_Pop. destruct (Len q) as [|n] eqn:Hn; [done|].
  split; [|done]. intros Hpop.
  pose proof (down_same_items (Swap q 0 n) 0 n) as Hd.
  pose proof (Swap_same_items q 0 n) as Hs.
  apply same_items_Len in Hd, Hs.
  unfold pq_Pop in Hpop. rewrite last_lookup in Hpop.
  destruct (slice _ !! _) eqn:Hl; [done|].
  apply lookup_ge_None in Hl. unfold Len in *. lia.
Qed.

Lemma heap_Pop_items q a q' :
  heap_Pop q = Some (a, q') →
  slice q ≡ₚ a :: slice q' ∧ payload <$> mem q = payload <$> mem q'.
Proof.
  unfold heap_Pop. destruct (Len q) as [|n] eqn:Hn; [done|].
  intros Hpop.
  assert (Hs : same_items q (down (Swap q 0 n) 0 n).1)
    by (etrans; [apply Swap_same_items|apply down_same_items]).
  destruct Hs as [Hp Hm]. revert Hpop.
  generalize dependent ((down (Swap q 0 n) 0 n).1). intros q1 Hp Hm.
  unfold pq_Pop. destruct (last (slice q1)) as [b|] eqn:Hl; [|done].
  simpl. intros [= <- <-]. simpl. split; [|done].
  apply last_Some in Hl as [l' Hl]. rewrite Hp, Hl.
  unfold Len. rewrite Hl, length_app. simpl.
  replace (length l' + 1 - 1) with (length l') by lia.
  rewrite take_app_length. by rewrite Permutation_app_comm.
Qed.

(** ** The frontier and its index

    [frontier_ok]: the slice holds distinct allocated pointers, [openSetMap] is
    exactly the node-to-pointer index of the items in the slice, and no
    indexed node is closed. *)

Lemma payload_nodes (m m' : list PriorityQueueItem) :
  payload <$> m = payload <$> m' → Node <$> m = Node <$> m'.
Proof.
  intros Heq.
  assert (Hc : ∀ l : list PriorityQueueItem,
             Node <$> l = (fun t => t.1.1) <$> (payload <$> l)).
  { intros l. rewrite <-list_fmap_compose. by apply list_fmap_ext. }
  by rewrite !Hc, Heq.
Qed.

Lemma nodes_node_at q q' a :
  Node <$> mem q = Node <$> mem q' → node_at q a = node_at q' a.
Proof.
  intros Heq. unfold node_at. by rewrite <-!list_lookup_fmap, Heq.
Qed.

Lemma frontier_ok_rearrange st q' came' g' :
  frontier_ok st →
  slice q' ≡ₚ slice (openSet st) →
  Node <$> mem q' = Node <$> mem (openSet st) →
  frontier_ok (mkState q' (openSetMap st) (closedSet st) came' g').
Proof.
  intros [Hnd Hal Hix Hop] Hp Hn. split; simpl.
  - by rewrite Hp.
  - intros a. rewrite Hp. intros Ha%Hal.
    by rewrite <-(length_fmap Node), Hn, length_fmap.
  - intros v a. rewrite Hix, Hp. by rewrite (nodes_node_at q' (openSet st)).
  - done.
Qed.

(** Popping and closing keeps the frontier well formed, and the node popped
    was indexed and not closed. *)
Lemma frontier_ok_pop st a q' it :
  frontier_ok st →
  heap_Pop (openSet st) = Some (a, q') →
  mem q' !! a = Some it →
  openSetMap st !! Node it = Some a
  ∧ closed st (Node it) = false
  ∧ frontier_ok (popped st q' (Node it))
  ∧ frontier_ok (close (popped st q' (Node it)) (Node it)).
Proof.
  intros [Hnd Hal Hix Hop] Hpop Hit.
  apply heap_Pop_items in Hpop as [Hp Hm]. apply payload_nodes in Hm.
  assert (Hna : node_at (openSet st) a = Some (Node it)).
  { rewrite (nodes_node_at _ q') by done. unfold node_at. by rewrite Hit. }
  assert (Hin : a ∈ slice (openSet st)) by (rewrite Hp; left).
  assert (Hmap : openSetMap st !! Node it = Some a) by (by apply Hix).
  rewrite Hp in Hnd. apply NoDup_cons in Hnd as [Hnin Hnd'].
  assert (Hfo : frontier_ok (popped st q' (Node it))).
  { split; simpl.
    - done.
    - intros b Hb. rewrite <-(length_fmap Node), <-Hm, length_fmap.
      apply Hal. rewrite Hp. by right.
    - intros v b. rewrite lookup_delete_Some, Hix, Hp.
      rewrite (nodes_node_at q' (openSet st)) by done.
      split.
      + intros (Hne & [->|Hb]%elem_of_cons & Hnb); [congruence|done].
      + intros [Hb Hnb]. split_and!; [|by right|done].
        intros <-.
        assert (Hb2 : openSetMap st !! Node it = Some b)
          by (apply Hix; split; [rewrite Hp; by right|done]).
        rewrite Hmap in Hb2. by simplify_eq.
    - intros v [b [_ Hb]%lookup_delete_Some]. by apply Hop. }
  split_and!; [done|by apply Hop|done|].
  destruct Hfo as [? ? ? Hop']. split; simpl in *; try done.
  intros v [b Hb]. pose proof Hb as [Hne _]%lookup_delete_Some.
  unfold closed. simpl. rewrite lookup_insert_ne by done.
  apply Hop'. by exists b.
Qed.

(** ** What one relaxation does *)

Lemma relax_spec st p : relax_effect st p (relax st p).
Proof.
  unfold relax.
  destruct (closed st (ToNode p)) eqn:Hcl; [by apply relax_discard; auto|].
  destruct (gScore st !! ToNode p) as [g|] eqn:Hg.
  - destruct (cost_lt (PGScore p) g) eqn:Hlt; simpl;
      [|apply relax_discard; eauto].
    assert (Himp : improves st p) by (right; eauto).
    destruct (openSetMap st !! ToNode p) as [a|] eqn:Hm.
    + eapply (relax_update _ _ _ a); try done;
        unfold tightened;
        destruct (mem (openSet st) !! a) as [item|] eqn:Hi; simpl; try done;
        destruct (cost_lt (PFCost p) (FCost item)); simpl; try done.
      * symmetry. apply (heap_Fix_same_items (mkPQ _ _)).
      * symmetry. apply (heap_Fix_same_items (mkPQ _ _)).
    + simpl. destruct (heap_Push_items
        (mkPQ (slice (openSet st))
              (mem (openSet st) ++ [mkItem (ToNode p) (PGScore p) (PFCost p) 0]))
        (length (mem (openSet st)))) as [Hp Hpl].
      by eapply relax_push.
  - simpl. assert (Himp : improves st p) by (by left).
    destruct (openSetMap st !! ToNode p) as [a|] eqn:Hm.
    + eapply (relax_update _ _ _ a); try done;
        unfold tightened;
        destruct (mem (openSet st) !! a) as [item|] eqn:Hi; simpl; try done;
        destruct (cost_lt (PFCost p) (FCost item)); simpl; try done.
      * symmetry. apply (heap_Fix_same_items (mkPQ _ _)).
      * symmetry. apply (heap_Fix_same_items (mkPQ _ _)).
    + simpl. destruct (heap_Push_items
        (mkPQ (slice (openSet st))
              (mem (openSet st) ++ [mkItem (ToNode p) (PGScore p) (PFCost p) 0]))
        (length (mem (openSet st)))) as [Hp Hpl].
      by eapply relax_push.
Qed.

Lemma tightened_nodes m a p : Node <$> tightened m a p = Node <$> m.
Proof.
  unfold tightened. destruct (m !! a) as [item|] eqn:Hi; [|done].
  destruct (cost_lt _ _); [|done].
  rewrite list_fmap_insert. simpl. apply list_insert_id.
  by rewrite list_lookup_fmap, Hi.
Qed.

Lemma relax_closedSet st p : closedSet (relax st p) = closedSet st.
Proof. by destruct (relax_spec st p) as [->| |]. Qed.

Lemma relax_closed st p v : closed (relax st p) v = closed st v.
Proof. unfold closed. by rewrite relax_closedSet. Qed.

Lemma frontier_ok_relax st p : frontier_ok st → frontier_ok (relax st p).
Proof.
  intros Hok. destruct (relax_spec st p) as
    [->|Hcl Himp Hm Hc Hcf Hg Hom Hp Hpl|a Hcl Himp Hm Hc Hcf Hg Hom Hp Hpl];
    [done| |].
  - destruct Hok as [Hnd Hal Hix Hop].
    apply payload_nodes in Hpl.
    assert (Hlen : length (mem (openSet (relax st p)))
                   = S (length (mem (openSet st)))).
    { rewrite <-(length_fmap Node), Hpl, length_fmap, length_app. simpl. lia. }
    assert (Hnode : ∀ b, node_at (openSet (relax st p)) b =
              if decide (b = length (mem (openSet st))) then Some (ToNode p)
              else node_at (openSet st) b).
    { intros b. unfold node_at. rewrite <-!list_lookup_fmap, Hpl.
      rewrite fmap_app. simpl. case_decide as Hb.
      - subst b. rewrite lookup_app_r by (by rewrite length_fmap).
        by rewrite length_fmap, Nat.sub_diag.
      - destruct (decide (b < length (mem (openSet st)))).
        + by rewrite lookup_app_l by (by rewrite length_fmap).
        + rewrite !lookup_ge_None_2; [done|rewrite length_fmap; lia|].
          rewrite length_app, length_fmap. simpl. lia. }
    assert (Hfresh : length (mem (openSet st)) ∉ slice (openSet st)).
    { intros Hin%Hal. lia. }
    split.
    + rewrite Hp. by apply NoDup_cons.
    + intros b. rewrite Hp, Hlen. intros [->|Hb%Hal]%elem_of_cons; lia.
    + intros v b. rewrite Hom, Hp, Hnode, lookup_insert_Some, elem_of_cons.
      case_decide as Hb.
      * subst b. split; [|intros [_ [= ->]]; by left].
        intros [[-> _]|[Hne Hv]]; [by split; [left|]|].
        apply Hix in Hv as [Hv _]. by apply Hal, Nat.lt_irrefl in Hv.
      * rewrite Hix. split.
        { intros [[_ ?]|[_ [? ?]]]; [done|]. split; [by right|done]. }
        intros [[?|Hb'] Hnb]; [done|]. right. split; [|done].
        intros <-. assert (openSetMap st !! ToNode p = Some b) as Hx
          by (by apply Hix). congruence.
    + intros v. rewrite Hom. intros [b Hb].
      replace (closed (relax st p) v) with (closed st v)
        by (unfold closed; by rewrite Hc).
      apply lookup_insert_Some in Hb as [[<- _]|[_ Hv]]; [done|].
      apply Hop. by exists b.
  - assert (frontier_ok (mkState (openSet (relax st p)) (openSetMap st)
              (closedSet st) (cameFrom (relax st p)) (gScore (relax st p))))
      as Hok'.
    { apply frontier_ok_rearrange; [done|done|].
      apply payload_nodes in Hpl. by rewrite Hpl, tightened_nodes. }
    rewrite <-Hom, <-Hc in Hok'. by destruct (relax st p).
Qed.

(** ** The predecessor links form a tree rooted at the start node

    [rooted st start v]: following [cameFrom] from [v] through closed nodes
    ends at [start]. *)

Lemma rooted_mono st st' start v :
  rooted st start v →
  (∀ x, closed st x = true →
        closed st' x = true ∧ cameFrom st' !! x = cameFrom st !! x) →
  rooted st' start v.
Proof.
  intros Hr Hst. induction Hr as [|v u Hcl Hcf _ IH]; [constructor|].
  destruct (Hst v Hcl) as [Hcl' Hcf'].
  apply (rooted_step _ _ v u); [done|by rewrite Hcf'|done].
Qed.

Lemma closed_close st v x :
  closed (close st v) x = if decide (v = x) then true else closed st x.
Proof.
  unfold closed, close. simpl. rewrite lookup_insert. by case_decide.
Qed.

Lemma tree_ok_pop start st a q' v :
  tree_ok start st →
  openSetMap st !! v = Some a →
  tree_ok start (close (popped st q' v) v)
  ∧ closed (close (popped st q' v) v) start = true.
Proof.
  intros [Hst Hpr Hro Hop Hrt] Hm.
  set (st' := close (popped st q' v) v).
  assert (Hgrow : ∀ x, closed st x = true →
            closed st' x = true ∧ cameFrom st' !! x = cameFrom st !! x).
  { intros x Hx. split; [|done]. unfold st'. rewrite closed_close.
    by case_decide. }
  assert (Hv : closed st' v = true).
  { unfold st'. rewrite closed_close. by case_decide. }
  assert (Hs' : closed st' start = true).
  { destruct Hst as [Hs|[_ Hs]]; [by apply Hgrow|].
    rewrite <-(Hs v); [done|by eexists]. }
  split; [|done]. split.
  - by left.
  - intros x u Hx. apply Hgrow. by eapply Hpr.
  - done.
  - intros x [b Hb]. simpl in Hb. apply lookup_delete_Some in Hb as [_ Hb].
    apply Hop. by exists b.
  - intros x Hx. unfold st' in Hx. rewrite closed_close in Hx.
    case_decide as Hvx; [subst x|by eapply rooted_mono; eauto].
    destruct (Hop v) as [->|[u Hu]]; [by eexists|constructor|].
    apply (rooted_step _ _ v u); [done|done|].
    eapply rooted_mono; [|done]. eapply Hrt, Hpr, Hu.
Qed.

Lemma tree_ok_relax start st p :
  tree_ok start st →
  closed st start = true →
  closed st (FromNode p) = true →
  tree_ok start (relax st p).
Proof.
  intros Hok Hs Hfrom.
  assert (Hgen : ∀ m',
    closed st (ToNode p) = false →
    closedSet (relax st p) = closedSet st →
    cameFrom (relax st p) = <[ToNode p := FromNode p]> (cameFrom st) →
    openSetMap (relax st p) = m' →
    (∀ v, is_Some (m' !! v) → v = ToNode p ∨ is_Some (openSetMap st !! v)) →
    tree_ok start (relax st p)).
  { intros m' Hcl Hc Hcf Hom Hkeys. destruct Hok as [Hst Hpr Hro Hop Hrt].
    assert (Hclosed : ∀ x, closed (relax st p) x = closed st x)
      by (intros x; unfold closed; by rewrite Hc).
    assert (Hne : ToNode p ≠ start) by congruence.
    split.
    - left. by rewrite Hclosed.
    - intros v u. rewrite Hcf, Hclosed.
      intros [[_ <-]|[_ Hv]]%lookup_insert_Some; [done|by eapply Hpr].
    - rewrite Hcf. by rewrite lookup_insert_ne.
    - intros v. rewrite Hom, Hcf. intros [->|Hv]%Hkeys.
      + right. rewrite lookup_insert_eq. by eexists.
      + destruct (Hop v Hv) as [->|Hc']; [by left|right].
        rewrite lookup_insert_is_Some. destruct (decide (ToNode p = v)); auto.
    - intros v. rewrite Hclosed. intros Hv.
      eapply rooted_mono; [by apply Hrt|].
      intros x Hx. rewrite Hclosed, Hcf. split; [done|].
      apply lookup_insert_ne. congruence. }
  destruct (relax_spec st p) as
    [->|Hcl Himp Hm Hc Hcf Hg Hom Hp Hpl|a Hcl Himp Hm Hc Hcf Hg Hom Hp Hpl];
    [done| |].
  - eapply (Hgen (<[ToNode p := length (mem (openSet st))]> (openSetMap st)));
      try done.
    intros v. rewrite lookup_insert_is_Some. intros [->|[_ ?]]; auto.
  - eapply (Hgen (openSetMap st)); try done. auto.
Qed.

(** ** The invariant of a run *)

Lemma run_inv_fold_relax start ps st :
  run_inv start st →
  closed st start = true →
  (∀ p, p ∈ ps → closed st (FromNode p) = true) →
  run_inv start (fold_left relax ps st)
  ∧ closedSet (fold_left relax ps st) = closedSet st.
Proof.
  revert st. induction ps as [|p ps IH]; intros st Hinv Hs Hfrom; [done|].
  simpl. destruct Hinv as (Hfo & Hto & Htrue).
  destruct (IH (relax st p)) as [Hi Hc].
  - split_and!.
    + by apply frontier_ok_relax.
    + apply tree_ok_relax; [done..|]. apply Hfrom. by left.
    + by rewrite relax_closedSet.
  - by rewrite relax_closed.
  - intros q Hq. rewrite relax_closed. apply Hfrom. by right.
  - split; [done|]. by rewrite Hc, relax_closedSet.
Qed.

Lemma fold_relax_closedSet ps st :
  closedSet (fold_left relax ps st) = closedSet st.
Proof.
  revert st. induction ps as [|p ps IH]; intros st; simpl; [done|].
  by rewrite IH, relax_closedSet.
Qed.

Lemma valid_arrival_elem ps a p : valid_arrival ps a → p ∈ arrived a → p ∈ ps.
Proof.
  destruct a as [l|l]; simpl.
  - by intros ->.
  - intros [Hl _] Hp. by eapply elem_of_submseteq.
Qed.

Lemma proposals_from u g goalNode p :
  p ∈ proposals u g goalNode → FromNode p = u.
Proof.
  unfold proposals. intros Hp%list_elem_of_In.
  by apply in_map_iff in Hp as (nb & <- & _).
Qed.

(** ** Runs *)

Lemma initial_state_eq startNode goalNode :
  initial_state startNode goalNode =
  mkState (mkPQ [0] [mkItem startNode cost_zero (heuristic startNode goalNode) 0])
          {[startNode := 0]} ∅ ∅ {[startNode := cost_zero]}.
Proof. reflexivity. Qed.

Lemma run_inv_initial startNode goalNode :
  run_inv startNode (initial_state startNode goalNode).
Proof.
  rewrite initial_state_eq. split_and!.
  - split; simpl.
    + apply NoDup_singleton.
    + intros a ->%list_elem_of_singleton. simpl. lia.
    + intros v a. rewrite lookup_singleton_Some, list_elem_of_singleton.
      unfold node_at. simpl. split.
      * by intros [<- <-].
      * intros [-> [= <-]]. done.
    + done.
  - split; simpl.
    + right. split; [done|]. by intros v [a [<- _]%lookup_singleton_Some].
    + intros v u. by rewrite lookup_empty.
    + done.
    + intros v [a [<- _]%lookup_singleton_Some]. by left.
    + done.
  - intros v b. simpl. by rewrite lookup_empty.
Qed.

(** Under the invariant a pop neither panics nor yields a closed node. *)
Lemma run_inv_pop_Some start st :
  run_inv start st → Len (openSet st) ≠ 0 →
  ∃ a q' it, heap_Pop (openSet st) = Some (a, q') ∧ mem q' !! a = Some it.
Proof.
  intros (Hfo & _) Hlen.
  destruct (heap_Pop (openSet st)) as [[a q']|] eqn:Hpop;
    [|by apply heap_Pop_None in Hpop].
  pose proof (heap_Pop_items _ _ _ Hpop) as [Hp Hm].
  assert (a < length (mem q')) as Hlt.
  { rewrite <-(length_fmap payload), <-Hm, length_fmap.
    apply (fo_alloc _ Hfo). rewrite Hp. by left. }
  apply lookup_lt_is_Some_2 in Hlt as [it Hit]. eauto.
Qed.

Lemma run_inv_pop start st a q' it :
  run_inv start st →
  heap_Pop (openSet st) = Some (a, q') →
  mem q' !! a = Some it →
  closed (popped st q' (Node it)) (Node it) = false
  ∧ run_inv start (close (popped st q' (Node it)) (Node it))
  ∧ closed (close (popped st q' (Node it)) (Node it)) start = true
  ∧ closedSet st !! Node it = None.
Proof.
  intros (Hfo & Hto & Htrue) Hpop Hit.
  destruct (frontier_ok_pop _ _ _ _ Hfo Hpop Hit) as (Hm & Hcl & _ & Hfo').
  destruct (tree_ok_pop start st a q' (Node it) Hto Hm) as [Hto' Hs].
  split_and!; try done.
  - split_and!; [done..|]. intros v b. simpl. rewrite lookup_insert_Some.
    intros [[_ <-]|[_ Hv]]; [done|by eapply Htrue].
  - unfold closed in Hcl. destruct (closedSet st !! Node it) as [b|] eqn:Hb;
      [|done].
    simpl in Hcl. subst b. by apply Htrue in Hb.
Qed.

(** The state after the relaxations of a round. *)
Lemma run_inv_round start st2 u g goalNode :
  fair_schedule →
  run_inv start st2 →
  closed st2 start = true →
  closed st2 u = true →
  run_inv start (fold_left relax (arrived (arrive u (proposals u g goalNode))) st2).
Proof.
  intros Hfair Hinv Hs Hu. apply run_inv_fold_relax; [done..|].
  intros p Hp. eapply valid_arrival_elem in Hp; [|apply Hfair].
  by rewrite (proposals_from _ _ _ _ Hp).
Qed.

Lemma search_body_inv startNode goalNode st n st' n' :
  fair_schedule →
  run_inv startNode st → n = size (closedSet st) →
  search_body startNode goalNode st n = Continue (st', n') →
  run_inv startNode st' ∧ n' = size (closedSet st').
Proof.
  intros Hfair Hinv -> Hbody. unfold search_body in Hbody.
  destruct (Len (openSet st) =? 0); [done|].
  destruct (heap_Pop (openSet st)) as [[a q']|] eqn:Hpop; [|done].
  destruct (mem q' !! a) as [it|] eqn:Hit; [|done].
  destruct (run_inv_pop _ _ _ _ _ Hinv Hpop Hit) as (Hcl & Hinv' & Hs & Hnone).
  rewrite Hcl in Hbody.
  destruct (bool_decide _); [by destruct (reconstructPath _ _ _)|].
  destruct (_ <? _)%Z; [done|].
  pose proof (run_inv_round startNode _ (Node it) (GScore it) goalNode
                Hfair Hinv' Hs) as Hround.
  destruct (arrive _ _) as [ps|ps]; [|done].
  injection Hbody as <- <-. split.
  - apply Hround. rewrite closed_close. by case_decide.
  - rewrite fold_relax_closedSet. simpl. by rewrite map_size_insert_None.
Qed.

Lemma search_body_no_retry startNode goalNode st n x :
  run_inv startNode st → search_body startNode goalNode st n ≠ Retry x.
Proof.
  intros Hinv Hbody. unfold search_body in Hbody.
  destruct (Len (openSet st) =? 0); [done|].
  destruct (heap_Pop (openSet st)) as [[a q']|] eqn:Hpop; [|done].
  destruct (mem q' !! a) as [it|] eqn:Hit; [|done].
  destruct (run_inv_pop _ _ _ _ _ Hinv Hpop Hit) as (Hcl & _).
  rewrite Hcl in Hbody.
  destruct (bool_decide _); [by destruct (reconstructPath _ _ _)|].
  destruct (_ <? _)%Z; [done|]. by destruct (arrive _ _).
Qed.

Lemma search_reach_inv startNode goalNode st n :
  fair_schedule →
  search_reach startNode goalNode st n →
  run_inv startNode st ∧ n = size (closedSet st).
Proof.
  intros Hfair. induction 1 as [|st n st' n' _ [IH1 IH2] Hb|st n st' n' _ [IH1 _] Hb].
  - split; [apply run_inv_initial|done].
  - by eapply search_body_inv.
  - by apply search_body_no_retry in Hb.
Qed.

(** *** The frontier invariant needs no assumption on the scheduler *)

Lemma frontier_ok_fold_relax ps st :
  frontier_ok st → frontier_ok (fold_left relax ps st).
Proof.
  revert st. induction ps as [|p ps IH]; intros st Hok; simpl; [done|].
  by apply IH, frontier_ok_relax.
Qed.

Lemma frontier_ok_initial startNode goalNode :
  frontier_ok (initial_state startNode goalNode).
Proof. apply run_inv_initial. Qed.

Lemma search_body_frontier startNode goalNode st n st' n' :
  frontier_ok st →
  search_body startNode goalNode st n = Continue (st', n') →
  frontier_ok st'.
Proof.
  intros Hok Hbody. unfold search_body in Hbody.
  body_cases Hbody st Hpop Hit Hcl; try done.
  destruct (frontier_ok_pop _ _ _ _ Hok Hpop Hit) as (_ & _ & _ & Hok').
  destruct (bool_decide _); [by destruct (reconstructPath _ _ _)|].
  destruct (_ <? _)%Z; [done|].
  destruct (arrive _ _) as [ps|ps]; [|done].
  injection Hbody as <- <-. by apply frontier_ok_fold_relax.
Qed.

Lemma frontier_pop_fresh st a q' it :
  frontier_ok st →
  heap_Pop (openSet st) = Some (a, q') →
  mem q' !! a = Some it →
  closed st (Node it) = false.
Proof.
  intros Hok Hpop Hit.
  by destruct (frontier_ok_pop _ _ _ _ Hok Hpop Hit) as (_ & ? & _).
Qed.

Lemma search_body_frontier_no_retry startNode goalNode st n x :
  frontier_ok st → search_body startNode goalNode st n ≠ Retry x.
Proof.
  intros Hok Hbody. unfold search_body in Hbody.
  body_cases Hbody st Hpop Hit Hcl; try done.
  - pose proof (frontier_pop_fresh _ _ _ _ Hok Hpop Hit) as Hf.
    change (closed st (Node it) = true) in Hcl. congruence.
  - destruct (bool_decide _); [by destruct (reconstructPath _ _ _)|].
    destruct (_ <? _)%Z; [done|]. by destruct (arrive _ _).
Qed.

Lemma search_reach_frontier startNode goalNode st n :
  search_reach startNode goalNode st n → frontier_ok st.
Proof.
  induction 1 as [|st n st' n' _ IH Hb|st n st' n' _ IH Hb].
  - apply frontier_ok_initial.
  - by eapply search_body_frontier.
  - by apply search_body_frontier_no_retry in Hb.
Qed.

Lemma step_body_no_retry s s' :
  frontier_ok (state s) → step_body s ≠ StepRetry s'.
Proof.
  intros Hok Hbody. unfold step_body in Hbody.
  destruct (done s); [done|].
  body_cases Hbody (state s) Hpop Hit Hcl; try done.
  - pose proof (frontier_pop_fresh _ _ _ _ Hok Hpop Hit) as Hf.
    change (closed (state s) (Node it) = true) in Hcl. congruence.
  - destruct (bool_decide _).
    { destruct (inferStartFromCameFrom _ _); [|done].
      by destruct (reconstructPath _ _ _). }
    destruct (_ <? _)%Z; [done|]. by destruct (arrive _ _).
Qed.

(** Without a retry, [Step] is its body. *)
Lemma Step_body s o : step_body s = StepReturn o → Step s = o.
Proof. intros Hb. unfold Step. simpl. by rewrite Hb. Qed.

Lemma Step_frontier_inv s :
  frontier_ok (state s) → ∃ o, step_body s = StepReturn o ∧ Step s = o.
Proof.
  intros Hok. destruct (step_body s) as [s'|o] eqn:Hb.
  - by apply step_body_no_retry in Hb.
  - exists o. split; [done|by apply Step_body].
Qed.

Lemma step_body_frontier s snap s' err :
  frontier_ok (state s) →
  step_body s = StepReturn (Returned (snap, s') err) →
  frontier_ok (state s').
Proof.
  intros Hok Hbody. unfold step_body in Hbody.
  destruct (done s); [by simplify_eq|].
  body_cases Hbody (state s) Hpop Hit Hcl; try done; [by simplify_eq|].
  destruct (frontier_ok_pop _ _ _ _ Hok Hpop Hit) as (_ & _ & _ & Hok').
  destruct (bool_decide _).
  { destruct (inferStartFromCameFrom _ _); [|done].
    destruct (reconstructPath _ _ _); [|done]. by simplify_eq. }
  destruct (_ <? _)%Z; [done|].
  destruct (arrive _ _) as [ps|ps]; simplify_eq; simpl;
    by apply frontier_ok_fold_relax.
Qed.

Lemma stepper_reach_frontier startNode goalNode s :
  stepper_reach startNode goalNode s → frontier_ok (state s).
Proof.
  induction 1 as [|s snap s' err _ IH Hstep].
  - apply frontier_ok_initial.
  - destruct (Step_frontier_inv s IH) as (o & Hb & Ho).
    rewrite Hstep in Ho. subst o. by eapply step_body_frontier.
Qed.

(** C10. In every run of [Search] and every sequence of [Step] calls the
    node popped from the frontier is not in the closed set, so the branch
    that discards a stale entry is never taken. *)
Theorem popped_node_never_closed startNode goalNode :
  (∀ st n, search_reach startNode goalNode st n →
     (∀ a q' it, heap_Pop (openSet st) = Some (a, q') →
                 mem q' !! a = Some it → closed st (Node it) = false)
     ∧ ∀ x, search_body startNode goalNode st n ≠ Retry x)
  ∧ (∀ s, stepper_reach startNode goalNode s →
     (∀ a q' it, heap_Pop (openSet (state s)) = Some (a, q') →
                 mem q' !! a = Some it → closed (state s) (Node it) = false)
     ∧ ∀ s', step_body s ≠ StepRetry s').
Proof.
  split.
  - intros st n Hr%search_reach_frontier. split.
    + intros a q' it. by apply frontier_pop_fresh.
    + intros x. by apply search_body_frontier_no_retry.
  - intros s Hr%stepper_reach_frontier. split.
    + intros a q' it. by apply frontier_pop_fresh.
    + intros s'. by apply step_body_no_retry.
Qed.

(** ** Relations kept by every transition

    A preorder on states that holds across a pop, a closing and a relaxation
    holds across every pass of the orchestrator loop and every [Step] call. *)

Section Preserved.

Variable R : State → State → Prop.
Hypothesis R_refl : ∀ st, R st st.
Hypothesis R_trans : ∀ st1 st2 st3, R st1 st2 → R st2 st3 → R st1 st3.
Hypothesis R_popped : ∀ st q' v, R st (popped st q' v).
Hypothesis R_close : ∀ st v, R st (close st v).
Hypothesis R_relax : ∀ st p, R st (relax st p).

Lemma fold_relax_preserved ps st : R st (fold_left relax ps st).
Proof using R_refl R_trans R_relax.
  revert st. induction ps as [|p ps IH]; intros st; simpl; [done|].
  eapply R_trans; [apply R_relax|apply IH].
Qed.

Lemma search_body_preserved startNode goalNode st n st' n' :
  search_body startNode goalNode st n = Continue (st', n')
  ∨ search_body startNode goalNode st n = Retry (st', n') →
  R st st'.
Proof using R_refl R_trans R_popped R_close R_relax.
  unfold search_body. intros Hbody.
  body_cases Hbody st Hpop Hit Hcl; try (by destruct Hbody).
  - destruct Hbody as [?|[= <- <-]]; [done|]. apply R_popped.
  - destruct (bool_decide _).
    { destruct (reconstructPath _ _ _); by destruct Hbody. }
    destruct (_ <? _)%Z; [by destruct Hbody|].
    destruct (arrive _ _) as [ps|ps]; [|by destruct Hbody].
    destruct Hbody as [[= <- <-]|?]; [|done].
    eapply R_trans; [apply R_popped|].
    eapply R_trans; [apply R_close|apply fold_relax_preserved].
Qed.

Lemma step_body_preserved s :
  match step_body s with
  | StepRetry s' => R (state s) (state s')
  | StepReturn (Returned (_, s') _) => R (state s) (state s')
  | _ => True
  end.
Proof using R_refl R_trans R_popped R_close R_relax.
  unfold step_body. destruct (done s); [apply R_refl|].
  body_cases Hbody (state s) Hpop Hit Hcl; try done.
  - apply R_popped.
  - assert (R (state s) (close (popped (state s) q' (Node it)) (Node it)))
      as Hc by (eapply R_trans; [apply R_popped|apply R_close]).
    destruct (bool_decide _).
    { destruct (inferStartFromCameFrom _ _); [|done].
      by destruct (reconstructPath _ _ _). }
    destruct (_ <? _)%Z; [done|].
    destruct (arrive _ _) as [ps|ps]; simpl;
      (eapply R_trans; [exact Hc|apply fold_relax_preserved]).
Qed.

Lemma Step_rec_preserved fuel s snap s' err :
  Step_rec fuel s = Returned (snap, s') err → R (state s) (state s').
Proof using R_refl R_trans R_popped R_close R_relax.
  revert s. induction fuel as [|fuel IH]; intros s; simpl; [done|].
  pose proof (step_body_preserved s) as Hb.
  destruct (step_body s) as [s1|o].
  - intros Hs. eapply R_trans; [exact Hb|by apply IH].
  - intros ->. done.
Qed.

Lemma Step_preserved s snap s' err :
  Step s = Returned (snap, s') err → R (state s) (state s').
Proof using R_refl R_trans R_popped R_close R_relax.
  apply Step_rec_preserved.
Qed.

End Preserved.

(** *** The closed set only grows *)

Lemma closed_le_close st v : closed_le st (close st v).
Proof. intros x Hx. rewrite closed_close. by case_decide. Qed.

Lemma closed_le_relax st p : closed_le st (relax st p).
Proof. intros x. by rewrite relax_closed. Qed.

(** C7. The closed set only grows across every pass of the orchestrator loop
    and every [Step] call; a proposal whose target is closed leaves the state
    as it is, so nothing is pushed for it; and a relaxation that makes the
    frontier longer was for a node that is not closed.  In every state of a
    run, no item of the frontier is for a closed node. *)
Theorem closed_set_grows_and_is_never_pushed startNode goalNode :
  (∀ st n st' n',
     search_body startNode goalNode st n = Continue (st', n')
     ∨ search_body startNode goalNode st n = Retry (st', n') →
     closed_le st st')
  ∧ (∀ s snap s' err,
       Step s = Returned (snap, s') err → closed_le (state s) (state s'))
  ∧ (∀ st p,
       closedSet (relax st p) = closedSet st
       ∧ (closed st (ToNode p) = true → relax st p = st)
       ∧ (Len (openSet st) < Len (openSet (relax st p)) →
          closed st (ToNode p) = false))
  ∧ (∀ st n a it,
       search_reach startNode goalNode st n →
       a ∈ slice (openSet st) → mem (openSet st) !! a = Some it →
       closed st (Node it) = false)
  ∧ (∀ s a it,
       stepper_reach startNode goalNode s →
       a ∈ slice (openSet (state s)) → mem (openSet (state s)) !! a = Some it →
       closed (state s) (Node it) = false).
Proof.
  assert (Hfo : ∀ st a it, frontier_ok st →
            a ∈ slice (openSet st) → mem (openSet st) !! a = Some it →
            closed st (Node it) = false).
  { intros st a it Hok Ha Hit. apply (fo_open _ Hok). exists a.
    apply (fo_index _ Hok). split; [done|]. unfold node_at. by rewrite Hit. }
  split_and!.
  - intros st n st' n'.
    by apply (search_body_preserved closed_le); auto using closed_le_close,
      closed_le_relax; unfold closed_le; auto.
  - intros s snap s' err.
    by apply (Step_preserved closed_le); auto using closed_le_close,
      closed_le_relax; unfold closed_le; auto.
  - intros st p. split_and!.
    + apply relax_closedSet.
    + intros Hcl. unfold relax. by rewrite Hcl.
    + intros Hlen. destruct (closed st (ToNode p)) eqn:Hcl; [|done].
      unfold relax in Hlen. rewrite Hcl in Hlen. lia.
  - intros st n a it Hr%search_reach_frontier. by apply Hfo.
  - intros s a it Hr%stepper_reach_frontier. by apply Hfo.
Qed.

(** *** The g-scores only go down *)

Lemma lowered_trans g1 g2 g3 : lowered g1 g2 → lowered g2 g3 → lowered g1 g3.
Proof.
  intros H12 H23. induction H23 as [|g2 g g3 _ IH Hlt]; [done|].
  eapply lowered_step; [by apply IH|done].
Qed.

Lemma gscore_le_refl st : gscore_le st st.
Proof. intros v g Hg. exists g. split; [done|constructor]. Qed.

Lemma gscore_le_trans st1 st2 st3 :
  gscore_le st1 st2 → gscore_le st2 st3 → gscore_le st1 st3.
Proof.
  intros H12 H23 v g Hg. destruct (H12 v g Hg) as (g2 & Hg2 & Hl2).
  destruct (H23 v g2 Hg2) as (g3 & Hg3 & Hl3).
  exists g3. split; [done|by eapply lowered_trans].
Qed.

(** One relaxation writes at most the entry of its target, and only to
    create it or to replace it by a strictly smaller value. *)
Lemma relax_gScore st p v :
  gScore (relax st p) !! v = gScore st !! v
  ∨ (v = ToNode p
     ∧ gScore (relax st p) !! v = Some (PGScore p)
     ∧ improves st p).
Proof.
  destruct (relax_spec st p) as
    [->|Hcl Himp Hm Hc Hcf Hg Hom Hp Hpl|a Hcl Himp Hm Hc Hcf Hg Hom Hp Hpl];
    [by left| |];
    (destruct (decide (v = ToNode p)) as [->|Hne];
     [right; by rewrite Hg, lookup_insert_eq
     |left; by rewrite Hg, lookup_insert_ne]).
Qed.

Lemma gscore_le_relax st p : gscore_le st (relax st p).
Proof.
  intros v g Hv. destruct (relax_gScore st p v) as [->|(-> & -> & Himp)].
  - exists g. split; [done|constructor].
  - exists (PGScore p). split; [done|].
    destruct Himp as [Hn|(g0 & Hg0 & Hlt)]; [congruence|].
    assert (g0 = g) as -> by congruence.
    eapply lowered_step; [constructor|done].
Qed.

(** C8. Every write to the g-score map creates an entry or replaces it by a
    strictly smaller value; a node without an entry takes any proposed cost;
    hence across every pass of the orchestrator loop and every [Step] call
    each entry stays and its value is reached by strict decreases. *)
Theorem gscore_entries_only_decrease startNode goalNode :
  (∀ st p v,
     gScore (relax st p) !! v = gScore st !! v
     ∨ (v = ToNode p ∧ gScore (relax st p) !! v = Some (PGScore p)
        ∧ (gScore st !! v = None
           ∨ ∃ g, gScore st !! v = Some g ∧ cost_lt (PGScore p) g = true)))
  ∧ (∀ st p,
       closed st (ToNode p) = false → gScore st !! ToNode p = None →
       gScore (relax st p) !! ToNode p = Some (PGScore p))
  ∧ (∀ st n st' n',
       search_body startNode goalNode st n = Continue (st', n')
       ∨ search_body startNode goalNode st n = Retry (st', n') →
       gscore_le st st')
  ∧ (∀ s snap s' err,
       Step s = Returned (snap, s') err → gscore_le (state s) (state s')).
Proof.
  split_and!.
  - intros st p v. destruct (relax_gScore st p v) as [?|(-> & ? & ?)]; auto.
  - intros st p Hcl Hn. unfold relax. rewrite Hcl, Hn. simpl.
    destruct (openSetMap st !! ToNode p) as [a|].
    + destruct (mem (openSet st) !! a) as [item|];
        [destruct (cost_lt _ _)|]; simpl; by rewrite lookup_insert_eq.
    + simpl. by rewrite lookup_insert_eq.
  - intros st n st' n'.
    apply (search_body_preserved gscore_le gscore_le_refl gscore_le_trans
             (fun st _ _ => gscore_le_refl st) (fun st _ => gscore_le_refl st)
             gscore_le_relax).
  - intros s snap s' err.
    apply (Step_preserved gscore_le gscore_le_refl gscore_le_trans
             (fun st _ _ => gscore_le_refl st) (fun st _ => gscore_le_refl st)
             gscore_le_relax).
Qed.

(** ** The expansion count *)

Lemma search_body_count startNode goalNode st n st' n' :
  count_inv goalNode st n →
  search_body startNode goalNode st n = Continue (st', n') →
  count_inv goalNode st' n'.
Proof.
  intros (Hok & Htrue & -> & Hgoal) Hbody.
  pose proof (search_body_frontier _ _ _ _ _ _ Hok Hbody) as Hok'.
  unfold search_body in Hbody.
  body_cases Hbody st Hpop Hit Hcl; try done.
  pose proof (frontier_pop_fresh _ _ _ _ Hok Hpop Hit) as Hf.
  destruct (bool_decide _) eqn:Hg; [by destruct (reconstructPath _ _ _)|].
  apply bool_decide_eq_false in Hg.
  destruct (_ <? _)%Z; [done|].
  destruct (arrive _ _) as [ps|ps]; [|done].
  injection Hbody as <- <-. split_and!; [done| | |].
  - rewrite fold_relax_closedSet. intros v b. simpl.
    rewrite lookup_insert_Some. intros [[_ <-]|[_ Hv]]; [done|by eapply Htrue].
  - rewrite fold_relax_closedSet. simpl. rewrite map_size_insert_None; [done|].
    unfold closed in Hf. destruct (closedSet st !! Node it) as [b|] eqn:Hb;
      [|done].
    simpl in Hf. subst b. by apply Htrue in Hb.
  - unfold closed. rewrite fold_relax_closedSet. simpl.
    by rewrite lookup_insert_ne.
Qed.

Lemma search_reach_count startNode goalNode st n :
  search_reach startNode goalNode st n → count_inv goalNode st n.
Proof.
  induction 1 as [|st n st' n' _ IH Hb|st n st' n' Hr _ Hb].
  - split_and!; [apply frontier_ok_initial|by intros v b|done..].
  - by eapply search_body_count.
  - apply search_reach_frontier in Hr.
    by apply search_body_frontier_no_retry in Hb.
Qed.

Lemma search_loop_reach fuel startNode goalNode st n r err :
  search_reach startNode goalNode st n →
  search_loop fuel startNode goalNode st n = Some (Returned r err) →
  ∃ st' n',
    search_reach startNode goalNode st' n'
    ∧ search_body startNode goalNode st' n' = Finish (Returned r err).
Proof.
  revert st n. induction fuel as [|fuel IH]; intros st n Hr; simpl; [done|].
  destruct (search_body startNode goalNode st n) as [[st1 n1]|[st1 n1]|o] eqn:Hb.
  - apply IH. by eapply sr_continue.
  - apply IH. by eapply sr_retry.
  - intros [= ->]. eauto.
Qed.

(** C5. When the frontier is empty at the head of the loop, [Search] returns
    at once with the error "no path found" (which is neither [nil] nor the
    cancellation error), [Found = false], no path, and [ExpandedNodes] equal
    to the counter, which is the number of nodes closed so far; the goal is
    not among them.  Conversely a "no path found" result of [Search] comes
    from such a state. *)
Theorem exhausted_frontier_reports_not_found startNode goalNode :
  (∀ st n,
     search_reach startNode goalNode st n →
     Len (openSet st) = 0 →
     (∀ fuel,
        search_loop (S fuel) startNode goalNode st n =
        Some (Returned (mkResult [] cost_zero n false) (Some ErrNoPathFound)))
     ∧ n = size (closedSet st)
     ∧ closed st goalNode = false)
  ∧ (∀ fuel r,
       Search fuel startNode goalNode = Some (Returned r (Some ErrNoPathFound)) →
       Found r = false ∧ Path r = []
       ∧ ∃ st,
           search_reach startNode goalNode st (ExpandedNodes r)
           ∧ Len (openSet st) = 0
           ∧ ExpandedNodes r = size (closedSet st))
  ∧ Some ErrNoPathFound ≠ None ∧ ErrNoPathFound ≠ ErrCanceled.
Proof.
  split_and!; [| |done..].
  - intros st n Hr Hlen.
    destruct (search_reach_count _ _ _ _ Hr) as (_ & _ & Hn & Hg).
    split_and!; [|done..].
    intros fuel. simpl. unfold search_body. by rewrite Hlen.
  - intros fuel r Hs.
    destruct (search_loop_reach _ _ _ _ _ _ _ (sr_init _ _) Hs)
      as (st & n & Hr & Hb).
    destruct (search_reach_count _ _ _ _ Hr) as (_ & _ & Hn & _).
    unfold search_body in Hb.
    body_cases Hb st Hpop Hit Hcl; try done.
    + injection Hb as <-. simpl. split_and!; [done..|].
      exists st. split_and!; [done| |done]. by apply Nat.eqb_eq.
    + destruct (bool_decide _); [by destruct (reconstructPath _ _ _)|].
      destruct (_ <? _)%Z; [done|]. by destruct (arrive _ _).
Qed.

(** ** The returns of [Step] *)

Lemma step_body_result s snap s' err :
  step_body s = StepReturn (Returned (snap, s') err) →
  step_result s snap s' err.
Proof.
  unfold step_body. destruct (done s) eqn:Hd.
  { intros [= <- <- <-]. by apply res_done. }
  body_cases Hbody (state s) Hpop Hit Hcl; try done.
  { intros [= <- <- <-]. apply res_exhausted; [done|by apply Nat.eqb_eq]. }
  change (closed (state s) (Node it) = false) in Hcl.
  destruct (bool_decide _) eqn:Hg.
  { apply bool_decide_eq_true in Hg.
    destruct (inferStartFromCameFrom _ _) as [inferred|] eqn:Hi; [|done].
    destruct (reconstructPath _ _ _) as [path|] eqn:Hp; [|done].
    intros [= <- <- <-]. by eapply res_goal. }
  apply bool_decide_eq_false in Hg.
  destruct (_ <? _)%Z eqn:Hw; [done|]. apply Z.ltb_ge in Hw.
  destruct (arrive _ _) as [ps|ps] eqn:Ha; intros [= <- <- <-].
  - by eapply res_expanded.
  - by eapply res_canceled.
Qed.

Lemma Step_result s snap s' err :
  frontier_ok (state s) →
  Step s = Returned (snap, s') err →
  step_result s snap s' err.
Proof.
  intros Hok Hstep. destruct (Step_frontier_inv s Hok) as (o & Hb & Ho).
  apply step_body_result. congruence.
Qed.

(** [found] is only set together with [done]. *)
Lemma stepper_reach_found startNode goalNode s :
  stepper_reach startNode goalNode s →
  goal s = goalNode ∧ (found s = true → done s = true).
Proof.
  induction 1 as [|s snap s' err Hr [IHg IHf] Hstep]; [done|].
  apply stepper_reach_frontier in Hr.
  destruct (Step_result _ _ _ _ Hr Hstep); simpl; split; auto.
  intros Hf%IHf. congruence.
Qed.

(** ** Polling a finished [Stepper] *)

(** C2 (as the code has it). Once a [Step] call of a run has returned a
    snapshot with [Done], the receiver is finished: the next call, and so
    every later one, returns the receiver unchanged, no error, and the
    snapshot of the [if s.done] branch.  That snapshot has [Done], the same
    [Found] and [StepIndex], [Current] the zero value and no [Path]; after a
    terminal call without error it also has the same [Open], [Closed] and
    [CameFrom], and it is the terminal snapshot itself when that one was not
    a goal-found one. *)
Theorem finished_stepper_is_stable startNode goalNode s snap s' err :
  stepper_reach startNode goalNode s →
  Step s = Returned (snap, s') err →
  Done snap = true →
  Step s' = Returned (done_snapshot s', s') None
  ∧ Done (done_snapshot s') = true
  ∧ SFound (done_snapshot s') = SFound snap
  ∧ StepIndex (done_snapshot s') = StepIndex snap
  ∧ Current (done_snapshot s') = zeroNode
  ∧ SPath (done_snapshot s') = []
  ∧ (err = None →
     Open (done_snapshot s') = Open snap
     ∧ Closed (done_snapshot s') = Closed snap
     ∧ CameFrom (done_snapshot s') = CameFrom snap)
  ∧ (err = None → SFound snap = false → done_snapshot s' = snap).
Proof.
  intros Hr Hstep Hdone.
  destruct (stepper_reach_found _ _ _ Hr) as [_ Hfound].
  apply stepper_reach_frontier in Hr.
  assert (Hnf : done s = false → found s = false).
  { intros Hd. destruct (found s); [|done]. by rewrite Hfound in Hd. }
  assert (Hfix : ∀ t, done t = true → Step t = Returned (done_snapshot t, t) None).
  { intros t Ht. apply Step_body. unfold step_body. by rewrite Ht. }
  destruct (Step_result _ _ _ _ Hr Hstep) as
    [Hd|Hd Hlen|a q' it inferred path Hd|a q' it ps Hd|a q' it ps Hd];
    try done; (split; [by apply Hfix|]); unfold done_snapshot; simpl;
    rewrite ?(Hnf Hd); done.
Qed.

(** ** The step counter *)

Lemma heap_Pop_Len q a q' : heap_Pop q = Some (a, q') → Len q = S (Len q').
Proof.
  intros [Hp _]%heap_Pop_items. unfold Len. by rewrite Hp.
Qed.

Lemma step_body_retry s s1 :
  step_body s = StepRetry s1 →
  stepCount s1 = S (stepCount s)
  ∧ Len (openSet (state s)) = S (Len (openSet (state s1))).
Proof.
  unfold step_body. destruct (done s); [done|].
  body_cases Hbody (state s) Hpop Hit Hcl; try done.
  - intros [= <-]. simpl. split; [done|by eapply heap_Pop_Len].
  - destruct (bool_decide _).
    { destruct (inferStartFromCameFrom _ _); [|done].
      by destruct (reconstructPath _ _ _). }
    destruct (_ <? _)%Z; [done|]. by destruct (arrive _ _).
Qed.




(** ** Walking the predecessor links *)

Lemma inferStart_loop_mono n n' came cur r :
  inferStart_loop n came cur = Some r → n ≤ n' →
  inferStart_loop n' came cur = Some r.
Proof.
  revert n' cur. induction n as [|n IH]; intros n' cur; simpl; [done|].
  intros Hr Hle. destruct n' as [|n']; [lia|]. simpl.
  destruct (came !! cur); [|done]. apply IH; [done|lia].
Qed.

Lemma inferStart_loop_end n came cur r :
  inferStart_loop n came cur = Some r → came !! r = None.
Proof.
  revert cur. induction n as [|n IH]; intros cur; simpl; [done|].
  destruct (came !! cur) eqn:Hc; [apply IH|]. by intros [= <-].
Qed.

Lemma inferStart_loop_undelete k came x cur r :
  inferStart_loop k (delete x came) cur = Some r → r ≠ x →
  inferStart_loop k came cur = Some r.
Proof.
  revert cur. induction k as [|k IH]; intros cur; simpl; [done|].
  intros Hr Hne. destruct (decide (x = cur)) as [->|Hx].
  - rewrite lookup_delete_eq in Hr. congruence.
  - rewrite lookup_delete_ne in Hr by done.
    destruct (came !! cur); [by apply IH|done].
Qed.

(** A terminating walk either avoids the key [x] or passes through it and
    finishes from there. *)
Lemma inferStart_loop_avoid n came x cur r :
  inferStart_loop n came cur = Some r →
  inferStart_loop n (delete x came) cur = Some r
  ∨ ∃ k, k ≤ n ∧ inferStart_loop k came x = Some r.
Proof.
  revert cur. induction n as [|n IH]; intros cur; [done|].
  intros Hr. destruct (decide (x = cur)) as [->|Hx]; [right; eauto|].
  simpl in *. rewrite lookup_delete_ne by done.
  destruct (came !! cur) as [prev|]; [|by left].
  destruct (IH _ Hr) as [?|(k & ? & ?)]; [by left|right].
  exists k. split; [lia|done].
Qed.

Lemma inferStart_loop_step n came cur prev :
  came !! cur = Some prev →
  inferStart_loop (S n) came cur = inferStart_loop n came prev.
Proof. intros Hc. simpl. by rewrite Hc. Qed.

(** A walk that ends at all ends within [size came] links. *)
Lemma inferStart_loop_bound n came cur r :
  inferStart_loop n came cur = Some r →
  inferStartFromCameFrom came cur = Some r.
Proof.
  unfold inferStartFromCameFrom. revert came cur.
  induction (lt_wf n) as [n _ IH]. intros came cur Hr.
  destruct n as [|n]; [done|].
  destruct (came !! cur) as [prev|] eqn:Hc;
    [|simpl in *; by rewrite Hc in *].
  pose proof (inferStart_loop_end _ _ _ _ Hr) as Hend.
  rewrite (inferStart_loop_step _ _ _ _ Hc) in Hr.
  destruct (inferStart_loop_avoid _ _ cur _ _ Hr) as [Hd|(k & Hk & Hd)].
  - apply IH in Hd; [|lia].
    apply inferStart_loop_undelete in Hd; [|congruence].
    rewrite map_size_delete_Some in Hd by done.
    destruct (size came) as [|m] eqn:Hm.
    + apply map_size_empty_inv in Hm. subst came. by rewrite lookup_empty in Hc.
    + by rewrite (inferStart_loop_step _ _ _ _ Hc).
  - apply IH in Hd; [done|lia].
Qed.

Lemma rooted_inferStart st start v :
  cameFrom st !! start = None →
  rooted st start v →
  inferStartFromCameFrom (cameFrom st) v = Some start.
Proof.
  intros Hroot Hr.
  assert (∃ n, inferStart_loop n (cameFrom st) v = Some start) as [n Hn].
  { induction Hr as [|v u _ Hu _ [n IH]].
    - exists 1. simpl. by rewrite Hroot.
    - exists (S n). simpl. by rewrite Hu. }
  by eapply inferStart_loop_bound.
Qed.

(** The reconstruction loop stops no later than the walk to a node without
    predecessor. *)
Lemma reconstruct_loop_Some n came cur start path r :
  inferStart_loop n came cur = Some r →
  is_Some (reconstruct_loop n came cur start path).
Proof.
  revert cur path. induction n as [|n IH]; intros cur path; simpl; [done|].
  destruct (bool_decide _); [by eexists|].
  destruct (came !! cur); [apply IH|by eexists].
Qed.

Lemma rooted_reconstructPath st start v :
  cameFrom st !! start = None →
  rooted st start v →
  is_Some (reconstructPath (cameFrom st) v start).
Proof.
  intros Hroot Hr. pose proof (rooted_inferStart _ _ _ Hroot Hr) as Hi.
  unfold reconstructPath.
  destruct (reconstruct_loop_Some _ _ _ start [v] _ Hi) as [path ->].
  by eexists.
Qed.

(** ** The inferred start *)

Lemma stepper_reach_inv startNode goalNode s :
  fair_schedule →
  stepper_reach startNode goalNode s →
  run_inv startNode (state s).
Proof.
  intros Hfair. induction 1 as [|s snap s' err Hr IH Hstep].
  - apply run_inv_initial.
  - apply stepper_reach_frontier in Hr.
    destruct (Step_result _ _ _ _ Hr Hstep) as
      [Hd|Hd Hlen|a q' it inferred path Hd Hpop Hit
      |a q' it ps Hd Hpop Hit Hcl Hg Hw Ha|a q' it ps Hd Hpop Hit Hcl Hg Hw Ha];
      simpl; try done.
    + by destruct (run_inv_pop _ _ _ _ _ IH Hpop Hit) as (_ & ? & _).
    + destruct (run_inv_pop _ _ _ _ _ IH Hpop Hit) as (_ & Hinv & Hs & _).
      pose proof (run_inv_round startNode _ (Node it) (GScore it) (goal s)
                    Hfair Hinv Hs) as Hround.
      rewrite Ha in Hround. apply Hround. rewrite closed_close. by case_decide.
    + destruct (run_inv_pop _ _ _ _ _ IH Hpop Hit) as (_ & Hinv & Hs & _).
      pose proof (run_inv_round startNode _ (Node it) (GScore it) (goal s)
                    Hfair Hinv Hs) as Hround.
      rewrite Ha in Hround. apply Hround. rewrite closed_close. by case_decide.
Qed.

(** C9. In a run whose proposals are those the workers sent, the call of
    [Step] that pops the goal finds a predecessor map in which the walk from
    the goal to a node without predecessor ends, and ends at the start node
    given to [NewStepper]; the path of the goal-found snapshot is the one
    [reconstructPath] yields on that map with the true start. *)
Theorem inferred_start_is_the_start startNode goalNode s snap s' err :
  fair_schedule →
  stepper_reach startNode goalNode s →
  done s = false →
  Step s = Returned (snap, s') err →
  SFound snap = true →
  Current snap = goalNode
  ∧ CameFrom snap = cameFrom (state s')
  ∧ inferStartFromCameFrom (CameFrom snap) goalNode = Some startNode
  ∧ reconstructPath (CameFrom snap) goalNode startNode = Some (SPath snap).
Proof.
  intros Hfair Hr Hd Hstep Hfound.
  pose proof (stepper_reach_inv _ _ _ Hfair Hr) as Hinv.
  destruct (stepper_reach_found _ _ _ Hr) as [Hgoal _].
  apply stepper_reach_frontier in Hr.
  destruct (Step_result _ _ _ _ Hr Hstep) as
    [Hd'|Hd' Hlen|a q' it inferred path _ Hpop Hit Hcl Hg Hi Hp| |];
    try done; [congruence|].
  destruct (run_inv_pop _ _ _ _ _ Hinv Hpop Hit) as (_ & (_ & Hto & _) & _ & _).
  simpl in *. rewrite Hg, Hgoal in *.
  assert (Hroot : rooted (close (popped (state s) q' goalNode) goalNode)
                         startNode goalNode).
  { apply (to_rooted _ _ Hto). rewrite closed_close. by case_decide. }
  pose proof (rooted_inferStart _ _ _ (to_root _ _ Hto) Hroot) as Hinf.
  simpl in Hinf. split_and!; [done..|]. congruence.
Qed.

(** ** Stepping to completion against [Search], under one schedule *)

Lemma sim_body startNode goalNode s n :
  run_inv startNode (state s) →
  n = size (closedSet (state s)) →
  done s = false → goal s = goalNode →
  match search_body startNode goalNode (state s) n with
  | Retry _ => False
  | Continue (st', n') =>
      ∃ snap s',
        Step s = Returned (snap, s') None ∧ Done snap = false
        ∧ state s' = st' ∧ done s' = false ∧ goal s' = goalNode
  | Finish (Returned r err) =>
      ∃ snap s',
        Step s = Returned (snap, s') (step_error err) ∧ agrees r snap
  | Finish Blocked => Step s = Blocked
  | Finish Panicked => Step s = Panicked
  end.
Proof.
  intros Hinv -> Hd Hg.
  unfold search_body.
  destruct (Len (openSet (state s)) =? 0) eqn:Hlen.
  { eexists _, _. split.
    - apply Step_body. unfold step_body. by rewrite Hd, Hlen.
    - done. }
  destruct (heap_Pop (openSet (state s))) as [[a q']|] eqn:Hpop.
  2:{ apply Step_body. unfold step_body. by rewrite Hd, Hlen, Hpop. }
  destruct (mem q' !! a) as [it|] eqn:Hit.
  2:{ apply Step_body. unfold step_body. by rewrite Hd, Hlen, Hpop, Hit. }
  destruct (run_inv_pop _ _ _ _ _ Hinv Hpop Hit)
    as (Hcl & (_ & Hto & _) & Hs & Hnone).
  rewrite Hcl.
  destruct (bool_decide (Node it = goalNode)) eqn:Hgoal.
  - apply bool_decide_eq_true in Hgoal.
    assert (Hroot : rooted (close (popped (state s) q' (Node it)) (Node it))
                           startNode (Node it)).
    { apply (to_rooted _ _ Hto). rewrite closed_close. by case_decide. }
    pose proof (rooted_inferStart _ _ _ (to_root _ _ Hto) Hroot) as Hinf.
    destruct (rooted_reconstructPath _ _ _ (to_root _ _ Hto) Hroot)
      as [path Hpath].
    rewrite Hpath. eexists _, _. split.
    + apply Step_body. unfold step_body.
      rewrite Hd, Hlen, Hpop, Hit, Hcl, Hg, Hgoal, bool_decide_eq_true_2 by done.
      rewrite <-Hgoal, Hinf, Hpath. done.
    + split_and!; try done. simpl. by rewrite map_size_insert_None.
  - destruct (workers <? Z.of_nat (length (graph (Node it))))%Z eqn:Hw.
    { apply Step_body. unfold step_body.
      by rewrite Hd, Hlen, Hpop, Hit, Hcl, Hg, Hgoal, Hw. }
    destruct (arrive (Node it) (proposals (Node it) (GScore it) goalNode))
      as [ps|ps] eqn:Ha.
    + eexists _, _. split.
      * apply Step_body. unfold step_body.
        by rewrite Hd, Hlen, Hpop, Hit, Hcl, Hg, Hgoal, Hw, Ha.
      * done.
    + eexists _, _. split.
      * apply Step_body. unfold step_body.
        by rewrite Hd, Hlen, Hpop, Hit, Hcl, Hg, Hgoal, Hw, Ha.
      * done.
Qed.

Lemma sim_loop fuel startNode goalNode s n :
  fair_schedule →
  run_inv startNode (state s) →
  n = size (closedSet (state s)) →
  done s = false → goal s = goalNode →
  match search_loop fuel startNode goalNode (state s) n with
  | Some (Returned r err) =>
      ∃ snap s',
        step_until_done fuel s = Some (Returned (snap, s') (step_error err))
        ∧ agrees r snap
  | Some Blocked => step_until_done fuel s = Some Blocked
  | Some Panicked => step_until_done fuel s = Some Panicked
  | None => step_until_done fuel s = None
  end.
Proof.
  intros Hfair. revert s n.
  induction fuel as [|fuel IH]; intros s n Hinv Hn Hd Hg; simpl; [done|].
  pose proof (sim_body startNode goalNode s n Hinv Hn Hd Hg) as Hb.
  pose proof (search_body_inv startNode goalNode (state s) n) as Hnext.
  destruct (search_body startNode goalNode (state s) n)
    as [[st' n']|[st' n']|[r err| |]]; try done.
  - destruct Hb as (snap & s' & -> & Hnd & <- & Hd' & Hg').
    rewrite Hnd. destruct (Hnext _ _ Hfair Hinv Hn eq_refl) as [Hinv' Hn'].
    by apply IH.
  - destruct Hb as (snap & s' & -> & Hag). pose proof Hag as (-> & _).
    eauto.
  - by rewrite Hb.
  - by rewrite Hb.
Qed.

(** C6 (as the code has it). With the same arrival order of the proposals in
    every round, calling [Step] until a snapshot has [Done] ends exactly when
    [Search] ends, and then the last snapshot has the [Found] flag of the
    result, a closed set with [ExpandedNodes] many nodes and the path of the
    result (a snapshot has no cost field); both block, or both need more
    calls, otherwise. *)
Theorem stepping_to_completion_agrees_with_search fuel startNode goalNode :
  fair_schedule →
  match Search fuel startNode goalNode with
  | Some (Returned r err) =>
      ∃ snap s',
        step_until_done fuel (NewStepper startNode goalNode)
          = Some (Returned (snap, s') (step_error err))
        ∧ agrees r snap
  | Some Blocked =>
      step_until_done fuel (NewStepper startNode goalNode) = Some Blocked
  | Some Panicked =>
      step_until_done fuel (NewStepper startNode goalNode) = Some Panicked
  | None => step_until_done fuel (NewStepper startNode goalNode) = None
  end.
Proof.
  intros Hfair.
  apply (sim_loop fuel startNode goalNode (NewStepper startNode goalNode) 0);
    try done.
  apply run_inv_initial.
Qed.

(** ** The fuel of the loops is never the reason they stop *)

Lemma parent_le j : parent j ≤ j.
Proof.
  unfold parent. transitivity (j - 1); [|lia].
  apply Nat.Div0.div_le_upper_bound. lia.
Qed.

Lemma up_loop_fuel f1 f2 q j :
  j < f1 → j < f2 → up_loop f1 q j = up_loop f2 q j.
Proof.
  revert f2 q j. induction f1 as [|f1 IH]; intros f2 q j H1 H2; [lia|].
  destruct f2 as [|f2]; [lia|]. simpl.
  destruct (bool_decide (parent j = j)) eqn:Hp; [done|].
  apply bool_decide_eq_false in Hp. simpl.
  destruct (negb _); [done|].
  pose proof (parent_le j). apply IH; lia.
Qed.

Lemma down_loop_S fuel q i n :
  down_loop (S fuel) q i n =
  if n <=? 2 * i + 1 then (q, i)
  else
    let j := if (2 * i + 1 + 1 <? n) && Less q (2 * i + 1 + 1) (2 * i + 1)
             then 2 * i + 1 + 1 else 2 * i + 1 in
    if negb (Less q j i) then (q, i) else down_loop fuel (Swap q i j) j n.
Proof. reflexivity. Qed.

Lemma down_loop_fuel f1 f2 q i n :
  n - i ≤ f1 → n - i ≤ f2 → down_loop f1 q i n = down_loop f2 q i n.
Proof.
  revert f2 q i. induction f1 as [|f1 IH]; intros f2 q i H1 H2.
  - destruct f2 as [|f2]; [done|]. rewrite down_loop_S.
    destruct (n <=? 2 * i + 1) eqn:Hn; [done|].
    apply Nat.leb_gt in Hn. lia.
  - destruct f2 as [|f2]; rewrite !down_loop_S;
      (destruct (n <=? 2 * i + 1) eqn:Hn; [done|]);
      apply Nat.leb_gt in Hn; [lia|].
    cbv zeta.
    set (j := if (2 * i + 1 + 1 <? n) && Less q (2 * i + 1 + 1) (2 * i + 1)
              then 2 * i + 1 + 1 else 2 * i + 1).
    assert (i < j < n) as Hj.
    { unfold j. destruct (2 * i + 1 + 1 <? n) eqn:Hj2.
      - apply Nat.ltb_lt in Hj2. destruct (Less _ _ _); simpl; lia.
      - simpl. lia. }
    clearbody j. destruct (negb _); [done|apply IH; lia].
Qed.

(** [Step] never runs out of retries: more fuel changes nothing. *)
Lemma Step_rec_fuel fuel s :
  Len (openSet (state s)) < fuel → Step_rec fuel s = Step s.
Proof.
  unfold Step. revert s.
  induction fuel as [|fuel IH]; intros s Hlen; [lia|]. simpl.
  destruct (step_body s) as [s1|o] eqn:Hb; [|done].
  destruct (step_body_retry _ _ Hb) as [_ Hl]. rewrite Hl.
  apply IH. lia.
Qed.

Lemma reconstruct_loop_mono n n' came cur start path p :
  reconstruct_loop n came cur start path = Some p → n ≤ n' →
  reconstruct_loop n' came cur start path = Some p.
Proof.
  revert n' cur path. induction n as [|n IH]; intros n' cur path; simpl; [done|].
  intros Hr Hle. destruct n' as [|n']; [lia|]. simpl.
  destruct (bool_decide _); [done|].
  destruct (came !! cur); [|done]. apply IH; [done|lia].
Qed.

(** The reconstruction loop is the walk in the map without the entry of
    [start]. *)
Lemma reconstruct_loop_walk n came cur start path :
  is_Some (reconstruct_loop n came cur start path)
  ↔ is_Some (inferStart_loop n (delete start came) cur).
Proof.
  revert cur path. induction n as [|n IH]; intros cur path; simpl; [done|].
  destruct (bool_decide (cur = start)) eqn:Hc.
  - apply bool_decide_eq_true in Hc. subst. rewrite lookup_delete_eq.
    split; by eexists.
  - apply bool_decide_eq_false in Hc. rewrite lookup_delete_ne by done.
    destruct (came !! cur); [apply IH|]. split; by eexists.
Qed.

(** If the loop of [reconstructPath] ends at all, it ends within the bound
    the embedding gives it. *)
Lemma reconstruct_loop_bound n came current start p :
  reconstruct_loop n came current start [current] = Some p →
  reconstructPath came current start = Some (rev p).
Proof.
  intros Hr. unfold reconstructPath.
  assert (is_Some (inferStart_loop n (delete start came) current)) as [r Hi]
    by (apply (reconstruct_loop_walk n came current start [current]);
        by eexists).
  apply inferStart_loop_bound in Hi. unfold inferStartFromCameFrom in Hi.
  assert (S (size (delete start came)) ≤ S (size came)) as Hle.
  { rewrite map_size_delete. destruct (came !! start); simpl; lia. }
  apply (inferStart_loop_mono _ _ _ _ _ Hi) in Hle.
  assert (is_Some (reconstruct_loop (S (size came)) came current start [current]))
    as [p' Hp'] by (apply reconstruct_loop_walk; by eexists).
  rewrite Hp'. simpl. f_equal. f_equal.
  destruct (Nat.le_ge_cases n (S (size came))) as [Hn|Hn].
  - apply (reconstruct_loop_mono _ _ _ _ _ _ _ Hr) in Hn. congruence.
  - apply (reconstruct_loop_mono _ _ _ _ _ _ _ Hp') in Hn. congruence.
Qed.

(** ** The returned path *)

Lemma reconstruct_loop_chain n came cur start path p :
  reconstruct_loop n came cur start path = Some p →
  ∃ l e, p = path ++ l ∧ chain came cur l e
         ∧ (e = start ∨ came !! e = None).
Proof.
  revert cur path. induction n as [|n IH]; intros cur path; simpl; [done|].
  destruct (bool_decide (cur = start)) eqn:Hc.
  { apply bool_decide_eq_true in Hc. intros [= <-].
    exists [], cur. rewrite app_nil_r. split_and!; [done|constructor|by left]. }
  destruct (came !! cur) as [prev|] eqn:Hp.
  - intros (l & e & -> & Hch & He)%IH. exists (prev :: l), e.
    rewrite <-app_assoc. split_and!; [done|by econstructor|done].
  - intros [= <-]. exists [], cur. rewrite app_nil_r.
    split_and!; [done|constructor|by right].
Qed.

Lemma rooted_chain_end st start v l e :
  cameFrom st !! start = None →
  rooted st start v →
  chain (cameFrom st) v l e →
  rooted st start e.
Proof.
  intros Hroot Hr Hch. induction Hch as [|v u l e Hv _ IH]; [done|].
  apply IH. destruct Hr as [|v u' _ Hu' Hr']; congruence.
Qed.

Lemma rooted_no_pred st start e :
  rooted st start e → cameFrom st !! e = None → e = start.
Proof. intros [|v u _ Hu _] Hn; [done|congruence]. Qed.

Lemma proposals_edge u g goalNode p :
  p ∈ proposals u g goalNode →
  ∃ c, mkNeighbor (ToNode p) c ∈ graph u
       ∧ PGScore p = cost_add g c
       ∧ PFCost p = cost_add (PGScore p) (heuristic (ToNode p) goalNode).
Proof.
  unfold proposals. intros Hp%list_elem_of_In.
  apply in_map_iff in Hp as ([v c] & <- & Hnb%list_elem_of_In).
  exists c. simpl. done.
Qed.

Lemma relax_cameFrom st p v :
  cameFrom (relax st p) !! v = cameFrom st !! v
  ∨ (v = ToNode p ∧ cameFrom (relax st p) !! v = Some (FromNode p)).
Proof.
  destruct (relax_spec st p) as
    [->|Hcl Himp Hm Hc Hcf Hg Hom Hp Hpl|a Hcl Himp Hm Hc Hcf Hg Hom Hp Hpl];
    [by left| |];
    (destruct (decide (v = ToNode p)) as [->|Hne];
     [right; by rewrite Hcf, lookup_insert_eq
     |left; by rewrite Hcf, lookup_insert_ne]).
Qed.

Lemma links_ok_fold_relax u g goalNode ps st :
  links_ok st →
  (∀ p, p ∈ ps → p ∈ proposals u g goalNode) →
  links_ok (fold_left relax ps st).
Proof.
  revert st. induction ps as [|p ps IH]; intros st Hok Hps; simpl; [done|].
  apply IH; [|intros q Hq; apply Hps; by right].
  intros v w. destruct (relax_cameFrom st p v) as [->|[-> ->]]; [apply Hok|].
  intros [= <-].
  assert (Hp : p ∈ proposals u g goalNode) by (apply Hps; by left).
  rewrite (proposals_from _ _ _ _ Hp).
  destruct (proposals_edge _ _ _ _ Hp) as (c & Hc & _). eauto.
Qed.

Lemma search_body_links startNode goalNode st n st' n' :
  fair_schedule →
  links_ok st →
  search_body startNode goalNode st n = Continue (st', n') →
  links_ok st'.
Proof.
  intros Hfair Hok Hbody. unfold search_body in Hbody.
  body_cases Hbody st Hpop Hit Hcl; try done.
  destruct (bool_decide _); [by destruct (reconstructPath _ _ _)|].
  destruct (_ <? _)%Z; [done|].
  pose proof (Hfair (Node it) (proposals (Node it) (GScore it) goalNode)) as Hv.
  destruct (arrive _ _) as [ps|ps] eqn:Ha; [|done].
  injection Hbody as <- <-.
  eapply links_ok_fold_relax; [done|].
  intros p Hp. by eapply (valid_arrival_elem _ (Delivered ps)).
Qed.

Lemma search_reach_links startNode goalNode st n :
  fair_schedule →
  search_reach startNode goalNode st n → links_ok st.
Proof.
  intros Hfair. induction 1 as [|st n st' n' _ IH Hb|st n st' n' Hr _ Hb].
  - intros v u. rewrite initial_state_eq. simpl. by rewrite lookup_empty.
  - by eapply search_body_links.
  - apply search_reach_frontier in Hr.
    by apply search_body_frontier_no_retry in Hb.
Qed.

(** Along a chain of links that are edges, read backwards, runs a walk. *)
Lemma chain_walk came v l e :
  (∀ x y, came !! x = Some y → ∃ c, mkNeighbor x c ∈ graph y) →
  chain came v l e →
  ∃ cs, walk (rev (v :: l)) cs ∧ head (rev (v :: l)) = Some e.
Proof.
  intros Hedge Hch. induction Hch as [v|v u l e Hv _ (cs & Hw & Hh)].
  - exists []. split; [constructor|done].
  - destruct (Hedge _ _ Hv) as [c Hc].
    exists (cs ++ [c]). simpl in *. split.
    + rewrite <-app_assoc. simpl. by apply walk_step.
    + destruct (rev l ++ [u]) eqn:Hl; [done|]. done.
Qed.

Lemma found_path_walk fuel startNode goalNode r err :
  fair_schedule →
  Search fuel startNode goalNode = Some (Returned r err) →
  Found r = true →
  head (Path r) = Some startNode
  ∧ last (Path r) = Some goalNode
  ∧ ∃ cs, walk (Path r) cs.
Proof.
  intros Hfair Hs Hfound.
  destruct (search_loop_reach _ _ _ _ _ _ _ (sr_init _ _) Hs)
    as (st & n & Hr & Hb).
  destruct (search_reach_inv _ _ _ _ Hfair Hr) as [Hinv _].
  pose proof (search_reach_links _ _ _ _ Hfair Hr) as Hlinks.
  unfold search_body in Hb.
  body_cases Hb st Hpop Hit Hcl; try done; [by simplify_eq|].
  destruct (run_inv_pop _ _ _ _ _ Hinv Hpop Hit) as (_ & (_ & Hto & _) & _ & _).
  destruct (bool_decide (Node it = goalNode)) eqn:Hg.
  2:{ destruct (_ <? _)%Z; [done|]. destruct (arrive _ _); by simplify_eq. }
  apply bool_decide_eq_true in Hg.
  destruct (reconstructPath _ _ _) as [path|] eqn:Hpath; [|done].
  injection Hb as <- <-. simpl. unfold reconstructPath in Hpath.
  destruct (reconstruct_loop _ _ _ _ _) as [p|] eqn:Hp; [|done].
  simpl in Hpath. injection Hpath as <-.
  apply reconstruct_loop_chain in Hp as (l & e & -> & Hch & He).
  simpl in Hch, He.
  assert (Hroot : rooted (close (popped st q' (Node it)) (Node it))
                         startNode (Node it)).
  { apply (to_rooted _ _ Hto). rewrite closed_close. by case_decide. }
  assert (e = startNode) as ->.
  { destruct He as [->|He]; [done|].
    apply (rooted_no_pred (close (popped st q' (Node it)) (Node it)));
      [|exact He].
    apply (rooted_chain_end _ _ (Node it) l);
      [apply (to_root _ _ Hto)|exact Hroot|exact Hch]. }
  destruct (chain_walk _ _ _ _ Hlinks Hch) as (cs & Hw & Hh).
  split_and!; [done| |by exists cs].
  simpl. by rewrite last_snoc, Hg.
Qed.

(** X1. The path of a successful [Search] is a walk of the graph from the
    start node to the goal node, whatever the cost arithmetic. *)
Theorem returned_path_is_a_walk fuel startNode goalNode r err :
  fair_schedule →
  Search fuel startNode goalNode = Some (Returned r err) →
  Found r = true →
  head (Path r) = Some startNode
  ∧ last (Path r) = Some goalNode
  ∧ ∃ cs, walk (Path r) cs.
Proof. apply found_path_walk. Qed.

(** ** The reported cost, when adding a heuristic value keeps strict order

    The g-scores of a node are sums along paths without repetition; when,
    between two of them, the lower g-score gives the lower f-score, the item
    of a node is rewritten whenever its g-score is. *)

Lemma payload_lookup (m m' : list PriorityQueueItem) a it' :
  payload <$> m' = payload <$> m → m' !! a = Some it' →
  ∃ it, m !! a = Some it ∧ payload it = payload it'.
Proof.
  intros Heq Hl.
  assert ((payload <$> m) !! a = Some (payload it')) as Hm
    by (by rewrite <-Heq, list_lookup_fmap, Hl).
  rewrite list_lookup_fmap in Hm.
  destruct (m !! a) as [it|]; [|done]. exists it. simpl in Hm.
  split; [done|congruence].
Qed.

Lemma relax_gScore_closed st p v :
  closed st v = true → gScore (relax st p) !! v = gScore st !! v.
Proof.
  intros Hv. destruct (relax_spec st p) as
    [->|Hcl Himp Hm Hc Hcf Hg Hom Hp Hpl|a Hcl Himp Hm Hc Hcf Hg Hom Hp Hpl];
    [done| |]; rewrite Hg; apply lookup_insert_ne; congruence.
Qed.

Lemma path_cost_extend startNode goalNode st u gu p :
  sums_ok startNode st →
  closed st u = true → gScore st !! u = Some gu →
  p ∈ proposals u gu goalNode →
  closed st (ToNode p) = false →
  ∃ l, path_cost startNode l (ToNode p) (PGScore p)
       ∧ ∀ x, x ∈ l → closed st x = true.
Proof.
  intros Hsums Hu Hgu Hp Hcl.
  destruct (proposals_edge _ _ _ _ Hp) as (c & Hedge & HPG & _).
  destruct (Hsums _ _ Hgu) as (l & Hpath & Hl).
  assert (Hall : ∀ x, x ∈ u :: l → closed st x = true).
  { intros x [->|Hx]%elem_of_cons; [done|by apply Hl]. }
  exists (u :: l). split; [|done].
  rewrite HPG. apply pc_edge; [done..|].
  intros Hin. apply Hall in Hin. congruence.
Qed.

Lemma sums_ok_relax startNode goalNode st u gu p :
  closed st u = true → gScore st !! u = Some gu →
  p ∈ proposals u gu goalNode →
  sums_ok startNode st →
  sums_ok startNode (relax st p).
Proof.
  intros Hu Hgu Hp Hsums.
  assert (Hins : closed st (ToNode p) = false →
    gScore (relax st p) = <[ToNode p := PGScore p]> (gScore st) →
    sums_ok startNode (relax st p)).
  { intros Hcl Hg v g. rewrite Hg, lookup_insert_Some.
    intros [[<- <-]|[_ Hv]].
    - destruct (path_cost_extend _ _ _ _ _ _ Hsums Hu Hgu Hp Hcl)
        as (l & Hpath & Hl).
      exists l. split; [done|]. intros x Hx. rewrite relax_closed. by apply Hl.
    - destruct (Hsums _ _ Hv) as (l & Hpath & Hl).
      exists l. split; [done|]. intros x Hx. rewrite relax_closed. by apply Hl. }
  destruct (relax_spec st p) as
    [->|Hcl Himp Hm Hc Hcf Hg Hom Hpm Hpl|a Hcl Himp Hm Hc Hcf Hg Hom Hpm Hpl];
    [done|by apply Hins..].
Qed.

Lemma sums_ok_fold_relax startNode goalNode u gu ps st :
  closed st u = true → gScore st !! u = Some gu →
  (∀ p, p ∈ ps → p ∈ proposals u gu goalNode) →
  sums_ok startNode st →
  sums_ok startNode (fold_left relax ps st).
Proof.
  revert st. induction ps as [|p ps IH]; intros st Hu Hgu Hps Hsums; [done|].
  simpl. assert (Hp : p ∈ proposals u gu goalNode) by (apply Hps; by left).
  apply IH.
  - by rewrite relax_closed.
  - by rewrite relax_gScore_closed.
  - intros q Hq. apply Hps. by right.
  - by eapply sums_ok_relax.
Qed.

Lemma sums_ok_close startNode st q' x :
  sums_ok startNode st → sums_ok startNode (close (popped st q' x) x).
Proof.
  intros Hsums v g Hv. destruct (Hsums v g Hv) as (l & Hpath & Hl).
  exists l. split; [done|]. intros y Hy. rewrite closed_close.
  case_decide; [done|]. by apply Hl.
Qed.

Lemma cost_ok_relax startNode goalNode st u gu p :
  exact_on_paths startNode goalNode → sums_ok startNode st →
  frontier_ok st → tree_ok startNode st →
  closed st startNode = true → closed st u = true →
  gScore st !! u = Some gu →
  p ∈ proposals u gu goalNode →
  cost_ok startNode goalNode st →
  cost_ok startNode goalNode (relax st p).
Proof.
  intros Hexact Hsums Hfo Hto Hs Hu Hgu Hp [Hitems Hlinks Hstart].
  destruct (proposals_edge _ _ _ _ Hp) as (c & Hedge & HPG & HPF).
  pose proof (proposals_from _ _ _ _ Hp) as Hfrom.
  assert (Hlinks' : ∀ g',
    closed st (ToNode p) = false →
    cameFrom (relax st p) = <[ToNode p := FromNode p]> (cameFrom st) →
    gScore (relax st p) = <[ToNode p := PGScore p]> (gScore st) →
    (∀ v w, cameFrom (relax st p) !! v = Some w →
       ∃ gw c', gScore (relax st p) !! w = Some gw ∧ mkNeighbor v c' ∈ graph w
                ∧ gScore (relax st p) !! v = Some (cost_add gw c'))
    ∧ gScore (relax st p) !! startNode = Some g' → g' = cost_zero).
  { intros g' Hcl Hcf Hg [_ Hst]. rewrite Hg, lookup_insert_ne in Hst;
      congruence. }
  assert (Hrest : closed st (ToNode p) = false →
    cameFrom (relax st p) = <[ToNode p := FromNode p]> (cameFrom st) →
    gScore (relax st p) = <[ToNode p := PGScore p]> (gScore st) →
    (∀ v w, cameFrom (relax st p) !! v = Some w →
       ∃ gw c', gScore (relax st p) !! w = Some gw ∧ mkNeighbor v c' ∈ graph w
                ∧ gScore (relax st p) !! v = Some (cost_add gw c'))
    ∧ gScore (relax st p) !! startNode = Some cost_zero).
  { intros Hcl Hcf Hg. split.
    - intros v w. rewrite Hcf, Hg, lookup_insert_Some.
      intros [[<- <-]|[Hne Hv]].
      + exists gu, c. rewrite Hfrom, lookup_insert_ne by congruence.
        split_and!; [done..|]. by rewrite lookup_insert_eq, HPG.
      + destruct (Hlinks _ _ Hv) as (gw & c' & Hgw & He & Hgv).
        exists gw, c'. pose proof (to_pred _ _ Hto _ _ Hv) as Hw.
        rewrite !lookup_insert_ne by congruence. done.
    - rewrite Hg, lookup_insert_ne by congruence. done. }
  clear Hlinks'.
  destruct (relax_spec st p) as
    [->|Hcl Himp Hm Hc Hcf Hg Hom Hpm Hpl|a Hcl Himp Hm Hc Hcf Hg Hom Hpm Hpl];
    [done| |]; destruct (Hrest Hcl Hcf Hg) as [Hl' Hs']; split; try done.
  - (* push *)
    intros a it' Ha Hit'. rewrite Hpm in Ha.
    destruct (payload_lookup _ _ _ _ Hpl Hit') as (it & Hit & Hpay).
    injection Hpay as Hn HG HF. rewrite <-Hn, <-HG, <-HF.
    apply elem_of_cons in Ha as [->|Ha].
    + rewrite lookup_app_r, Nat.sub_diag in Hit by done.
      injection Hit as <-. simpl. rewrite Hg, lookup_insert_eq. done.
    + rewrite lookup_app_l in Hit by (by apply (fo_alloc _ Hfo)).
      destruct (Hitems _ _ Ha Hit) as [HgN HFN]. split; [|done].
      rewrite Hg, lookup_insert_ne; [done|]. intros Heq.
      assert (openSetMap st !! ToNode p = Some a) as Hx.
      { apply (fo_index _ Hfo). split; [done|]. unfold node_at.
        by rewrite Hit, Heq. }
      congruence.
  - (* update in place *)
    pose proof (proj1 (fo_index _ Hfo _ _) Hm) as [Ha Hna].
    unfold node_at in Hna.
    destruct (mem (openSet st) !! a) as [item|] eqn:Hitem; [|done].
    injection Hna as Hnode.
    destruct (Hitems _ _ Ha Hitem) as [HgI HFI]. rewrite Hnode in HgI, HFI.
    assert (Hlt : cost_lt (PFCost p) (FCost item) = true).
    { destruct Himp as [Hn|(g & Hg' & Hlt)]; [congruence|].
      assert (g = GScore item) as -> by congruence.
      rewrite HFI, HPF by congruence.
      destruct (path_cost_extend _ _ _ _ _ _ Hsums Hu Hgu Hp Hcl)
        as (l1 & Hpath1 & _).
      destruct (Hsums _ _ Hg') as (l2 & Hpath2 & _).
      by apply (Hexact _ l1 _ l2). }
    unfold tightened in Hpl. rewrite Hitem, Hlt in Hpl.
    intros a' it' Ha' Hit'. rewrite Hpm in Ha'.
    destruct (payload_lookup _ _ _ _ Hpl Hit') as (it & Hit & Hpay).
    injection Hpay as Hn HG HF. rewrite <-Hn, <-HG, <-HF.
    destruct (decide (a' = a)) as [->|Hne].
    + rewrite list_lookup_insert_eq in Hit by (by apply (fo_alloc _ Hfo)).
      injection Hit as <-. simpl. rewrite Hnode, Hg, lookup_insert_eq. done.
    + rewrite list_lookup_insert_ne in Hit by done.
      destruct (Hitems _ _ Ha' Hit) as [HgN HFN]. split; [|done].
      rewrite Hg, lookup_insert_ne; [done|]. intros Heq.
      assert (openSetMap st !! ToNode p = Some a') as Hx.
      { apply (fo_index _ Hfo). split; [done|]. unfold node_at.
        by rewrite Hit, Heq. }
      congruence.
Qed.

Lemma cost_ok_fold_relax startNode goalNode u gu ps st :
  exact_on_paths startNode goalNode →
  run_inv startNode st →
  closed st startNode = true → closed st u = true →
  gScore st !! u = Some gu →
  (∀ p, p ∈ ps → p ∈ proposals u gu goalNode) →
  sums_ok startNode st →
  cost_ok startNode goalNode st →
  cost_ok startNode goalNode (fold_left relax ps st).
Proof.
  intros Hexact. revert st.
  induction ps as [|p ps IH]; intros st Hinv Hs Hu Hgu Hps Hsums Hok; simpl;
    [done|].
  assert (Hp : p ∈ proposals u gu goalNode) by (apply Hps; by left).
  destruct Hinv as (Hfo & Hto & Htrue).
  apply IH.
  - split_and!.
    + by apply frontier_ok_relax.
    + apply tree_ok_relax; [done..|]. by rewrite (proposals_from _ _ _ _ Hp).
    + by rewrite relax_closedSet.
  - by rewrite relax_closed.
  - by rewrite relax_closed.
  - by rewrite relax_gScore_closed.
  - intros q Hq. apply Hps. by right.
  - by eapply sums_ok_relax.
  - by eapply cost_ok_relax.
Qed.

Lemma cost_ok_pop startNode goalNode st a q' it :
  frontier_ok st →
  cost_ok startNode goalNode st →
  heap_Pop (openSet st) = Some (a, q') →
  mem q' !! a = Some it →
  cost_ok startNode goalNode (close (popped st q' (Node it)) (Node it))
  ∧ gScore st !! Node it = Some (GScore it).
Proof.
  intros Hfo [Hitems Hlinks Hstart] Hpop Hit.
  destruct (heap_Pop_items _ _ _ Hpop) as [Hp Hm].
  assert (Hold : ∀ b it', b ∈ a :: slice q' → mem q' !! b = Some it' →
            gScore st !! Node it' = Some (GScore it')
            ∧ (Node it' ≠ startNode →
               FCost it' = cost_add (GScore it') (heuristic (Node it') goalNode))).
  { intros b it' Hb Hit'.
    destruct (payload_lookup _ _ _ _ (eq_sym Hm) Hit') as (it0 & Hit0 & Hpay).
    injection Hpay as Hn HG HF. rewrite <-Hn, <-HG, <-HF.
    apply Hitems with b; [by rewrite Hp|done]. }
  split; [|apply Hold with a; [by left|done]].
  split; simpl; [|done..].
  intros b it' Hb. apply Hold. by right.
Qed.

Lemma search_body_cost startNode goalNode st n st' n' :
  exact_on_paths startNode goalNode → fair_schedule →
  run_inv startNode st →
  cost_ok startNode goalNode st → sums_ok startNode st →
  search_body startNode goalNode st n = Continue (st', n') →
  cost_ok startNode goalNode st' ∧ sums_ok startNode st'.
Proof.
  intros Hexact Hfair Hinv Hok Hsums Hbody. unfold search_body in Hbody.
  body_cases Hbody st Hpop Hit Hcl; try done.
  destruct (run_inv_pop _ _ _ _ _ Hinv Hpop Hit) as (_ & Hinv' & Hs & _).
  destruct (cost_ok_pop _ _ _ _ _ _ (proj1 Hinv) Hok Hpop Hit) as [Hok' Hg].
  pose proof (sums_ok_close startNode st q' (Node it) Hsums) as Hsums'.
  destruct (bool_decide _); [by destruct (reconstructPath _ _ _)|].
  destruct (_ <? _)%Z; [done|].
  pose proof (Hfair (Node it) (proposals (Node it) (GScore it) goalNode)) as Hv.
  destruct (arrive _ _) as [ps|ps] eqn:Ha; [|done].
  injection Hbody as <- <-.
  assert (Hps : ∀ p, p ∈ ps → p ∈ proposals (Node it) (GScore it) goalNode).
  { intros p Hp. by eapply (valid_arrival_elem _ (Delivered ps)). }
  assert (Hclosed : closed (close (popped st q' (Node it)) (Node it)) (Node it)
                    = true).
  { rewrite closed_close. by case_decide. }
  split.
  - by eapply (cost_ok_fold_relax _ _ (Node it) (GScore it)).
  - by eapply (sums_ok_fold_relax _ _ (Node it) (GScore it)).
Qed.

Lemma search_reach_cost startNode goalNode st n :
  exact_on_paths startNode goalNode → fair_schedule →
  search_reach startNode goalNode st n →
  cost_ok startNode goalNode st ∧ sums_ok startNode st.
Proof.
  intros Hexact Hfair.
  induction 1 as [|st n st' n' Hr IH Hb|st n st' n' Hr _ Hb].
  - rewrite initial_state_eq. split; [split; simpl|].
    + intros a it ->%list_elem_of_singleton. simpl. intros [= <-]. simpl.
      by rewrite lookup_singleton_eq.
    + intros v u. by rewrite lookup_empty.
    + by rewrite lookup_singleton_eq.
    + intros v g. simpl. intros [<- <-]%lookup_singleton_Some.
      exists []. split; [constructor|]. by intros x ?%elem_of_nil.
  - destruct (search_reach_inv _ _ _ _ Hfair Hr) as [Hinv _].
    destruct IH as [Hok Hsums]. by eapply search_body_cost.
  - apply search_reach_frontier in Hr.
    by apply search_body_frontier_no_retry in Hb.
Qed.

Lemma chain_walk_cost came (g : gmap NodeType Cost) v l e ge :
  (∀ x y, came !! x = Some y →
     ∃ gy c, g !! y = Some gy ∧ mkNeighbor x c ∈ graph y
             ∧ g !! x = Some (cost_add gy c)) →
  chain came v l e →
  g !! e = Some ge →
  ∃ cs, walk (rev (v :: l)) cs ∧ g !! v = Some (fold_left cost_add cs ge).
Proof.
  intros Hedge Hch He. induction Hch as [v|v u l e Hv _ IH].
  - exists []. split; [constructor|done].
  - destruct (IH He) as (cs & Hw & Hgu).
    destruct (Hedge _ _ Hv) as (gy & c & Hgy & Hc & Hgv).
    exists (cs ++ [c]). simpl in *. split.
    + rewrite <-app_assoc. simpl. by apply walk_step.
    + rewrite fold_left_app. simpl. congruence.
Qed.

(** X2. When, between the sums of edge costs along two paths without
    repetition from the start node to the same node, the lower sum also
    gives the lower f-score, the path of a successful [Search] is a walk
    from the start node to the goal node whose edge costs, summed in order
    from [0.0], are the reported [TotalCost]. *)
Theorem returned_path_cost_is_total_cost fuel startNode goalNode r err :
  exact_on_paths startNode goalNode → fair_schedule →
  Search fuel startNode goalNode = Some (Returned r err) →
  Found r = true →
  head (Path r) = Some startNode
  ∧ last (Path r) = Some goalNode
  ∧ ∃ cs, walk (Path r) cs ∧ fold_left cost_add cs cost_zero = TotalCost r.
Proof.
  intros Hexact Hfair Hs Hfound.
  destruct (found_path_walk _ _ _ _ _ Hfair Hs Hfound) as (Hh & Hl & _).
  split_and!; [done..|].
  destruct (search_loop_reach _ _ _ _ _ _ _ (sr_init _ _) Hs)
    as (st & n & Hr & Hb).
  destruct (search_reach_inv _ _ _ _ Hfair Hr) as [Hinv _].
  destruct (search_reach_cost _ _ _ _ Hexact Hfair Hr) as [Hcost _].
  unfold search_body in Hb.
  body_cases Hb st Hpop Hit Hcl; try done; [by simplify_eq|].
  destruct (run_inv_pop _ _ _ _ _ Hinv Hpop Hit) as (_ & (_ & Hto & _) & _ & _).
  destruct (cost_ok_pop _ _ _ _ _ _ (proj1 Hinv) Hcost Hpop Hit) as [_ Hg].
  destruct (bool_decide (Node it = goalNode)) eqn:Hgoal.
  2:{ destruct (_ <? _)%Z; [done|]. destruct (arrive _ _); by simplify_eq. }
  destruct (reconstructPath _ _ _) as [path|] eqn:Hpath; [|done].
  injection Hb as <- <-. simpl in *. unfold reconstructPath in Hpath.
  destruct (reconstruct_loop _ _ _ _ _) as [p|] eqn:Hp; [|done].
  simpl in Hpath. injection Hpath as <-.
  apply reconstruct_loop_chain in Hp as (l & e & -> & Hch & He).
  assert (Hroot : rooted (close (popped st q' (Node it)) (Node it))
                         startNode (Node it)).
  { apply (to_rooted _ _ Hto). rewrite closed_close.
    by rewrite decide_True. }
  assert (e = startNode) as ->.
  { destruct He as [->|He]; [done|].
    apply (rooted_no_pred (close (popped st q' (Node it)) (Node it)));
      [|exact He].
    apply (rooted_chain_end _ _ (Node it) l);
      [apply (to_root _ _ Hto)|exact Hroot|exact Hch]. }
  destruct (chain_walk_cost _ _ _ _ _ _ (co_links _ _ _ Hcost) Hch
              (co_start _ _ _ Hcost)) as (cs & Hw & Hgv).
  exists cs. split; [done|]. congruence.
Qed.

(** ** Termination on a finite graph *)

Lemma relax_openSetMap st p v :
  is_Some (openSetMap (relax st p) !! v) →
  v = ToNode p ∨ is_Some (openSetMap st !! v).
Proof.
  destruct (relax_spec st p) as
    [->|Hcl Himp Hm Hc Hcf Hg Hom Hp Hpl|a Hcl Himp Hm Hc Hcf Hg Hom Hp Hpl];
    [by right| |]; rewrite Hom; [|by right].
  rewrite lookup_insert_is_Some. intros [->|[_ ?]]; auto.
Qed.

Lemma open_in_fold_relax U u g goalNode ps st :
  (∀ nb, nb ∈ graph u → ID nb ∈ U) →
  (∀ p, p ∈ ps → p ∈ proposals u g goalNode) →
  open_in U st → open_in U (fold_left relax ps st).
Proof.
  intros HU. revert st.
  induction ps as [|p ps IH]; intros st Hps Hin; simpl; [done|].
  apply IH; [intros q Hq; apply Hps; by right|].
  intros v [->|Hv]%relax_openSetMap; [|by apply Hin].
  assert (Hp : p ∈ proposals u g goalNode) by (apply Hps; by left).
  destruct (proposals_edge _ _ _ _ Hp) as (c & Hc & _).
  by apply (HU _ Hc).
Qed.

Lemma unclosed_close U st v :
  v ∈ U → closed st v = false →
  size (unclosed U (close st v)) < size (unclosed U st).
Proof.
  intros HvU Hv. apply subset_size. apply strict_spec_alt. split.
  - intros x. unfold unclosed. rewrite !elem_of_filter, closed_close.
    intros [Hx HxU]. split; [|done]. by case_decide.
  - intros Heq.
    assert (v ∈ unclosed U (close st v)) as Hin.
    { rewrite Heq. by apply elem_of_filter. }
    apply elem_of_filter in Hin as [Hin _]. rewrite closed_close in Hin.
    by rewrite decide_True in Hin.
Qed.

Lemma unclosed_fold_relax U ps st :
  unclosed U (fold_left relax ps st) = unclosed U st.
Proof.
  unfold unclosed. apply set_eq. intros x. rewrite !elem_of_filter.
  unfold closed. by rewrite fold_relax_closedSet.
Qed.

Lemma search_loop_returns (U : gset NodeType) startNode goalNode fuel st n :
  fair_schedule →
  (∀ u nb, u ∈ U → nb ∈ graph u → ID nb ∈ U) →
  (∀ u, u ∈ U → (Z.of_nat (length (graph u)) ≤ workers)%Z) →
  run_inv startNode st → open_in U st →
  size (unclosed U st) < fuel →
  ∃ r err, search_loop fuel startNode goalNode st n = Some (Returned r err).
Proof.
  intros Hfair HU Hdeg. revert st n.
  induction fuel as [|fuel IH]; intros st n Hinv Hin Hsize; [lia|].
  simpl. unfold search_body.
  destruct (Len (openSet st) =? 0) eqn:Hlen; [by eexists _, _|].
  apply Nat.eqb_neq in Hlen.
  destruct (run_inv_pop_Some _ _ Hinv Hlen) as (a & q' & it & Hpop & Hit).
  rewrite Hpop, Hit.
  destruct (run_inv_pop _ _ _ _ _ Hinv Hpop Hit) as (Hcl & Hinv' & Hs & _).
  destruct (frontier_ok_pop _ _ _ _ (proj1 Hinv) Hpop Hit) as (Hm & Hcl' & _).
  rewrite Hcl.
  assert (HvU : Node it ∈ U) by (apply Hin; by eexists).
  destruct (bool_decide (Node it = goalNode)) eqn:Hg.
  { destruct Hinv' as (_ & Hto & _).
    assert (Hroot : rooted (close (popped st q' (Node it)) (Node it))
                           startNode (Node it)).
    { apply (to_rooted _ _ Hto). rewrite closed_close. by rewrite decide_True. }
    destruct (rooted_reconstructPath _ _ _ (to_root _ _ Hto) Hroot)
      as [path ->].
    by eexists _, _. }
  pose proof (Hdeg _ HvU) as Hw. apply Z.ltb_ge in Hw. rewrite Hw.
  pose proof (Hfair (Node it) (proposals (Node it) (GScore it) goalNode)) as Hv.
  pose proof (run_inv_round startNode _ (Node it) (GScore it) goalNode
                Hfair Hinv' Hs) as Hround.
  destruct (arrive _ _) as [ps|ps] eqn:Ha; [|by eexists _, _].
  apply IH.
  - apply Hround. rewrite closed_close. by rewrite decide_True.
  - eapply (open_in_fold_relax U (Node it) (GScore it) goalNode).
    + intros nb. by apply HU.
    + intros p Hp. by eapply (valid_arrival_elem _ (Delivered ps)).
    + intros v [b Hb]. simpl in Hb. apply lookup_delete_Some in Hb as [_ Hb].
      apply Hin. by eexists.
  - rewrite unclosed_fold_relax.
    pose proof (unclosed_close U (popped st q' (Node it)) (Node it) HvU Hcl).
    assert (unclosed U (popped st q' (Node it)) = unclosed U st) as Heq by done.
    rewrite Heq in *. lia.
Qed.

(** Without cancellation a pass returns the found path and no error, or
    the "no path found" error. *)
Lemma search_body_error startNode goalNode st n r err :
  never_cancelled →
  search_body startNode goalNode st n = Finish (Returned r err) →
  (err = None ∧ Found r = true)
  ∨ (err = Some ErrNoPathFound ∧ Found r = false).
Proof.
  intros Hnc Hb. unfold search_body in Hb.
  body_cases Hb st Hpop Hit Hcl; try done.
  { injection Hb as <- <-. by right. }
  destruct (bool_decide _).
  { destruct (reconstructPath _ _ _); [|done]. injection Hb as <- <-. by left. }
  destruct (_ <? _)%Z; [done|].
  destruct (Hnc (Node it) (proposals (Node it) (GScore it) goalNode))
    as [l Hl].
  by rewrite Hl in Hb.
Qed.

(** X3. When the context is not cancelled, on a finite graph whose nodes
    have at most as many neighbours as there are workers, [Search] returns
    within one pass per node, plus one: the path it found and no error, or
    the "no path found" error. *)
Theorem search_returns_on_finite_graph (U : gset NodeType)
    startNode goalNode fuel :
  fair_schedule →
  never_cancelled →
  startNode ∈ U →
  (∀ u nb, u ∈ U → nb ∈ graph u → ID nb ∈ U) →
  (∀ u, u ∈ U → (Z.of_nat (length (graph u)) ≤ workers)%Z) →
  size U < fuel →
  ∃ r err,
    Search fuel startNode goalNode = Some (Returned r err)
    ∧ ((err = None ∧ Found r = true)
       ∨ (err = Some ErrNoPathFound ∧ Found r = false)).
Proof.
  intros Hfair Hnc Hs HU Hdeg Hfuel.
  destruct (search_loop_returns U startNode goalNode fuel
              (initial_state startNode goalNode) 0 Hfair HU Hdeg)
    as (r & err & Hsearch).
  - apply run_inv_initial.
  - intros v. rewrite initial_state_eq. simpl.
    by intros [a [<- _]%lookup_singleton_Some].
  - eapply Nat.le_lt_trans; [|exact Hfuel].
    apply subseteq_size. intros x [_ Hx]%elem_of_filter. done.
  - exists r, err. split; [done|].
    destruct (search_loop_reach _ _ _ _ _ _ _ (sr_init _ _) Hsearch)
      as (st & n & _ & Hb).
    by eapply search_body_error.
Qed.

(** ** The index kept in the items

    [PriorityQueue.Push] does not set [IndexInQueue] and only [Swap] writes
    it: the index of an item in the frontier is its position, or still the
    [0] it was allocated with.  Either way it is a valid position, so
    [heap.Fix(&openSet, item.IndexInQueue)] never indexes out of range. *)

Lemma Swap_pq_ok q i j : pq_ok q → pq_ok (Swap q i j).
Proof.
  intros [Hnd Hal Hix]. unfold Swap.
  destruct (slice q !! i) as [a|] eqn:Hi; [|done].
  destruct (slice q !! j) as [b|] eqn:Hj; [|done].
  pose proof (exchange_Permutation _ _ _ _ _ Hi Hj) as Hp.
  assert (i < length (slice q)) by (by eapply lookup_lt_Some).
  assert (j < length (slice q)) by (by eapply lookup_lt_Some).
  split; simpl.
  - by rewrite Hp.
  - intros c. rewrite Hp, !length_alter. apply Hal.
  - intros k c it' Hk Hc. simpl in Hk, Hc.
    destruct (decide (k = j)) as [Hkj|Hkj]; [subst k|].
    + rewrite list_lookup_insert_eq in Hk by (by rewrite length_insert).
      injection Hk as <-. rewrite list_lookup_alter_eq in Hc.
      destruct (alter _ _ _ !! a); simplify_eq/=. by left.
    + rewrite list_lookup_insert_ne in Hk by done.
      destruct (decide (k = i)) as [Hki|Hki]; [subst k|].
      * rewrite list_lookup_insert_eq in Hk by done. injection Hk as <-.
        assert (a ≠ b) as Hab.
        { intros ->. apply Hkj. by eapply (proj1 (NoDup_alt _) Hnd). }
        rewrite list_lookup_alter_ne, list_lookup_alter_eq in Hc by done.
        destruct (mem q !! b); simplify_eq/=. by left.
      * rewrite list_lookup_insert_ne in Hk by done.
        assert (c ≠ a) as Hca.
        { intros ->. apply Hki. by eapply (proj1 (NoDup_alt _) Hnd). }
        assert (c ≠ b) as Hcb.
        { intros ->. apply Hkj. by eapply (proj1 (NoDup_alt _) Hnd). }
        rewrite !list_lookup_alter_ne in Hc by done. by eapply Hix.
Qed.

Lemma up_loop_pq_ok fuel q j : pq_ok q → pq_ok (up_loop fuel q j).
Proof.
  revert q j. induction fuel as [|fuel IH]; intros q j Hok; simpl; [done|].
  destruct (_ || _); [done|]. by apply IH, Swap_pq_ok.
Qed.

Lemma down_loop_pq_ok fuel q i n : pq_ok q → pq_ok (down_loop fuel q i n).1.
Proof.
  revert q i. induction fuel as [|fuel IH]; intros q i Hok; [done|].
  rewrite down_loop_S. destruct (n <=? _); [done|]. cbv zeta.
  destruct (negb _); [done|]. by apply IH, Swap_pq_ok.
Qed.

Lemma down_pq_ok q i n : pq_ok q → pq_ok (down q i n).1.
Proof.
  intros Hok. unfold down. pose proof (down_loop_pq_ok n q i n Hok) as Hd.
  by destruct (down_loop n q i n).
Qed.

Lemma heap_Fix_pq_ok q i : pq_ok q → pq_ok (heap_Fix q i).
Proof.
  intros Hok. unfold heap_Fix. pose proof (down_pq_ok q i (Len q) Hok) as Hd.
  destruct (down q i (Len q)) as [q1 [|]]; simpl in *; [done|].
  by apply up_loop_pq_ok.
Qed.

Lemma heap_Push_new_pq_ok q it :
  pq_ok q → IndexInQueue it = 0 →
  pq_ok (heap_Push (new_item q it).1 (new_item q it).2).
Proof.
  intros [Hnd Hal Hix] Hzero. unfold heap_Push, up. apply up_loop_pq_ok.
  split; simpl.
  - apply NoDup_app. split_and!; [done| |apply NoDup_singleton].
    intros a Ha%Hal ->%list_elem_of_singleton. lia.
  - intros a. rewrite length_app, elem_of_app, list_elem_of_singleton. simpl.
    intros [Ha%Hal| ->]; lia.
  - intros k a it' Hk Ha. simpl in Hk, Ha.
    apply lookup_snoc_Some in Hk as [[Hlt Hk]|[-> <-]].
    + assert (a < length (mem q)) by (by eapply Hal, list_elem_of_lookup_2).
      rewrite lookup_app_l in Ha by done. by eapply Hix.
    + rewrite lookup_app_r, Nat.sub_diag in Ha by done.
      injection Ha as <-. by right.
Qed.

Lemma heap_Pop_pq_ok q a q' : pq_ok q → heap_Pop q = Some (a, q') → pq_ok q'.
Proof.
  intros Hok. unfold heap_Pop. destruct (Len q) as [|n]; [done|].
  assert (Hq1 : pq_ok (down (Swap q 0 n) 0 n).1)
    by (by apply down_pq_ok, Swap_pq_ok).
  revert Hq1. generalize (down (Swap q 0 n) 0 n).1. intros q1 [Hnd Hal Hix].
  unfold pq_Pop. destruct (last (slice q1)); [|done]. simpl.
  intros [= <- <-]. split; simpl.
  - eapply sublist_NoDup; [exact Hnd|apply sublist_take].
  - intros b Hb. apply Hal. by eapply subseteq_take.
  - intros k b it'. simpl. intros [Hk _]%lookup_take_Some Hb. by eapply Hix.
Qed.

Lemma tightened_pq_ok q a p :
  pq_ok q → pq_ok (mkPQ (slice q) (tightened (mem q) a p)).
Proof.
  destruct q as [sl m]. simpl.
  intros [Hnd Hal Hix]. unfold tightened.
  destruct (m !! a) as [item|] eqn:Hitem; [|done].
  destruct (cost_lt _ _); [|done]. simpl in *.
  split; simpl; [done|by intros b; rewrite length_insert; apply Hal|].
  intros k b it' Hk Hb. simpl in Hk, Hb.
  apply list_lookup_insert_Some in Hb as [(-> & <- & _)|[_ Hb]].
  - simpl. by eapply Hix.
  - by eapply Hix.
Qed.

Lemma pq_ok_relax st p : pq_ok (openSet st) → pq_ok (openSet (relax st p)).
Proof.
  intros Hok. unfold relax.
  destruct (closed st (ToNode p)); [done|].
  destruct (negb _); [done|].
  destruct (openSetMap st !! ToNode p) as [a|].
  - pose proof (tightened_pq_ok _ a p Hok) as Ht.
    unfold tightened in Ht.
    destruct (mem (openSet st) !! a) as [item|]; [|done].
    destruct (cost_lt _ _); [|done]. simpl. by apply heap_Fix_pq_ok.
  - by apply (heap_Push_new_pq_ok (openSet st)
                (mkItem (ToNode p) (PGScore p) (PFCost p) 0)).
Qed.

Lemma pq_ok_fold_relax ps st :
  pq_ok (openSet st) → pq_ok (openSet (fold_left relax ps st)).
Proof.
  revert st. induction ps as [|p ps IH]; intros st Hok; simpl; [done|].
  by apply IH, pq_ok_relax.
Qed.

Lemma pq_ok_initial startNode goalNode :
  pq_ok (openSet (initial_state startNode goalNode)).
Proof.
  rewrite initial_state_eq. split; simpl.
  - apply NoDup_singleton.
  - intros a ->%list_elem_of_singleton. simpl. lia.
  - intros [|k] a it; [|done]. simpl. intros [= <-] [= <-]. by left.
Qed.

Lemma search_reach_pq_ok startNode goalNode st n :
  search_reach startNode goalNode st n → pq_ok (openSet st).
Proof.
  induction 1 as [|st n st' n' _ IH Hb|st n st' n' _ IH Hb].
  - apply pq_ok_initial.
  - unfold search_body in Hb. body_cases Hb st Hpop Hit Hcl; try done.
    destruct (bool_decide _); [by destruct (reconstructPath _ _ _)|].
    destruct (_ <? _)%Z; [done|].
    destruct (arrive _ _) as [ps|ps]; [|done].
    injection Hb as <- <-. apply pq_ok_fold_relax. simpl.
    by eapply heap_Pop_pq_ok.
  - unfold search_body in Hb. body_cases Hb st Hpop Hit Hcl; try done.
    + injection Hb as <- <-. simpl. by eapply heap_Pop_pq_ok.
    + destruct (bool_decide _); [by destruct (reconstructPath _ _ _)|].
      destruct (_ <? _)%Z; [done|]. by destruct (arrive _ _).
Qed.

Lemma stepper_reach_pq_ok startNode goalNode s :
  stepper_reach startNode goalNode s → pq_ok (openSet (state s)).
Proof.
  induction 1 as [|s snap s' err Hr IH Hstep].
  - apply pq_ok_initial.
  - apply stepper_reach_frontier in Hr.
    destruct (Step_result _ _ _ _ Hr Hstep) as
      [Hd|Hd Hlen|a q' it inferred path Hd Hpop Hit
      |a q' it ps Hd Hpop Hit|a q' it ps Hd Hpop Hit];
      simpl; try done.
    + by eapply heap_Pop_pq_ok.
    + apply pq_ok_fold_relax. simpl. by eapply heap_Pop_pq_ok.
    + apply pq_ok_fold_relax. simpl. by eapply heap_Pop_pq_ok.
Qed.

(** X4. [heap_ok] holds when a run starts and is kept by every pop and every
    relaxation.  Under it every node of the open-set index has its item in
    the frontier, and the item's [IndexInQueue] is its position or [0], so a
    position of the slice: [heap.Fix] is never called out of range, and
    neither [Search] nor [Step] panics. *)
Theorem fix_index_is_in_range startNode goalNode :
  heap_ok (initial_state startNode goalNode)
  ∧ (∀ st p, heap_ok st → heap_ok (relax st p))
  ∧ (∀ st a q' it,
       heap_ok st → heap_Pop (openSet st) = Some (a, q') →
       mem q' !! a = Some it →
       heap_ok (close (popped st q' (Node it)) (Node it)))
  ∧ (∀ st v a,
       heap_ok st → openSetMap st !! v = Some a →
       ∃ item k,
         mem (openSet st) !! a = Some item
         ∧ slice (openSet st) !! k = Some a
         ∧ (IndexInQueue item = k ∨ IndexInQueue item = 0)
         ∧ IndexInQueue item < Len (openSet st))
  ∧ (∀ st n,
       search_reach startNode goalNode st n →
       heap_ok st ∧ search_body startNode goalNode st n ≠ Finish Panicked)
  ∧ (∀ s,
       stepper_reach startNode goalNode s →
       heap_ok (state s) ∧ step_body s ≠ StepReturn Panicked).
Proof.
  assert (Hpop : ∀ st, frontier_ok st → Len (openSet st) ≠ 0 →
            ∃ a q' it, heap_Pop (openSet st) = Some (a, q')
                       ∧ mem q' !! a = Some it).
  { intros st Hfo Hlen.
    destruct (heap_Pop (openSet st)) as [[a q']|] eqn:Hpop;
      [|by apply heap_Pop_None in Hpop].
    pose proof (heap_Pop_items _ _ _ Hpop) as [Hp Hm].
    assert (a < length (mem q')) as Hlt.
    { rewrite <-(length_fmap payload), <-Hm, length_fmap.
      apply (fo_alloc _ Hfo). rewrite Hp. by left. }
    apply lookup_lt_is_Some_2 in Hlt as [it Hit]. eauto. }
  split_and!.
  - split; [apply frontier_ok_initial|apply pq_ok_initial].
  - intros st p [Hfo Hpq]. split; [by apply frontier_ok_relax|by apply pq_ok_relax].
  - intros st a q' it [Hfo Hpq] Hp Hit. split.
    + by destruct (frontier_ok_pop _ _ _ _ Hfo Hp Hit) as (_ & _ & _ & ?).
    + simpl. by eapply heap_Pop_pq_ok.
  - intros st v a [Hfo Hpq] Hv.
    apply (fo_index _ Hfo) in Hv as [Ha Hn].
    pose proof (fo_alloc _ Hfo _ Ha) as [item Hitem]%lookup_lt_is_Some_2.
    apply list_elem_of_lookup_1 in Ha as [k Hk].
    exists item, k. pose proof (pq_index _ Hpq _ _ _ Hk Hitem) as Hidx.
    split_and!; [done..|].
    apply lookup_lt_Some in Hk. unfold Len. lia.
  - intros st n Hr. pose proof (search_reach_frontier _ _ _ _ Hr) as Hfo.
    split; [split; [done|by eapply search_reach_pq_ok]|].
    unfold search_body.
    destruct (Len (openSet st) =? 0) eqn:Hlen; [done|].
    apply Nat.eqb_neq in Hlen.
    destruct (Hpop _ Hfo Hlen) as (a & q' & it & -> & ->).
    destruct (closed _ _); [done|].
    destruct (bool_decide _); [by destruct (reconstructPath _ _ _)|].
    destruct (_ <? _)%Z; [done|]. by destruct (arrive _ _).
  - intros s Hr. pose proof (stepper_reach_frontier _ _ _ Hr) as Hfo.
    split; [split; [done|by eapply stepper_reach_pq_ok]|].
    unfold step_body. destruct (done s); [done|].
    destruct (Len (openSet (state s)) =? 0) eqn:Hlen; [done|].
    apply Nat.eqb_neq in Hlen.
    destruct (Hpop _ Hfo Hlen) as (a & q' & it & -> & ->).
    destruct (closed _ _); [done|].
    destruct (bool_decide _).
    { destruct (inferStartFromCameFrom _ _); [|done].
      by destruct (reconstructPath _ _ _). }
    destruct (_ <? _)%Z; [done|]. by destruct (arrive _ _).
Qed.

(** ** The order of the frontier

    [heap.Push] and [heap.Pop] keep the heap condition, [heap.Pop] returns
    the pointer of the root, whose f-score no other item undercuts, and
    [heap.Fix] at the cell of an item restores the condition after that item
    was rewritten. *)




































(** ** The reversal loop *)

Lemma reverse_loop_spec fuel (pre mid suf : list NodeType) :
  length mid ≤ 2 * fuel + 1 →
  reverse_loop fuel (pre ++ mid ++ suf) (length pre)
               (length pre + length mid - 1)
  = pre ++ rev mid ++ suf.
Proof.
  revert pre mid suf. induction fuel as [|fuel IH]; intros pre mid suf Hlen.
  { destruct mid as [|x [|y mid]]; simpl in *; [done|done|lia]. }
  simpl. destruct mid as [|x mid]; simpl.
  { replace (length pre + 0 - 1) with (length pre - 1) by lia.
    destruct (length pre <? length pre - 1) eqn:Hlt; [|done].
    apply Nat.ltb_lt in Hlt. lia. }
  destruct mid as [|y mid _] using rev_ind.
  { simpl. replace (length pre + 1 - 1) with (length pre) by lia.
    by rewrite Nat.ltb_irrefl. }
  simpl in Hlen. rewrite length_app in Hlen |- *. simpl in Hlen |- *.
  assert ((length pre <? length pre + S (length mid + 1) - 1) = true) as ->
    by (apply Nat.ltb_lt; lia).
  rewrite lookup_app_r, Nat.sub_diag by lia. simpl.
  assert ((pre ++ (x :: ((mid ++ [y]) ++ suf)))
            !! (length pre + S (length mid + 1) - 1) = Some y) as ->.
  { rewrite lookup_app_r by lia.
    replace (length pre + S (length mid + 1) - 1 - length pre)
      with (S (length mid)) by lia.
    simpl. rewrite <-app_assoc, lookup_app_r by lia.
    by rewrite Nat.sub_diag. }
  assert (<[length pre + S (length mid + 1) - 1 := x]>
            (<[length pre := y]> (pre ++ (x :: ((mid ++ [y]) ++ suf))))
          = (pre ++ [y]) ++ mid ++ ([x] ++ suf)) as ->.
  { rewrite insert_app_r_alt, Nat.sub_diag by lia. simpl.
    rewrite insert_app_r_alt by lia.
    replace (length pre + S (length mid + 1) - 1 - length pre)
      with (S (length mid)) by lia.
    simpl. rewrite <-(app_assoc mid), insert_app_r_alt by lia.
    rewrite Nat.sub_diag. simpl. by rewrite <-!app_assoc. }
  replace (length pre + 1) with (length (pre ++ [y]))
    by (rewrite length_app; simpl; lia).
  replace (length pre + S (length mid + 1) - 1 - 1)
    with (length (pre ++ [y]) + length mid - 1)
    by (rewrite length_app; simpl; lia).
  rewrite IH by lia.
  rewrite rev_app_distr. simpl. by rewrite <-!app_assoc.
Qed.

Lemma reverse_in_place_rev (path : list NodeType) :
  reverse_in_place path = rev path.
Proof.
  unfold reverse_in_place.
  pose proof (reverse_loop_spec (length path) [] path []) as Hs.
  simpl in Hs. rewrite !app_nil_r in Hs. apply Hs. lia.
Qed.


(** ** What [reconstructPath] returns, on any map *)

Lemma reconstruct_loop_trail n came cur start path p :
  reconstruct_loop n came cur start path = Some p →
  ∃ l e, p = path ++ l ∧ trail came start cur l e.
Proof.
  revert cur path. induction n as [|n IH]; intros cur path; simpl; [done|].
  destruct (bool_decide (cur = start)) eqn:Hc.
  { apply bool_decide_eq_true in Hc. intros [= <-].
    exists [], cur. rewrite app_nil_r. split; [done|]. constructor. by left. }
  apply bool_decide_eq_false in Hc.
  destruct (came !! cur) as [prev|] eqn:Hp.
  - intros (l & e & -> & Ht)%IH. exists (prev :: l), e.
    rewrite <-app_assoc. split; [done|]. by constructor.
  - intros [= <-]. exists [], cur. rewrite app_nil_r. split; [done|].
    constructor. by right.
Qed.

Lemma reconstruct_loop_S n came cur start path :
  reconstruct_loop (S n) came cur start path =
  if bool_decide (cur = start) then Some path
  else match came !! cur with
       | None => Some path
       | Some prev => reconstruct_loop n came prev start (path ++ [prev])
       end.
Proof. reflexivity. Qed.

Lemma trail_loop came start v l e path :
  trail came start v l e →
  reconstruct_loop (S (length l)) came v start path = Some (path ++ l).
Proof.
  intros Ht. revert path.
  induction Ht as [v [->|Hv]|v u l e Hne Hu _ IH]; intros path.
  - simpl. rewrite bool_decide_eq_true_2 by done. by rewrite app_nil_r.
  - simpl. rewrite Hv, app_nil_r. by destruct (bool_decide _).
  - change (length (u :: l)) with (S (length l)).
    rewrite reconstruct_loop_S, bool_decide_eq_false_2, Hu by done.
    rewrite IH. by rewrite <-app_assoc.
Qed.

Lemma trail_unique came start v l1 e1 l2 e2 :
  trail came start v l1 e1 → trail came start v l2 e2 → l1 = l2 ∧ e1 = e2.
Proof.
  intros Ht. revert l2 e2.
  induction Ht as [v Hstop|v u l e Hne Hu _ IH]; intros l2 e2 Ht2.
  - destruct Ht2 as [|v u' l' e' Hne' Hu' _]; [done|].
    destruct Hstop; congruence.
  - destruct Ht2 as [v [Hs|Hs]|v u' l' e' Hne' Hu' Ht']; [congruence..|].
    assert (u' = u) as -> by congruence.
    destruct (IH _ _ Ht') as [-> ->]. done.
Qed.

Lemma trail_elem came start v l e x :
  trail came start v l e → x ∈ l →
  ∃ l', trail came start x l' e ∧ length l' < length l.
Proof.
  induction 1 as [|v u l e Hne Hu Ht IH]; [by intros ?%elem_of_nil|].
  intros [->|Hx]%elem_of_cons.
  - exists l. split; [done|simpl; lia].
  - destruct (IH Hx) as (l' & Hl' & Hlen). exists l'. split; [done|].
    simpl. lia.
Qed.

(** The loop never meets a node twice: it would go round for ever. *)
Lemma trail_NoDup came start v l e :
  trail came start v l e → NoDup (v :: l).
Proof.
  induction 1 as [|v u l e Hne Hu Ht IH]; [apply NoDup_singleton|].
  apply NoDup_cons. split; [|done].
  intros (l' & Hl' & Hlen)%(trail_elem _ _ _ _ _ _ (trail_step _ _ _ _ _ _
                                                      Hne Hu Ht)).
  destruct (trail_unique _ _ _ _ _ _ _ Hl'
              (trail_step _ _ _ _ _ _ Hne Hu Ht)) as [-> _].
  lia.
Qed.

Lemma trail_end came start v l e :
  trail came start v l e →
  last (v :: l) = Some e ∧ (e = start ∨ came !! e = None).
Proof.
  induction 1 as [v Hs|v u l e Hne Hu _ [IHl IHe]]; [done|].
  split; [|done]. by rewrite last_cons_cons.
Qed.

(** Read backwards, a trail lists every node after its predecessor. *)
Lemma trail_links came start v l e i x y :
  trail came start v l e →
  rev (v :: l) !! i = Some x → rev (v :: l) !! S i = Some y →
  came !! y = Some x ∧ y ≠ start.
Proof.
  intros Ht. revert i x y.
  induction Ht as [v Hs|v u l e Hne Hu _ IH]; intros i x y Hx Hy.
  { destruct i; simpl in *; done. }
  change (rev (v :: u :: l)) with (rev (u :: l) ++ [v]) in Hx, Hy.
  assert (Hlen : length (rev (u :: l)) = S (length l))
    by (by rewrite length_rev).
  assert (Hlast : rev (u :: l) !! length l = Some u).
  { simpl. rewrite lookup_app_r by (rewrite length_rev; lia).
    by rewrite length_rev, Nat.sub_diag. }
  generalize dependent (rev (u :: l)). intros L IH Hx Hy Hlen Hlast.
  destruct (decide (S i < S (length l))) as [Hlt|Hge].
  - rewrite lookup_app_l in Hx, Hy by lia. by eapply IH.
  - apply lookup_lt_Some in Hy as Hb. rewrite length_app, Hlen in Hb.
    simpl in Hb. assert (i = length l) as -> by lia.
    rewrite lookup_app_r, Hlen, Nat.sub_diag in Hy by lia.
    injection Hy as <-.
    rewrite lookup_app_l, Hlast in Hx by lia. injection Hx as <-. done.
Qed.

Lemma chain_trail came start v l e :
  chain came v l e → e = start ∨ came !! e = None →
  ∃ l' e', trail came start v l' e'.
Proof.
  intros Hch He. induction Hch as [v|v u l e Hu _ IH].
  { exists [], v. by constructor. }
  destruct (decide (v = start)) as [->|Hne].
  { exists [], start. constructor. by left. }
  destruct (IH He) as (l' & e' & Ht). exists (u :: l'), e'. by constructor.
Qed.

Lemma trail_chain came start v l e :
  trail came start v l e → chain came v l e.
Proof. induction 1; by econstructor. Qed.

Lemma reconstructPath_trail came current start path :
  reconstructPath came current start = Some path
  ↔ ∃ l e, trail came start current l e ∧ path = rev (current :: l).
Proof.
  split.
  - unfold reconstructPath.
    destruct (reconstruct_loop _ _ _ _ _) as [p|] eqn:Hp; [|done].
    simpl. intros [= <-].
    apply reconstruct_loop_trail in Hp as (l & e & -> & Ht). eauto.
  - intros (l & e & Ht & ->).
    apply (reconstruct_loop_bound (S (length l))).
    by apply (trail_loop came start current l e [current]).
Qed.


Lemma head_rev {A} (l : list A) : head (rev l) = last l.
Proof.
  destruct l as [|x l _] using rev_ind; [done|].
  by rewrite rev_app_distr, last_snoc.
Qed.

Lemma last_rev {A} (l : list A) : last (rev l) = head l.
Proof. destruct l as [|x l]; [done|]. simpl. by rewrite last_snoc. Qed.

(** X8. The loop that exchanges [path[i]] and [path[j]] while [i < j]
    returns the slice in reverse order, whatever its length;
    [internal.ReconstructPath] and [reconstructPath] return the same path. *)
Theorem reversal_loop_reverses came current start :
  (∀ path, reverse_in_place path = rev path)
  ∧ ReconstructPath came current start = reconstructPath came current start.
Proof.
  split; [apply reverse_in_place_rev|].
  unfold ReconstructPath, reconstructPath.
  destruct (reconstruct_loop _ _ _ _ _); [|done]. simpl.
  by rewrite reverse_in_place_rev.
Qed.

(** X9. A path returned by [reconstructPath], on any predecessor map, ends
    at [current], begins at the start node or at a node without predecessor,
    lists every later node after its predecessor, meets the start node
    nowhere but at its head, and repeats no node. *)
Theorem reconstructPath_result came current start path :
  reconstructPath came current start = Some path →
  last path = Some current
  ∧ (∃ e, head path = Some e ∧ (e = start ∨ came !! e = None))
  ∧ NoDup path
  ∧ ∀ i u v, path !! i = Some u → path !! S i = Some v →
             came !! v = Some u ∧ v ≠ start.
Proof.
  intros (l & e & Ht & ->)%reconstructPath_trail.
  destruct (trail_end _ _ _ _ _ Ht) as [Hlast Hstop].
  split_and!.
  - by rewrite last_rev.
  - exists e. by rewrite head_rev.
  - rewrite <-Permutation_rev. by eapply trail_NoDup.
  - intros i u v. by eapply trail_links.
Qed.

Lemma reconstruct_loop_None came current start :
  reconstructPath came current start = None
  ↔ ∀ n path, reconstruct_loop n came current start path = None.
Proof.
  split.
  - intros Hnone n path.
    destruct (reconstruct_loop n came current start path) as [p|] eqn:Hp;
      [|done].
    assert (is_Some (reconstruct_loop n came current start [current]))
      as [p' Hp'].
    { apply reconstruct_loop_walk.
      apply (reconstruct_loop_walk n came current start path). by eexists. }
    apply reconstruct_loop_bound in Hp'. congruence.
  - intros Hnone. unfold reconstructPath. by rewrite Hnone.
Qed.

(** X10. [reconstructPath] returns exactly when the predecessor links lead
    from [current] to the start node or to a node without predecessor;
    otherwise no number of iterations ends its loop.  A start node and a
    node without predecessor are returned alone. *)
Theorem reconstructPath_returns_iff came current start :
  (is_Some (reconstructPath came current start)
   ↔ ∃ l e, chain came current l e ∧ (e = start ∨ came !! e = None))
  ∧ (reconstructPath came current start = None
     ↔ ∀ n path, reconstruct_loop n came current start path = None)
  ∧ reconstructPath came start start = Some [start]
  ∧ (came !! current = None →
     reconstructPath came current start = Some [current]).
Proof.
  split_and!.
  - split.
    + intros [path (l & e & Ht & _)%reconstructPath_trail].
      exists l, e. split; [by eapply trail_chain|].
      by destruct (trail_end _ _ _ _ _ Ht).
    + intros (l & e & Hch & He).
      destruct (chain_trail _ start _ _ _ Hch He) as (l' & e' & Ht).
      exists (rev (current :: l')). apply reconstructPath_trail. eauto.
  - apply reconstruct_loop_None.
  - apply reconstructPath_trail. exists [], start. split; [|done].
    constructor. by left.
  - intros Hc. apply reconstructPath_trail. exists [], current.
    split; [|done]. constructor. by right.
Qed.

(** X11. On a map in which the links from [current] never leave a set of
    nodes that all have a predecessor and are not the start node (a cycle),
    the loop of [reconstructPath] has no exit: the call does not return. *)
Theorem reconstructPath_loops_on_a_cycle (P : NodeType → Prop)
    came current start :
  P current →
  (∀ v, P v → v ≠ start ∧ ∃ u, came !! v = Some u ∧ P u) →
  reconstructPath came current start = None
  ∧ ∀ n path, reconstruct_loop n came current start path = None.
Proof.
  intros Hc HP.
  assert (∀ n path, reconstruct_loop n came current start path = None) as Hn.
  { intros n. revert current Hc.
    induction n as [|n IH]; intros current Hc path; [done|].
    destruct (HP _ Hc) as (Hne & u & Hu & HPu).
    rewrite reconstruct_loop_S, bool_decide_eq_false_2, Hu by done.
    by apply IH. }
  split; [|done]. by apply reconstruct_loop_None.
Qed.


(** ** What [inferStartFromCameFrom] returns, on any map *)

Lemma inferStart_loop_chain n came cur r :
  inferStart_loop n came cur = Some r →
  ∃ l, chain came cur l r ∧ came !! r = None.
Proof.
  revert cur. induction n as [|n IH]; intros cur; simpl; [done|].
  destruct (came !! cur) as [prev|] eqn:Hc.
  - intros (l & Hch & Hr)%IH. exists (prev :: l). split; [by constructor|done].
  - intros [= <-]. exists []. split; [constructor|done].
Qed.

Lemma chain_inferStart came cur l r :
  chain came cur l r → came !! r = None →
  inferStart_loop (S (length l)) came cur = Some r.
Proof.
  intros Hch Hr. induction Hch as [v|v u l e Hu _ IH].
  - simpl. by rewrite Hr.
  - change (length (u :: l)) with (S (length l)).
    rewrite (inferStart_loop_step _ _ _ _ Hu). by apply IH.
Qed.

Lemma chain_trail_end came v l r :
  chain came v l r → came !! r = None → trail came r v l r.
Proof.
  intros Hch Hr. induction Hch as [v|v u l e Hu _ IH].
  - constructor. by left.
  - constructor; [congruence|done|by apply IH].
Qed.

(** X12. [inferStartFromCameFrom] returns the node without predecessor to
    which the links lead from [current], which is [current] itself when it
    has none; when every node the links lead to has a predecessor, no number
    of iterations ends its loop. *)
Theorem inferStartFromCameFrom_returns_iff came current r :
  (inferStartFromCameFrom came current = Some r
   ↔ ∃ l, chain came current l r ∧ came !! r = None)
  ∧ (inferStartFromCameFrom came current = None
     ↔ ∀ l e, chain came current l e → is_Some (came !! e))
  ∧ (inferStartFromCameFrom came current = None
     ↔ ∀ n, inferStart_loop n came current = None)
  ∧ (came !! current = None →
     inferStartFromCameFrom came current = Some current).
Proof.
  assert (Hsome : ∀ r', inferStartFromCameFrom came current = Some r'
                  ↔ ∃ l, chain came current l r' ∧ came !! r' = None).
  { intros r'. split.
    - apply inferStart_loop_chain.
    - intros (l & Hch & Hr). eapply inferStart_loop_bound.
      by apply chain_inferStart. }
  split_and!.
  - apply Hsome.
  - split.
    + intros Hnone l e Hch. destruct (came !! e) eqn:He; [by eexists|].
      assert (inferStartFromCameFrom came current = Some e) as Hs
        by (apply Hsome; eauto).
      congruence.
    + intros Hall. apply eq_None_not_Some. intros [r' Hi].
      apply Hsome in Hi as (l & Hch & Hr).
      destruct (Hall _ _ Hch) as [? ?]. congruence.
  - split.
    + intros Hnone n.
      destruct (inferStart_loop n came current) as [r'|] eqn:Hi; [|done].
      apply inferStart_loop_bound in Hi. congruence.
    + intros Hnone. apply Hnone.
  - intros Hc. apply Hsome. exists []. split; [constructor|done].
Qed.

(** X13. The goal branch of [Step] calls [reconstructPath] with the node
    that [inferStartFromCameFrom] returns: on any map, when the latter
    returns [r], the former returns the whole walk of the links, from [r] to
    [current]. *)
Theorem inferred_start_heads_the_path came current r :
  inferStartFromCameFrom came current = Some r →
  ∃ l, chain came current l r
       ∧ reconstructPath came current r = Some (rev (current :: l))
       ∧ head (rev (current :: l)) = Some r
       ∧ last (rev (current :: l)) = Some current.
Proof.
  intros (l & Hch & Hr)%inferStart_loop_chain. exists l.
  pose proof (chain_trail_end _ _ _ _ Hch Hr) as Ht.
  split_and!; [done| | |].
  - apply reconstructPath_trail. eauto.
  - rewrite head_rev. by destruct (trail_end _ _ _ _ _ Ht).
  - by rewrite last_rev.
Qed.


(** ** Every [Step] call returns, unless a node has more neighbours than there
    are workers *)

Lemma Step_returns_or_blocks startNode goalNode s :
  fair_schedule →
  stepper_reach startNode goalNode s →
  (∃ snap s' err, Step s = Returned (snap, s') err)
  ∨ (Step s = Blocked ∧ done s = false
     ∧ ∃ a q' it,
         heap_Pop (openSet (state s)) = Some (a, q')
         ∧ mem q' !! a = Some it
         ∧ Node it ≠ goalNode
         ∧ (workers < Z.of_nat (length (graph (Node it))))%Z).
Proof.
  intros Hfair Hr.
  pose proof (stepper_reach_inv _ _ _ Hfair Hr) as Hinv.
  destruct (stepper_reach_found _ _ _ Hr) as [Hgoal _].
  apply stepper_reach_frontier in Hr.
  destruct (Step_frontier_inv s Hr) as (o & Hb & ->).
  unfold step_body in Hb.
  destruct (done s) eqn:Hd; [left; injection Hb as <-; by eexists _, _, _|].
  destruct (Len (openSet (state s)) =? 0) eqn:Hlen;
    [left; injection Hb as <-; by eexists _, _, _|].
  apply Nat.eqb_neq in Hlen.
  destruct (run_inv_pop_Some _ _ Hinv Hlen) as (a & q' & it & Hpop & Hit).
  rewrite Hpop, Hit in Hb.
  destruct (run_inv_pop _ _ _ _ _ Hinv Hpop Hit) as (Hcl & (_ & Hto & _) & _).
  rewrite Hcl in Hb.
  destruct (bool_decide (Node it = goal s)) eqn:Hg.
  { left. apply bool_decide_eq_true in Hg.
    assert (Hroot : rooted (close (popped (state s) q' (Node it)) (Node it))
                           startNode (Node it)).
    { apply (to_rooted _ _ Hto). rewrite closed_close. by case_decide. }
    pose proof (rooted_inferStart _ _ _ (to_root _ _ Hto) Hroot) as Hinf.
    destruct (rooted_reconstructPath _ _ _ (to_root _ _ Hto) Hroot)
      as [path Hpath].
    simpl in Hinf, Hpath. simpl in Hb. rewrite Hinf, Hpath in Hb.
    injection Hb as <-. by eexists _, _, _. }
  apply bool_decide_eq_false in Hg.
  destruct (workers <? Z.of_nat (length (graph (Node it))))%Z eqn:Hw.
  { right. injection Hb as <-. apply Z.ltb_lt in Hw.
    split_and!; [done..|]. exists a, q', it. split_and!; try done. congruence. }
  left. destruct (arrive _ _); injection Hb as <-; by eexists _, _, _.
Qed.

(** Without cancellation [Step] returns no error. *)
Lemma Step_no_error s snap s' err :
  never_cancelled →
  frontier_ok (state s) →
  Step s = Returned (snap, s') err → err = None.
Proof.
  intros Hnc Hfo Hstep.
  destruct (Step_result _ _ _ _ Hfo Hstep) as
    [Hd|Hd Hlen|a q' it inferred path Hd Hpop Hit
    |a q' it ps Hd Hpop Hit Hcl Hg Hw Ha|a q' it ps Hd Hpop Hit Hcl Hg Hw Ha];
    try done.
  destruct (Hnc (Node it) (proposals (Node it) (GScore it) (goal s)))
    as [l Hl].
  congruence.
Qed.

(** X14. When the context is not cancelled, in a run whose proposals are
    those the workers sent, a [Step] call never panics, and it returns, with
    no error, unless the node it expands, which is not the goal, has more
    neighbours than there are workers; then it blocks. *)
Theorem Step_returns_or_lacks_workers startNode goalNode s :
  fair_schedule →
  never_cancelled →
  stepper_reach startNode goalNode s →
  (∃ snap s', Step s = Returned (snap, s') None)
  ∨ (Step s = Blocked ∧ done s = false
     ∧ ∃ a q' it,
         heap_Pop (openSet (state s)) = Some (a, q')
         ∧ mem q' !! a = Some it
         ∧ Node it ≠ goalNode
         ∧ (workers < Z.of_nat (length (graph (Node it))))%Z).
Proof.
  intros Hfair Hnc Hr.
  destruct (Step_returns_or_blocks _ _ _ Hfair Hr)
    as [(snap & s' & err & Hstep)|Hblocked]; [left|by right].
  apply stepper_reach_frontier in Hr.
  rewrite (Step_no_error _ _ _ _ Hnc Hr Hstep) in Hstep. eauto.
Qed.


(** X15. When the context is not cancelled, on a finite graph whose nodes
    have at most as many neighbours as there are workers, calling [Step]
    until a snapshot has [Done] takes at most one call per node, plus one,
    and no call returns an error. *)
Theorem stepping_ends_on_finite_graph (U : gset NodeType)
    startNode goalNode fuel :
  fair_schedule →
  never_cancelled →
  startNode ∈ U →
  (∀ u nb, u ∈ U → nb ∈ graph u → ID nb ∈ U) →
  (∀ u, u ∈ U → (Z.of_nat (length (graph u)) ≤ workers)%Z) →
  size U < fuel →
  ∃ snap s',
    step_until_done fuel (NewStepper startNode goalNode)
      = Some (Returned (snap, s') None)
    ∧ Done snap = true.
Proof.
  intros Hfair Hnc Hs HU Hdeg Hfuel.
  destruct (search_loop_returns U startNode goalNode fuel
              (initial_state startNode goalNode) 0 Hfair HU Hdeg)
    as (r & err & Hsearch).
  - apply run_inv_initial.
  - intros v. rewrite initial_state_eq. simpl.
    by intros [a [<- _]%lookup_singleton_Some].
  - eapply Nat.le_lt_trans; [|exact Hfuel].
    apply subseteq_size. intros x [_ Hx]%elem_of_filter. done.
  - destruct (search_loop_reach _ _ _ _ _ _ _ (sr_init _ _) Hsearch)
      as (st & n & _ & Hb).
    pose proof (search_body_error _ _ _ _ _ _ Hnc Hb) as Herr.
    pose proof (sim_loop fuel startNode goalNode
                  (NewStepper startNode goalNode) 0 Hfair
                  (run_inv_initial _ _) eq_refl eq_refl eq_refl) as Hsim.
    simpl in Hsim. rewrite Hsearch in Hsim.
    destruct Hsim as (snap & s' & Hstep & Hdone & _).
    exists snap, s'. split; [|done].
    destruct Herr as [[-> _]|[-> _]]; exact Hstep.
Qed.

(** ** What a snapshot shows *)

(** The step counter is the number of closed nodes. *)
Lemma stepper_reach_stepCount startNode goalNode s :
  fair_schedule →
  stepper_reach startNode goalNode s →
  stepCount s = size (closedSet (state s)).
Proof.
  intros Hfair. induction 1 as [|s snap s' err Hr IH Hstep]; [done|].
  pose proof (stepper_reach_inv _ _ _ Hfair Hr) as Hinv.
  apply stepper_reach_frontier in Hr.
  destruct (Step_result _ _ _ _ Hr Hstep) as
    [Hd|Hd Hlen|a q' it inferred path Hd Hpop Hit
    |a q' it ps Hd Hpop Hit Hcl Hg Hw Ha|a q' it ps Hd Hpop Hit Hcl Hg Hw Ha];
    simpl; try done;
    destruct (run_inv_pop _ _ _ _ _ Hinv Hpop Hit) as (_ & _ & _ & Hnone);
    rewrite ?fold_relax_closedSet; simpl;
    rewrite map_size_insert_None by done; by rewrite IH.
Qed.

(** A snapshot returned without error shows the receiver as the call left
    it. *)
Lemma Step_snapshot_fields s snap s' :
  frontier_ok (state s) →
  Step s = Returned (snap, s') None →
  Open snap = openSetToBoolMap (state s')
  ∧ Closed snap = closedSet (state s')
  ∧ CameFrom snap = cameFrom (state s')
  ∧ StepIndex snap = stepCount s'.
Proof.
  intros Hfo Hstep. pose proof (Step_result _ _ _ _ Hfo Hstep) as Hres.
  remember None as err eqn:Herr. by destruct Hres.
Qed.


(** X16. In a run whose proposals are those the workers sent, a snapshot
    returned without error is consistent: a node of [Open] is not in
    [Closed] and both maps hold [true] only; [StepIndex] is the number of
    closed nodes; the start node has no predecessor, every other open or
    closed node has one, and every predecessor is closed; [Current] is
    closed when the call expanded a node; and a call that finishes the search
    without finding the goal shows an empty [Open]. *)
Theorem snapshot_is_consistent startNode goalNode s snap s' :
  fair_schedule →
  stepper_reach startNode goalNode s →
  Step s = Returned (snap, s') None →
  (∀ v, is_Some (Open snap !! v) →
        Open snap !! v = Some true ∧ Closed snap !! v = None)
  ∧ (∀ v b, Closed snap !! v = Some b → b = true)
  ∧ StepIndex snap = size (Closed snap)
  ∧ CameFrom snap !! startNode = None
  ∧ (∀ v u, CameFrom snap !! v = Some u → Closed snap !! u = Some true)
  ∧ (∀ v, is_Some (Open snap !! v) ∨ is_Some (Closed snap !! v) →
          v = startNode ∨ is_Some (CameFrom snap !! v))
  ∧ (done s = false → Done snap = false ∨ SFound snap = true →
     Closed snap !! Current snap = Some true)
  ∧ (done s = false → Done snap = true → SFound snap = false →
     Open snap = ∅).
Proof.
  intros Hfair Hr Hstep.
  pose proof (tr_step _ _ _ _ _ _ Hr Hstep) as Hr'.
  destruct (stepper_reach_inv _ _ _ Hfair Hr') as (Hfo & Hto & Htrue).
  pose proof (stepper_reach_stepCount _ _ _ Hfair Hr') as Hcount.
  pose proof (stepper_reach_inv _ _ _ Hfair Hr) as Hinv.
  apply stepper_reach_frontier in Hr.
  destruct (Step_snapshot_fields _ _ _ Hr Hstep) as (HO & HC & HF & HI).
  assert (Hcl : ∀ v, closed (state s') v = true →
                     closedSet (state s') !! v = Some true).
  { intros v. unfold closed.
    destruct (closedSet (state s') !! v) as [[|]|]; done. }
  assert (Hopen : ∀ v, is_Some (Open snap !! v) →
                       is_Some (openSetMap (state s') !! v)).
  { intros v. rewrite HO. unfold openSetToBoolMap.
    rewrite lookup_fmap. by intros ?%fmap_is_Some. }
  rewrite HC, HF, HI. split_and!.
  - intros v Hv. pose proof (Hopen v Hv) as [a Ha]. split.
    + rewrite HO. unfold openSetToBoolMap. by rewrite lookup_fmap, Ha.
    + pose proof (fo_open _ Hfo v (mk_is_Some _ _ Ha)) as Hnc.
      unfold closed in Hnc.
      destruct (closedSet (state s') !! v) as [b|] eqn:Hb; [|done].
      rewrite (Htrue _ _ Hb) in Hnc. done.
  - exact Htrue.
  - exact Hcount.
  - apply (to_root _ _ Hto).
  - intros v u Hu. apply Hcl. by apply (to_pred _ _ Hto v).
  - intros v [Hv|[b Hb]].
    + by apply (to_open _ _ Hto), Hopen.
    + assert (closed (state s') v = true) as Hc.
      { unfold closed. rewrite Hb. simpl. by eapply Htrue. }
      destruct (to_rooted _ _ Hto v Hc) as [|v u _ Hu _]; [by left|right].
      by eexists.
  - intros Hd Hs. pose proof (Step_result _ _ _ _ Hr Hstep) as Hres.
    remember None as err eqn:Herr.
    destruct Hres as
      [Hd'|Hd' Hlen|a q' it inferred path Hd' Hpop Hit
      |a q' it ps Hd' Hpop Hit Hc Hg Hw Ha|a q' it ps Hd' Hpop Hit Hc Hg Hw Ha];
      simpl in *; try congruence.
    + destruct Hs; done.
    + by rewrite lookup_insert_eq.
    + rewrite fold_relax_closedSet. simpl. by rewrite lookup_insert_eq.
  - intros Hd Hdone Hnf. pose proof (Step_result _ _ _ _ Hr Hstep) as Hres.
    remember None as err eqn:Herr.
    destruct Hres as
      [Hd'|Hd' Hlen|a q' it inferred path Hd' Hpop Hit
      |a q' it ps Hd' Hpop Hit Hc Hg Hw Ha|a q' it ps Hd' Hpop Hit Hc Hg Hw Ha];
      simpl in *; try congruence.
    apply map_eq. intros v. rewrite lookup_empty.
    unfold openSetToBoolMap. rewrite lookup_fmap.
    destruct (openSetMap (state s) !! v) as [b|] eqn:Hb; [|done].
    destruct Hinv as [Hfo' _].
    apply (fo_index _ Hfo') in Hb as [Hin _].
    unfold Len in Hlen. apply nil_length_inv in Hlen. rewrite Hlen in Hin.
    by apply elem_of_nil in Hin.
Qed.


(** ** The returned path is simple *)

Lemma rooted_chain_all st start v l e x :
  cameFrom st !! start = None →
  rooted st start v →
  chain (cameFrom st) v l e →
  x ∈ v :: l → rooted st start x.
Proof.
  intros Hroot Hr Hch. revert x.
  induction Hch as [v|v u l e Hv _ IH]; intros x.
  { by intros ->%list_elem_of_singleton. }
  intros [->|Hx]%elem_of_cons; [done|].
  apply IH; [|done]. destruct Hr as [|v u' _ Hu' Hr']; congruence.
Qed.

(** X17. The path of a successful [Search] repeats no node, and it is not
    longer than the number of expanded nodes the result reports. *)
Theorem found_path_is_simple fuel startNode goalNode r err :
  fair_schedule →
  Search fuel startNode goalNode = Some (Returned r err) →
  Found r = true →
  NoDup (Path r) ∧ 1 ≤ length (Path r) ≤ ExpandedNodes r.
Proof.
  intros Hfair Hs Hfound.
  destruct (search_loop_reach _ _ _ _ _ _ _ (sr_init _ _) Hs)
    as (st & n & Hr & Hb).
  destruct (search_reach_inv _ _ _ _ Hfair Hr) as [Hinv ->].
  unfold search_body in Hb.
  body_cases Hb st Hpop Hit Hcl; try done; [by simplify_eq|].
  destruct (run_inv_pop _ _ _ _ _ Hinv Hpop Hit)
    as (_ & (_ & Hto & Htrue) & Hstart & Hnone).
  destruct (bool_decide (Node it = goalNode)) eqn:Hg.
  2:{ destruct (_ <? _)%Z; [done|]. destruct (arrive _ _); by simplify_eq. }
  destruct (reconstructPath _ _ _) as [path|] eqn:Hpath; [|done].
  injection Hb as <- <-. simpl.
  apply reconstructPath_trail in Hpath as (l & e & Ht & ->).
  pose proof (trail_NoDup _ _ _ _ _ Ht) as Hnd.
  set (st2 := close (popped st q' (Node it)) (Node it)) in *.
  assert (Hroot : rooted st2 startNode (Node it)).
  { apply (to_rooted _ _ Hto). subst st2. rewrite closed_close.
    by rewrite decide_True. }
  assert (Hin : ∀ x, x ∈ Node it :: l → x ∈ dom (closedSet st2)).
  { intros x Hx. apply elem_of_dom.
    assert (closed st2 x = true) as Hc.
    { destruct (rooted_chain_all st2 startNode (Node it) l e x
                  (to_root _ _ Hto) Hroot (trail_chain _ _ _ _ _ Ht) Hx);
        done. }
    unfold closed in Hc. destruct (closedSet st2 !! x); [by eexists|done]. }
  rewrite length_rev. split; [by rewrite <-Permutation_rev|].
  split; [simpl; lia|].
  rewrite <-(size_list_to_set (C := gset NodeType) _ Hnd).
  replace (S (size (closedSet st))) with (size (dom (closedSet st2))).
  - apply subseteq_size. intros x Hx%elem_of_list_to_set. by apply Hin.
  - rewrite size_dom. subst st2. simpl. by rewrite map_size_insert_None.
Qed.


(** ** The first pass *)

Lemma initial_pop startNode goalNode :
  heap_Pop (openSet (initial_state startNode goalNode))
  = Some (0, mkPQ [] [mkItem startNode cost_zero
                             (heuristic startNode goalNode) 0]).
Proof. reflexivity. Qed.

Lemma initial_closed startNode goalNode q v x :
  closed (popped (initial_state startNode goalNode) q v) x = false.
Proof. unfold closed. simpl. by rewrite lookup_empty. Qed.

(** X18. When the start node is the goal, [Search] returns the path of that
    one node, cost [0] and one expanded node, and the first [Step] returns
    the goal-found snapshot with that path, whatever the graph, the
    heuristic, the number of workers and the scheduler. *)
Theorem start_at_goal_is_found fuel startNode :
  Search (S fuel) startNode startNode
  = Some (Returned (mkResult [startNode] cost_zero 1 true) None)
  ∧ ∃ s',
      Step (NewStepper startNode startNode)
      = Returned (mkSnapshot startNode ∅ {[startNode := true]} ∅ true true
                             [startNode] 1, s') None
      ∧ done s' = true.
Proof.
  assert (Hrec : reconstructPath ∅ startNode startNode = Some [startNode]).
  { unfold reconstructPath. simpl. by rewrite bool_decide_eq_true_2. }
  assert (Hinf : inferStartFromCameFrom ∅ startNode = Some startNode) by done.
  split.
  - unfold Search. cbn [search_loop]. unfold search_body.
    rewrite initial_pop. simpl.
    rewrite bool_decide_eq_true_2 by done. by rewrite Hrec.
  - eexists. unfold Step, NewStepper. cbn [Step_rec]. unfold step_body.
    cbn [state done]. rewrite initial_pop. simpl.
    rewrite initial_closed, bool_decide_eq_true_2 by done. simpl.
    rewrite Hinf, Hrec. simpl.
    assert (openSetToBoolMap
              (close (popped (initial_state startNode startNode)
                        (mkPQ [] [mkItem startNode cost_zero
                                         (heuristic startNode startNode) 0])
                        startNode) startNode) = ∅) as ->.
    { unfold openSetToBoolMap. simpl.
      by rewrite delete_singleton_eq, fmap_empty. }
    rewrite insert_empty. split; reflexivity.
Qed.

Lemma first_pass_blocks fuel startNode goalNode :
  startNode ≠ goalNode →
  (workers < Z.of_nat (length (graph startNode)))%Z →
  Search (S fuel) startNode goalNode = Some Blocked
  ∧ Step (NewStepper startNode goalNode) = Blocked.
Proof.
  intros Hne Hw. apply Z.ltb_lt in Hw. split.
  - unfold Search. cbn [search_loop]. unfold search_body.
    rewrite initial_pop. simpl.
    rewrite bool_decide_eq_false_2 by done. by rewrite Hw.
  - unfold Step, NewStepper. cbn [Step_rec]. unfold step_body.
    cbn [state done]. rewrite initial_pop. simpl.
    rewrite initial_closed, bool_decide_eq_false_2 by done. by rewrite Hw.
Qed.

(** X19. When the start node is not the goal and has more neighbours than
    there are workers, [Search] and the first [Step] block: every task is
    sent before a proposal is received, and every worker waits for its
    proposal to be taken. *)
Theorem too_few_workers_block fuel startNode goalNode :
  startNode ≠ goalNode →
  (workers < Z.of_nat (length (graph startNode)))%Z →
  Search (S fuel) startNode goalNode = Some Blocked
  ∧ Step (NewStepper startNode goalNode) = Blocked.
Proof. apply first_pass_blocks. Qed.

(** X20. When the start node is not the goal and has no neighbour, [Search]
    expands it and returns "no path found" with one expanded node, however
    few workers there are. *)
Theorem isolated_start_is_not_found fuel startNode goalNode :
  fair_schedule →
  startNode ≠ goalNode →
  graph startNode = [] →
  (0 ≤ workers)%Z →
  Search (S (S fuel)) startNode goalNode
  = Some (Returned (mkResult [] cost_zero 1 false) (Some ErrNoPathFound)).
Proof.
  intros Hfair Hne Hg Hw.
  pose proof (Hfair startNode (proposals startNode cost_zero goalNode)) as Hv.
  unfold proposals in Hv. rewrite Hg in Hv. simpl in Hv.
  unfold Search. cbn [search_loop]. unfold search_body at 1.
  rewrite initial_pop. simpl.
  rewrite initial_closed, bool_decide_eq_false_2 by done. rewrite Hg.
  change (Z.of_nat (length [])) with 0%Z.
  assert ((workers <? 0)%Z = false) as -> by (apply Z.ltb_ge; lia).
  unfold proposals. rewrite Hg. simpl.
  destruct (arrive startNode []) as [ps|ps]; simpl in Hv.
  - apply Permutation_nil_r in Hv. subst ps. simpl.
    unfold search_body. simpl. done.
  - lia.
Qed.


(** ** The methods of [PriorityQueue] *)

(** X21. [PriorityQueue.Pop] undoes [PriorityQueue.Push]: it returns the
    pointer pushed last and leaves the queue as it was before; on an empty
    queue it panics.  [Push] puts the pointer in the cell after the last
    and writes no item: the [IndexInQueue] of the pushed item stays what it
    was. *)
Theorem Pop_undoes_Push q a :
  pq_Pop (pq_Push q a) = Some (a, q)
  ∧ (pq_Pop q = None ↔ Len q = 0)
  ∧ Len (pq_Push q a) = S (Len q)
  ∧ slice (pq_Push q a) !! Len q = Some a
  ∧ mem (pq_Push q a) = mem q.
Proof.
  destruct q as [sl m]. unfold pq_Pop, pq_Push, Len. simpl. split_and!.
  - rewrite last_snoc. simpl. rewrite length_app. simpl.
    replace (length sl + 1 - 1) with (length sl) by lia.
    by rewrite take_app_length.
  - destruct sl as [|x sl _] using rev_ind; [done|].
    rewrite last_snoc, length_app. simpl. split; [done|lia].
  - rewrite length_app. simpl. lia.
  - by rewrite lookup_app_r, Nat.sub_diag.
  - done.
Qed.

(** X22. [PriorityQueue.Swap] on two cells of a queue of distinct pointers
    exchanges the two pointers, writes into each of the two items the index
    of its new cell, and leaves every other cell and every other item, and
    the node and the scores of the two items, as they were. *)
Theorem Swap_exchanges_and_indexes q i j a b x y :
  NoDup (slice q) →
  slice q !! i = Some a → slice q !! j = Some b →
  mem q !! a = Some x → mem q !! b = Some y →
  slice (Swap q i j) !! i = Some b
  ∧ slice (Swap q i j) !! j = Some a
  ∧ mem (Swap q i j) !! b = Some (set_index i y)
  ∧ mem (Swap q i j) !! a = Some (set_index j x)
  ∧ (∀ k, k ≠ i → k ≠ j → slice (Swap q i j) !! k = slice q !! k)
  ∧ (∀ c, c ≠ a → c ≠ b → mem (Swap q i j) !! c = mem q !! c).
Proof.
  intros Hnd Hi Hj Hx Hy.
  pose proof (lookup_lt_Some _ _ _ Hi) as Hli.
  pose proof (lookup_lt_Some _ _ _ Hj) as Hlj.
  unfold Swap. rewrite Hi, Hj. simpl.
  destruct (decide (i = j)) as [->|Hij].
  { assert (b = a) as -> by congruence. assert (y = x) as -> by congruence.
    rewrite list_lookup_insert_eq by (rewrite length_insert; lia).
    split_and!; try done.
    - rewrite list_lookup_alter_eq, list_lookup_alter_eq, Hx. done.
    - rewrite list_lookup_alter_eq, list_lookup_alter_eq, Hx. done.
    - intros k Hk _. by rewrite !list_lookup_insert_ne.
    - intros c Hc _. by rewrite !list_lookup_alter_ne. }
  assert (a ≠ b) as Hab.
  { intros ->. apply Hij. by eapply NoDup_lookup. }
  split_and!.
  - rewrite list_lookup_insert_ne by done.
    by rewrite list_lookup_insert_eq.
  - by rewrite list_lookup_insert_eq by (rewrite length_insert; lia).
  - rewrite list_lookup_alter_ne by done.
    by rewrite list_lookup_alter_eq, Hy.
  - rewrite list_lookup_alter_eq, list_lookup_alter_ne by done.
    by rewrite Hx.
  - intros k Hki Hkj. by rewrite !list_lookup_insert_ne.
  - intros c Hca Hcb. by rewrite !list_lookup_alter_ne.
Qed.


(** ** The path of the goal-found snapshot *)

Lemma stepper_reach_links startNode goalNode s :
  fair_schedule →
  stepper_reach startNode goalNode s → links_ok (state s).
Proof.
  intros Hfair. induction 1 as [|s snap s' err Hr IH Hstep].
  { intros v u.
    change (cameFrom (state (NewStepper startNode goalNode)))
      with (∅ : gmap NodeType NodeType).
    by rewrite lookup_empty. }
  apply stepper_reach_frontier in Hr.
  destruct (Step_result _ _ _ _ Hr Hstep) as
    [Hd|Hd Hlen|a q' it inferred path Hd Hpop Hit
    |a q' it ps Hd Hpop Hit Hcl Hg Hw Ha|a q' it ps Hd Hpop Hit Hcl Hg Hw Ha];
    simpl; try done;
    pose proof (Hfair (Node it) (proposals (Node it) (GScore it) (goal s)))
      as Hv; rewrite Ha in Hv;
    (eapply links_ok_fold_relax; [exact IH|]); intros p Hp.
  - by eapply (valid_arrival_elem _ (CanceledAfter ps)).
  - by eapply (valid_arrival_elem _ (Delivered ps)).
Qed.

(** X29. In a run whose proposals are those the workers sent, the [Path] of
    the goal-found snapshot is a walk of the graph from the start node given
    to [NewStepper] to the goal node, and repeats no node. *)
Theorem found_snapshot_path_is_a_walk startNode goalNode s snap s' err :
  fair_schedule →
  stepper_reach startNode goalNode s →
  done s = false →
  Step s = Returned (snap, s') err →
  SFound snap = true →
  head (SPath snap) = Some startNode
  ∧ last (SPath snap) = Some goalNode
  ∧ NoDup (SPath snap)
  ∧ ∃ cs, walk (SPath snap) cs.
Proof.
  intros Hfair Hr Hd Hstep Hfound.
  pose proof (stepper_reach_inv _ _ _ Hfair Hr) as Hinv.
  pose proof (stepper_reach_links _ _ _ Hfair Hr) as Hlinks.
  destruct (stepper_reach_found _ _ _ Hr) as [Hgoal _].
  apply stepper_reach_frontier in Hr.
  destruct (Step_result _ _ _ _ Hr Hstep) as
    [Hd'|Hd' Hlen|a q' it inferred path _ Hpop Hit Hcl Hg Hi Hp| |];
    try done; [congruence|].
  destruct (run_inv_pop _ _ _ _ _ Hinv Hpop Hit) as (_ & (_ & Hto & _) & _ & _).
  assert (Hroot : rooted (close (popped (state s) q' (Node it)) (Node it))
                         startNode (Node it)).
  { apply (to_rooted _ _ Hto). rewrite closed_close. by rewrite decide_True. }
  pose proof (rooted_inferStart _ _ _ (to_root _ _ Hto) Hroot) as Hinf.
  rewrite Hinf in Hi. injection Hi as <-.
  apply reconstructPath_trail in Hp as (l & e & Ht & ->). simpl.
  pose proof (trail_chain _ _ _ _ _ Ht) as Hch.
  assert (e = startNode) as ->.
  { destruct (trail_end _ _ _ _ _ Ht) as [_ [->|He]]; [done|].
    apply (rooted_no_pred (close (popped (state s) q' (Node it)) (Node it)));
      [|exact He].
    apply (rooted_chain_end _ _ (Node it) l);
      [apply (to_root _ _ Hto)|exact Hroot|exact Hch]. }
  destruct (chain_walk _ _ _ _ Hlinks Hch) as (cs & Hw & Hh).
  split_and!; [done| | |by exists cs].
  - change (rev l ++ [Node it]) with (rev (Node it :: l)).
    rewrite last_rev. simpl. congruence.
  - change (rev l ++ [Node it]) with (rev (Node it :: l)).
    rewrite <-Permutation_rev. by eapply trail_NoDup.
Qed.

End Astar.

Arguments Continue {S R} s.
Arguments Retry {S R} s.
Arguments Finish {S R} o.

(** * Options

    [Options], [Option] and [WithWorkers], and the prologue of [Search] and
    [NewStepper], which applies the options in order to the default of
    [runtime.NumCPU()] workers. *)

Record Options : Type := mkOptions { NumberOfWorkers : Z }.

(** An [Option] is a function that updates an [Options] struct through a
    pointer: the struct it leaves. *)
Definition Option : Type := Options → Options.

Definition WithWorkers (numberOfWorkers : Z) : Option :=
  fun options => {| NumberOfWorkers := numberOfWorkers |}.

Definition apply_options (numCPU : Z) (options : list Option) : Options :=
  fold_left (fun searchOptions option => option searchOptions) options
            {| NumberOfWorkers := numCPU |}.

(** The workers started by [for i := 0; i < NumberOfWorkers; i++]. *)
Definition started_workers (o : Options) : Z := Z.max 0 (NumberOfWorkers o).

Section WithOptions.

Context {NodeType : Type} `{Countable NodeType} {Cost : Type}.
Variable cost_zero : Cost.
Variable cost_add : Cost → Cost → Cost.
Variable cost_lt : Cost → Cost → bool.
Variable zeroNode : NodeType.
Variable graph : NodeType → list (@Neighbor NodeType Cost).
Variable heuristic : NodeType → NodeType → Cost.
Variable arrive :
  NodeType → list (@RelaxProposal NodeType Cost) → @Arrival NodeType Cost.
Variable numCPU : Z.

(** [Search(ctx, graph, startNode, goalNode, heuristic, options...)]. *)
Definition SearchWithOptions (options : list Option) (fuel : nat)
    (startNode goalNode : NodeType)
  : option (Outcome (@Result NodeType Cost)) :=
  Search cost_zero cost_add cost_lt graph heuristic
         (started_workers (apply_options numCPU options)) arrive
         fuel startNode goalNode.

(** [Step] on a receiver made by [NewStepper(..., options...)]. *)
Definition StepWithOptions (options : list Option)
    (s : @Stepper NodeType _ _ Cost)
  : Outcome (@StepSnapshot NodeType _ _ * @Stepper NodeType _ _ Cost) :=
  Step cost_add cost_lt zeroNode graph heuristic
       (started_workers (apply_options numCPU options)) arrive s.

End WithOptions.

(** * The grid world of [examples/vizweb]

    [point] is [[2]int]; Go's [int] has 64 bits on the platforms the example
    is run on, and its arithmetic wraps around.  [float64(n)] rounds the
    integer to the nearest [float64]. *)

Module Vizweb.

Definition point : Type := Z * Z.

Definition int_wrap (z : Z) : Z := ((z + 2 ^ 63) mod 2 ^ 64 - 2 ^ 63)%Z.

Definition int_add (a b : Z) : Z := int_wrap (a + b).

Definition int_sub (a b : Z) : Z := int_wrap (a - b).

Definition int_neg (a : Z) : Z := int_wrap (- a).

Definition float64_of_int (z : Z) : float :=
  SF2Prim (binary_normalize prec emax z 0 false).

Record grid : Type := mkGrid {
  W : Z;
  H : Z;
  Walls : gmap point bool
}.

(** [g.in(p)]. *)
Definition grid_in (g : grid) (p : point) : bool :=
  (0 <=? p.1)%Z && (p.1 <? W g)%Z && (0 <=? p.2)%Z && (p.2 <? H g)%Z.

(** [g.Walls[np]]. *)
Definition wall (g : grid) (p : point) : bool := default false (Walls g !! p).

Definition dirs : list point := [(1, 0); (-1, 0); (0, 1); (0, -1)]%Z.

(** [g.neighbors(p)]: the loop over [dirs], appending to [res]. *)
Definition neighbors (g : grid) (p : point) : list (point * float) :=
  fold_left
    (fun res d =>
       let np := (int_add p.1 d.1, int_add p.2 d.2) in
       if grid_in g np && negb (wall g np) then res ++ [(np, 1%float)]
       else res)
    dirs [].

(** [gridGraph.Neighbors]. *)
Definition Neighbors (g : grid) (p : point) : list (@Neighbor point float) :=
  fold_left (fun out n => out ++ [mkNeighbor n.1 n.2]) (neighbors g p) [].

Definition manhattan (a b : point) : float :=
  let dx := int_sub a.1 b.1 in
  let dx := if (dx <? 0)%Z then int_neg dx else dx in
  let dy := int_sub a.2 b.2 in
  let dy := if (dy <? 0)%Z then int_neg dy else dy in
  float64_of_int (int_add dx dy).

(** The options of [handleInit]: [astar.WithWorkers(4)]. *)
Definition options : list Option := [WithWorkers 4].

(** [astar.NewStepper(ctx, gridGraph{g}, start, goal, manhattan,
    astar.WithWorkers(4))] and the [Step] calls of [handleNext]. *)
Definition new_stepper (start goal : point) : @Stepper point _ _ float :=
  NewStepper 0%float PrimFloat.ltb manhattan start goal.



(** A value of Go's [int]. *)
Definition is_int (z : Z) : Prop := (- 2 ^ 63 ≤ z < 2 ^ 63)%Z.

End Vizweb.

(** * Runs on [float64]

    The engine at IEEE binary64 costs ([PrimFloat]) and natural numbers as
    nodes (zero value [0]). *)

Definition FStepper : Type := @Stepper nat _ _ float.

Definition FSnapshot : Type := @StepSnapshot nat _ _.

Definition nb (v : nat) (c : float) : Neighbor := mkNeighbor v c.

Definition no_heuristic (a b : nat) : float := 0%float.

(** Two schedulers: proposals arrive in the order of the tasks sent, or in
    the opposite order. *)
Definition fifo (u : nat) (ps : list (@RelaxProposal nat float)) : Arrival :=
  Delivered ps.

Definition lifo (u : nat) (ps : list (@RelaxProposal nat float)) : Arrival :=
  Delivered (rev ps).

Definition run_search (graph : nat → list Neighbor)
    (heuristic : nat → nat → float) (workers : Z)
    (arrive : nat → list RelaxProposal → Arrival)
    (fuel : nat) (startNode goalNode : nat) : option (Outcome Result) :=
  Search 0%float PrimFloat.add PrimFloat.ltb graph heuristic workers arrive
         fuel startNode goalNode.

Definition new_stepper (heuristic : nat → nat → float)
    (startNode goalNode : nat) : FStepper :=
  NewStepper 0%float PrimFloat.ltb heuristic startNode goalNode.

Definition run_step (graph : nat → list Neighbor)
    (heuristic : nat → nat → float) (workers : Z)
    (arrive : nat → list RelaxProposal → Arrival)
    (s : FStepper) : Outcome (FSnapshot * FStepper) :=
  Step PrimFloat.add PrimFloat.ltb 0 graph heuristic workers arrive s.

(** The receiver and the snapshot a call leaves. *)
Definition receiver_after
    (o : Outcome (FSnapshot * FStepper))
    (s : FStepper) : FStepper :=
  match o with Returned (_, s') _ => s' | _ => s end.

Definition snapshot_of
    (o : Outcome (FSnapshot * FStepper))
    (s : FStepper) : FSnapshot :=
  match o with Returned (snap, _) _ => snap | _ => done_snapshot 0 s end.

(** ** A detour the heap misses

    Nodes [S=0], [A=1], [G=2], [Q=3], [X=4], [E=5]; start [S], goal [G]. *)
Definition detour_graph (u : nat) : list Neighbor :=
  match u with
  | 0 => [nb 1 1; nb 2 10; nb 3 12; nb 4 20; nb 5 15]
  | 1 => [nb 4 1]
  | 4 => [nb 2 1]
  | _ => []
  end.

(** ** A cost lost to rounding

    Nodes [S=0], [A=1], [B=2], [G=3]; start [S], goal [G].  The heuristic is
    [2^54] at [A] and [0] elsewhere; it never exceeds the remaining cost and
    is consistent along every edge. *)
Definition rounding_graph (u : nat) : list Neighbor :=
  match u with
  | 0 => [nb 1 2; nb 2 0]
  | 2 => [nb 1 1]
  | 1 => [nb 3 18014398509481988]
  | _ => []
  end.

Definition rounding_heuristic (a b : nat) : float :=
  match a with
  | 1 => 18014398509481984%float
  | _ => 0%float
  end.

Definition rounding_edges : list (nat * nat * float) :=
  [(0, 1, 2%float); (0, 2, 0%float); (2, 1, 1%float);
   (1, 3, 18014398509481988%float)].

(** ** One edge: start [0], goal [1] *)

Definition edge_graph (u : nat) : list Neighbor :=
  match u with
  | 0 => [nb 1 1]
  | _ => []
  end.

Definition edge_step : FStepper → Outcome (FSnapshot * FStepper) :=
  run_step edge_graph no_heuristic 1 fifo.

Definition edge_s0 : FStepper := new_stepper no_heuristic 0 1.

(** After the call that expands the start. *)
Definition edge_s1 : FStepper := receiver_after (edge_step edge_s0) edge_s0.

(** The call that pops the goal. *)
Definition edge_snap2 : FSnapshot := snapshot_of (edge_step edge_s1) edge_s1.

Definition edge_s2 : FStepper := receiver_after (edge_step edge_s1) edge_s1.

Definition edge_snap3 : FSnapshot := snapshot_of (edge_step edge_s2) edge_s2.

(** ** A stale entry, built by hand

    No run reaches this receiver: node [1] is closed and still in the
    frontier, ahead of the goal [2]. *)
Definition stale_stepper : FStepper :=
  mkStepper 2
    (mkState (mkPQ [0; 1] [mkItem 1 0%float 0%float 0; mkItem 2 1%float 1%float 1])
             (<[1 := 0]> (<[2 := 1]> ∅)) (<[1 := true]> ∅) ∅
             (<[1 := 0%float]> (<[2 := 1%float]> ∅)))
    5 false false.

(** ** A fork: start [0], the goal [2] and a dead end [1] at the same cost *)

Definition fork_graph (u : nat) : list Neighbor :=
  match u with
  | 0 => [nb 1 1; nb 2 1]
  | _ => []
  end.

Definition edge_universe : gset nat := {[0; 1]}.

(** ** A shortcut: start [0], goal [3]

    Every edge goes both ways.  Node [1] is reached from the start with cost
    2 and then, through node [2], with cost 1; the heuristic is 5 at node
    [1], its distance to the goal, and 0 elsewhere. *)
Definition shortcut_graph (u : nat) : list Neighbor :=
  match u with
  | 0 => [nb 1 2; nb 2 0]
  | 1 => [nb 0 2; nb 2 1; nb 3 5]
  | 2 => [nb 0 0; nb 1 1]
  | 3 => [nb 1 5]
  | _ => []
  end.

Definition shortcut_heuristic (a b : nat) : float :=
  match a with
  | 1 => 5%float
  | _ => 0%float
  end.

(** The paths without repetition from node [0]: the earlier nodes, the
    latest first, the last node, and the sum of the edge costs. *)
Definition shortcut_sums : list (list nat * nat * float) :=
  [([], 0, 0%float);
   ([0], 1, 2%float); ([0], 2, 0%float);
   ([1; 0], 2, 3%float); ([1; 0], 3, 7%float);
   ([2; 0], 1, 1%float);
   ([1; 2; 0], 3, 6%float)].

(** ** One pass of [Search] on the one-edge graph *)

(** The state after the pass of [Search] that expands the start node. *)
Definition edge_search_st1 : @State nat _ _ float :=
  match search_body 0%float PrimFloat.add PrimFloat.ltb edge_graph no_heuristic
                    1 fifo 0 1 (initial_state 0%float PrimFloat.ltb
                                              no_heuristic 0 1) 0 with
  | Continue (st', _) => st'
  | _ => initial_state 0%float PrimFloat.ltb no_heuristic 0 1
  end.

Definition edge_not_found : @Result nat float := mkResult [] 0%float 2 false.

(** ** A heap of three items, with integer f-scores *)

Definition zitem (v : nat) (f : Z) (i : nat) : @PriorityQueueItem nat Z :=
  mkItem v 0%Z f i.

Definition heap_Z : @PriorityQueue nat Z :=
  mkPQ [0; 1; 2] [zitem 10 1 0; zitem 11 3 1; zitem 12 2 2].


(** ** Predecessor maps: a chain from [2] to [0], and a cycle *)

Definition chain_map : gmap nat nat := <[2 := 1]> (<[1 := 0]> ∅).

Definition cycle_map : gmap nat nat := <[1 := 2]> (<[2 := 1]> ∅).

(** ** A grid of three by two cells, with a wall at [(1, 0)] *)

Definition viz_grid : Vizweb.grid :=
  Vizweb.mkGrid 3 2 (<[(1, 0)%Z := true]> ∅).


(** ** What the runs show *)

Lemma fifo_fair : fair_schedule fifo.
Proof. intros u ps. simpl. done. Qed.

Lemma lifo_fair : fair_schedule lifo.
Proof. intros u ps. simpl. symmetry. apply Permutation_rev. Qed.

Lemma fifo_never_cancelled : never_cancelled fifo.
Proof. intros u ps. by exists ps. Qed.

(** C1 (the code at a failing input). With the zero heuristic, five workers
    and proposals arriving in task order, [Search] returns the direct edge
    [S, G] of cost 10 although [S, A, X, G] costs 3: [X] is pushed at index 3
    with [IndexInQueue] left at 0, so when [A] lowers its cost [heap.Fix]
    is called on the root and [X] stays below [E]; the next pop yields [G].
    With four workers the same call never returns. *)
Theorem search_misses_the_shortest_path :
  run_search detour_graph no_heuristic 5 fifo 4 0 2
    = Some (Returned (mkResult [0; 2] 10%float 3 true) None)
  ∧ nb 1 1 ∈ detour_graph 0 ∧ nb 4 1 ∈ detour_graph 1 ∧ nb 2 1 ∈ detour_graph 4
  ∧ fold_left PrimFloat.add [1; 1; 1]%float 0%float = 3%float
  ∧ PrimFloat.ltb 3 10 = true
  ∧ run_search detour_graph no_heuristic 4 fifo 4 0 2 = Some Blocked.
Proof.
  split_and!; try (vm_compute; reflexivity).
  - left.
  - left.
  - left.
Qed.

(** C3 (the code at a failing input). [A] is first reached with cost 2 and
    then, through [B], with cost 1; [1 + 2^54] and [2 + 2^54] both round to
    [2^54], so the item of [A] keeps [GScore = 2] while the g-score map and
    the predecessor are updated.  The result has the path [S, B, A, G], whose
    edge costs [0, 1, 2^54 + 4] sum to [2^54 + 4], and [TotalCost = 2^54 + 8]. *)
Theorem total_cost_differs_from_path_cost :
  run_search rounding_graph rounding_heuristic 2 fifo 5 0 3
    = Some (Returned
              (mkResult [0; 2; 1; 3] 18014398509481992%float 4 true) None)
  ∧ rounding_graph 0 = [nb 1 2; nb 2 0]
  ∧ rounding_graph 2 = [nb 1 1]
  ∧ rounding_graph 1 = [nb 3 18014398509481988]
  ∧ fold_left PrimFloat.add [0; 1; 18014398509481988]%float 0%float
      = 18014398509481988%float
  ∧ PrimFloat.ltb 18014398509481988 18014398509481992 = true
  ∧ forallb (fun '(u, v, c) =>
               PrimFloat.leb (rounding_heuristic u 3)
                             (PrimFloat.add c (rounding_heuristic v 3)))
            rounding_edges = true.
Proof. split_and!; vm_compute; reflexivity. Qed.

Lemma edge_s1_reach :
  stepper_reach 0%float PrimFloat.add PrimFloat.ltb 0 edge_graph no_heuristic
                1 fifo 0 1 edge_s1.
Proof.
  eapply (tr_step _ _ _ _ _ _ _ _ _ _ edge_s0); [apply tr_new|].
  vm_compute. reflexivity.
Qed.

Lemma edge_step2 : edge_step edge_s1 = Returned (edge_snap2, edge_s2) None.
Proof. vm_compute. reflexivity. Qed.

(** C2, the claim as stated fails: the snapshot of the call after the
    goal-found one has another [Current] and no [Path]. *)
Lemma snapshot_after_goal_differs :
  edge_step edge_s1 = Returned (edge_snap2, edge_s2) None
  ∧ Done edge_snap2 = true
  ∧ edge_step edge_s2 = Returned (edge_snap3, edge_s2) None
  ∧ Current edge_snap2 = 1 ∧ Current edge_snap3 = 0
  ∧ SPath edge_snap2 = [0; 1] ∧ SPath edge_snap3 = []
  ∧ edge_snap3 ≠ edge_snap2.
Proof.
  split_and!; try (vm_compute; reflexivity).
  intros Heq. apply (f_equal SPath) in Heq. vm_compute in Heq. discriminate.
Qed.

Lemma finished_stepper_is_stable_witness :
  edge_step edge_s2 = Returned (done_snapshot 0 edge_s2, edge_s2) None
  ∧ Done (done_snapshot 0 edge_s2) = true
  ∧ SFound (done_snapshot 0 edge_s2) = SFound edge_snap2
  ∧ StepIndex (done_snapshot 0 edge_s2) = StepIndex edge_snap2
  ∧ Current (done_snapshot 0 edge_s2) = 0
  ∧ SPath (done_snapshot 0 edge_s2) = []
  ∧ (@None SearchError = None →
     Open (done_snapshot 0 edge_s2) = Open edge_snap2
     ∧ Closed (done_snapshot 0 edge_s2) = Closed edge_snap2
     ∧ CameFrom (done_snapshot 0 edge_s2) = CameFrom edge_snap2)
  ∧ (@None SearchError = None → SFound edge_snap2 = false →
     done_snapshot 0 edge_s2 = edge_snap2).
Proof.
  apply (finished_stepper_is_stable 0%float PrimFloat.add PrimFloat.ltb 0
           edge_graph no_heuristic 1 fifo 0 1 edge_s1 edge_snap2 edge_s2 None).
  - apply edge_s1_reach.
  - apply edge_step2.
  - reflexivity.
Defined.

Lemma inferred_start_is_the_start_witness :
  Current edge_snap2 = 1
  ∧ CameFrom edge_snap2 = cameFrom (state edge_s2)
  ∧ inferStartFromCameFrom (CameFrom edge_snap2) 1 = Some 0
  ∧ reconstructPath (CameFrom edge_snap2) 1 0 = Some (SPath edge_snap2).
Proof.
  apply (inferred_start_is_the_start 0%float PrimFloat.add PrimFloat.ltb 0
           edge_graph no_heuristic 1 fifo 0 1 edge_s1 edge_snap2 edge_s2 None).
  - apply fifo_fair.
  - apply edge_s1_reach.
  - reflexivity.
  - apply edge_step2.
  - reflexivity.
Defined.

(** The branch of [Step] that discards a stale entry is taken in no run.  On
    this receiver, which no run reaches, the call discards one entry and
    returns the counter plus two. *)
Lemma stale_pop_advances_step_index :
  stepCount stale_stepper = 5
  ∧ (∃ s1, step_body PrimFloat.add PrimFloat.ltb 0 edge_graph no_heuristic 1
                     fifo stale_stepper = StepRetry s1)
  ∧ ∃ snap s',
      run_step edge_graph no_heuristic 1 fifo stale_stepper
        = Returned (snap, s') None
      ∧ StepIndex snap = 7.
Proof.
  split_and!; [reflexivity| |].
  - eexists. vm_compute. reflexivity.
  - eexists _, _. split; vm_compute; reflexivity.
Qed.

(** C6, the claim as stated fails: with the two proposals of the start
    arriving in task order [Search] expands three nodes; with the opposite
    order the [Stepper] ends with two closed nodes. *)
Lemma closed_count_depends_on_arrival_order :
  fair_schedule fifo ∧ fair_schedule lifo
  ∧ (∃ r, run_search fork_graph no_heuristic 2 fifo 5 0 2
            = Some (Returned r None)
          ∧ Found r = true ∧ ExpandedNodes r = 3)
  ∧ ∃ snap s',
      step_until_done PrimFloat.add PrimFloat.ltb 0 fork_graph no_heuristic 2
                      lifo 5 (new_stepper no_heuristic 0 2)
        = Some (Returned (snap, s') None)
      ∧ Done snap = true ∧ SFound snap = true ∧ size (Closed snap) = 2.
Proof.
  split_and!; [apply fifo_fair|apply lifo_fair| |].
  - eexists. split_and!; vm_compute; reflexivity.
  - eexists _, _. split_and!; vm_compute; reflexivity.
Qed.

Lemma stepping_agrees_witness :
  ∃ snap s',
    step_until_done PrimFloat.add PrimFloat.ltb 0 fork_graph no_heuristic 2
                    fifo 5 (NewStepper 0%float PrimFloat.ltb no_heuristic 0 2)
      = Some (Returned (snap, s') (step_error None))
    ∧ agrees (mkResult [0; 2] 1%float 3 true) snap.
Proof.
  exact (stepping_to_completion_agrees_with_search 0%float PrimFloat.add
           PrimFloat.ltb 0 fork_graph no_heuristic 2 fifo 5 0 2 fifo_fair).
Defined.

(** ** The returned path, its cost and termination, on the same graphs *)

Lemma returned_path_is_a_walk_witness :
  head [0; 2] = Some 0 ∧ last [0; 2] = Some 2
  ∧ ∃ cs, walk detour_graph [0; 2] cs.
Proof.
  apply (returned_path_is_a_walk 0%float PrimFloat.add PrimFloat.ltb
           detour_graph no_heuristic 5 fifo 4 0 2
           (mkResult [0; 2] 10%float 3 true) None).
  - apply fifo_fair.
  - vm_compute. reflexivity.
  - reflexivity.
Defined.

Lemma search_returns_on_finite_graph_witness :
  ∃ r err,
    run_search edge_graph no_heuristic 1 fifo 3 0 1 = Some (Returned r err)
    ∧ ((err = None ∧ Found r = true)
       ∨ (err = Some ErrNoPathFound ∧ Found r = false)).
Proof.
  apply (search_returns_on_finite_graph 0%float PrimFloat.add PrimFloat.ltb
           edge_graph no_heuristic 1 fifo edge_universe 0 1 3).
  - apply fifo_fair.
  - apply fifo_never_cancelled.
  - vm_compute. reflexivity.
  - intros u nb Hu Hnb. destruct u as [|[|u]]; simpl in Hnb.
    + apply list_elem_of_singleton in Hnb as ->. vm_compute. reflexivity.
    + by apply elem_of_nil in Hnb.
    + by apply elem_of_nil in Hnb.
  - intros u Hu. destruct u as [|u]; simpl; lia.
  - vm_compute. lia.
Defined.

Lemma shortcut_path_costs l v g :
  path_cost 0%float PrimFloat.add shortcut_graph 0 l v g →
  In (l, v, g) shortcut_sums.
Proof.
  induction 1 as [|l u g v c _ IH He Hn]; [by left|].
  apply list_elem_of_In in He. simpl in IH.
  destruct_or!; try done; simplify_eq; simpl in He; unfold nb in He;
    destruct_or!; try done; simplify_eq;
    first [ exfalso; apply Hn; set_solver
          | vm_compute; repeat (try (left; reflexivity); right) ].
Qed.

Lemma shortcut_exact :
  exact_on_paths 0%float PrimFloat.add PrimFloat.ltb shortcut_graph
                 shortcut_heuristic 0 3.
Proof.
  intros v l1 g1 l2 g2 H1%shortcut_path_costs H2%shortcut_path_costs.
  simpl in H1, H2.
  destruct_or!; try done; simplify_eq; vm_compute; done.
Qed.

Lemma returned_path_cost_is_total_cost_witness :
  head [0; 2; 1; 3] = Some 0 ∧ last [0; 2; 1; 3] = Some 3
  ∧ ∃ cs, walk shortcut_graph [0; 2; 1; 3] cs
          ∧ fold_left PrimFloat.add cs 0%float = 6%float.
Proof.
  apply (returned_path_cost_is_total_cost 0%float PrimFloat.add PrimFloat.ltb
           shortcut_graph shortcut_heuristic 3 fifo 5 0 3
           (mkResult [0; 2; 1; 3] 6%float 4 true) None).
  - apply shortcut_exact.
  - apply fifo_fair.
  - vm_compute. reflexivity.
  - reflexivity.
Defined.

Lemma edge_search_pass1 :
  search_body 0%float PrimFloat.add PrimFloat.ltb edge_graph no_heuristic 1
              fifo 0 1 (initial_state 0%float PrimFloat.ltb no_heuristic 0 1) 0
  = Continue (edge_search_st1, 1).
Proof. vm_compute. reflexivity. Qed.

Lemma exhausted_frontier_witness :
  Found edge_not_found = false
  ∧ Path edge_not_found = []
  ∧ ∃ st,
      search_reach 0%float PrimFloat.add PrimFloat.ltb edge_graph no_heuristic
                   1 fifo 0 7 st (ExpandedNodes edge_not_found)
      ∧ Len (openSet st) = 0
      ∧ ExpandedNodes edge_not_found = size (closedSet st).
Proof.
  apply (proj1 (proj2 (exhausted_frontier_reports_not_found 0%float
           PrimFloat.add PrimFloat.ltb edge_graph no_heuristic 1 fifo 0 7)) 5).
  vm_compute. reflexivity.
Defined.

Lemma edge_search_st1_reach :
  search_reach 0%float PrimFloat.add PrimFloat.ltb edge_graph no_heuristic 1
               fifo 0 1 edge_search_st1 1.
Proof. eapply sr_continue; [apply sr_init|apply edge_search_pass1]. Qed.

Lemma popped_node_witness : closed edge_search_st1 1 = false.
Proof.
  eapply (proj1 (proj1 (popped_node_never_closed 0%float PrimFloat.add
                          PrimFloat.ltb 0 edge_graph no_heuristic 1 fifo 0 1)
                       edge_search_st1 1 edge_search_st1_reach)
                1 _ (mkItem 1 1%float 1%float 0)).
  - vm_compute. reflexivity.
  - vm_compute. reflexivity.
Defined.

Lemma closed_set_grows_witness :
  closed_le (initial_state 0%float PrimFloat.ltb no_heuristic 0 1)
            edge_search_st1.
Proof.
  apply (proj1 (closed_set_grows_and_is_never_pushed 0%float PrimFloat.add
                  PrimFloat.ltb 0 edge_graph no_heuristic 1 fifo 0 1)
               _ 0 edge_search_st1 1).
  left. apply edge_search_pass1.
Defined.

Lemma gscore_decrease_witness :
  gscore_le PrimFloat.ltb
            (initial_state 0%float PrimFloat.ltb no_heuristic 0 1)
            edge_search_st1.
Proof.
  apply (proj1 (proj2 (proj2 (gscore_entries_only_decrease 0%float PrimFloat.add
                  PrimFloat.ltb 0 edge_graph no_heuristic 1 fifo 0 1)))
               _ 0 edge_search_st1 1).
  left. apply edge_search_pass1.
Defined.


(** * The options *)

Lemma apply_options_last numCPU (options : list Option) n :
  apply_options numCPU (options ++ [WithWorkers n]) = mkOptions n.
Proof. unfold apply_options. by rewrite fold_left_app. Qed.

(** X23. The options are applied in order: without options the number of
    workers is [runtime.NumCPU()], and the last [WithWorkers] decides
    whatever precedes it; a number that is not positive starts no worker. *)
Theorem last_WithWorkers_decides numCPU (options : list Option) n :
  apply_options numCPU [] = mkOptions numCPU
  ∧ apply_options numCPU (options ++ [WithWorkers n]) = mkOptions n
  ∧ started_workers (apply_options numCPU (options ++ [WithWorkers n]))
    = Z.max 0 n
  ∧ ((n ≤ 0)%Z →
     started_workers (apply_options numCPU (options ++ [WithWorkers n])) = 0%Z).
Proof.
  rewrite apply_options_last. unfold started_workers. simpl.
  split_and!; try done. lia.
Qed.

(** X24. With [WithWorkers(n)] for an [n] that is not positive as the last
    option, [Search] and the first [Step] block as soon as the start node,
    which is not the goal, has a neighbour: no worker takes the task. *)
Theorem no_worker_blocks_the_search {NodeType : Type} `{Countable NodeType}
    {Cost : Type} (cost_zero : Cost) (cost_add : Cost → Cost → Cost)
    (cost_lt : Cost → Cost → bool) (zeroNode : NodeType)
    (graph : NodeType → list Neighbor) (heuristic : NodeType → NodeType → Cost)
    (arrive : NodeType → list RelaxProposal → Arrival) (numCPU : Z)
    (options : list Option) (n : Z) (fuel : nat) (startNode goalNode : NodeType) :
  (n ≤ 0)%Z →
  startNode ≠ goalNode →
  graph startNode ≠ [] →
  SearchWithOptions cost_zero cost_add cost_lt graph heuristic arrive numCPU
                    (options ++ [WithWorkers n]) (S fuel) startNode goalNode
  = Some Blocked
  ∧ StepWithOptions cost_add cost_lt zeroNode graph heuristic arrive numCPU
                    (options ++ [WithWorkers n])
                    (NewStepper cost_zero cost_lt heuristic startNode goalNode)
    = Blocked.
Proof.
  intros Hn Hne Hg. unfold SearchWithOptions, StepWithOptions.
  rewrite apply_options_last. apply first_pass_blocks; [done|].
  unfold started_workers. simpl.
  destruct (graph startNode); [done|]. simpl. lia.
Qed.

(** * The grid world *)

Lemma fold_left_filter_snoc {A B} (f : A → bool) (h : A → B) l acc :
  fold_left (fun res d => if f d then res ++ [h d] else res) l acc
  = acc ++ map h (List.filter f l).
Proof.
  revert acc. induction l as [|x l IH]; intros acc; simpl.
  { by rewrite app_nil_r. }
  rewrite IH. destruct (f x); [|done]. simpl. by rewrite <-app_assoc.
Qed.

Lemma fold_left_snoc_map {A B} (h : A → B) l acc :
  fold_left (fun out n => out ++ [h n]) l acc = acc ++ map h l.
Proof.
  revert acc. induction l as [|x l IH]; intros acc; simpl.
  { by rewrite app_nil_r. }
  rewrite IH. by rewrite <-app_assoc.
Qed.

(** The cell next to [p] in the direction [d]. *)
Lemma viz_Neighbors_eq g p :
  Vizweb.Neighbors g p
  = map (fun d => mkNeighbor (Vizweb.int_add p.1 d.1, Vizweb.int_add p.2 d.2)
                             1%float)
        (List.filter
           (fun d => Vizweb.grid_in g (Vizweb.int_add p.1 d.1,
                                        Vizweb.int_add p.2 d.2)
                     && negb (Vizweb.wall g (Vizweb.int_add p.1 d.1,
                                             Vizweb.int_add p.2 d.2)))
           Vizweb.dirs).
Proof.
  unfold Vizweb.Neighbors, Vizweb.neighbors.
  rewrite (fold_left_filter_snoc
             (fun d => Vizweb.grid_in g (Vizweb.int_add p.1 d.1,
                                          Vizweb.int_add p.2 d.2)
                       && negb (Vizweb.wall g (Vizweb.int_add p.1 d.1,
                                               Vizweb.int_add p.2 d.2)))
             (fun d => ((Vizweb.int_add p.1 d.1, Vizweb.int_add p.2 d.2),
                        1%float))).
  rewrite fold_left_snoc_map. simpl. by rewrite map_map.
Qed.

Lemma viz_Neighbors_length g p : length (Vizweb.Neighbors g p) ≤ 4.
Proof.
  rewrite viz_Neighbors_eq, length_map.
  etrans; [apply List.filter_length_le|]. done.
Qed.

Lemma int_wrap_cases z :
  (- 2 ^ 63 - 1 ≤ z ≤ 2 ^ 63)%Z →
  (Vizweb.is_int z ∧ Vizweb.int_wrap z = z)
  ∨ (z = 2 ^ 63 ∧ Vizweb.int_wrap z = - 2 ^ 63)%Z
  ∨ (z = - 2 ^ 63 - 1 ∧ Vizweb.int_wrap z = 2 ^ 63 - 1)%Z.
Proof.
  intros Hz. unfold Vizweb.is_int, Vizweb.int_wrap.
  destruct (decide (z = 2 ^ 63)%Z) as [->|Hhi]; [right; left; done|].
  destruct (decide (z = - 2 ^ 63 - 1)%Z) as [->|Hlo]; [right; right; done|].
  left. split; [lia|]. rewrite Z.mod_small; lia.
Qed.

Lemma viz_grid_in g q :
  Vizweb.grid_in g q = true
  ↔ (0 ≤ q.1 < Vizweb.W g ∧ 0 ≤ q.2 < Vizweb.H g)%Z.
Proof.
  unfold Vizweb.grid_in. rewrite !andb_true_iff, !Z.leb_le, !Z.ltb_lt. lia.
Qed.

Lemma int_wrap_id z : Vizweb.is_int z → Vizweb.int_wrap z = z.
Proof.
  unfold Vizweb.is_int, Vizweb.int_wrap. intros Hz.
  rewrite Z.mod_small; lia.
Qed.

Lemma viz_Neighbors_elem g p q c :
  mkNeighbor q c ∈ Vizweb.Neighbors g p
  ↔ c = 1%float ∧ Vizweb.grid_in g q = true ∧ Vizweb.wall g q = false
    ∧ ∃ d, d ∈ Vizweb.dirs
           ∧ q = (Vizweb.int_add p.1 d.1, Vizweb.int_add p.2 d.2).
Proof.
  rewrite viz_Neighbors_eq, list_elem_of_In, in_map_iff. split.
  - intros (d & Heq & [Hd Hok]%filter_In). injection Heq as <- <-.
    apply andb_true_iff in Hok as [Hin Hw%negb_true_iff].
    split_and!; [done..|]. exists d. by rewrite list_elem_of_In.
  - intros (-> & Hin & Hw & d & Hd%list_elem_of_In & ->).
    exists d. split; [done|]. apply filter_In. split; [done|].
    by rewrite Hin, Hw.
Qed.

(** X25. [gridGraph.Neighbors] returns, with cost [1], exactly the cells of
    the grid next to [p] (one step to the east, west, south or north, in the
    integers: no neighbour comes from an overflow) that are not walls, and
    never more than four. *)
Theorem viz_neighbors_are_the_free_adjacent_cells g p q c :
  Vizweb.is_int (Vizweb.W g) → Vizweb.is_int (Vizweb.H g) →
  Vizweb.is_int p.1 → Vizweb.is_int p.2 →
  (mkNeighbor q c ∈ Vizweb.Neighbors g p
   ↔ c = 1%float ∧ Vizweb.grid_in g q = true ∧ Vizweb.wall g q = false
     ∧ (Z.abs (q.1 - p.1) + Z.abs (q.2 - p.2) = 1)%Z)
  ∧ length (Vizweb.Neighbors g p) ≤ 4.
Proof.
  intros HW HH Hp1 Hp2. split; [|apply viz_Neighbors_length].
  rewrite viz_Neighbors_elem. destruct p as [x y], q as [x' y']. simpl in *.
  unfold Vizweb.is_int in *.
  split; intros (Hc & Hin & Hw & Hadj); (split_and!; [done..|]).
  - destruct Hadj as (d & Hd & Heq). apply viz_grid_in in Hin. simpl in Hin.
    injection Heq as -> ->. unfold Vizweb.int_add in *.
    unfold Vizweb.dirs in Hd. rewrite !elem_of_cons in Hd.
    destruct Hd as [->|[->|[->|[->|Hd]]]]; [..|by apply elem_of_nil in Hd];
      simpl in *;
      rewrite ?Z.add_0_r in *;
      rewrite ?(int_wrap_id x), ?(int_wrap_id y) in * by done.
    + destruct (int_wrap_cases (x + 1)) as [[_ Hx]|[[_ Hx]|[_ Hx]]];
        [lia|rewrite Hx in *; lia..].
    + destruct (int_wrap_cases (x + -1)) as [[_ Hx]|[[_ Hx]|[_ Hx]]];
        [lia|rewrite Hx in *; lia..].
    + destruct (int_wrap_cases (y + 1)) as [[_ Hy]|[[_ Hy]|[_ Hy]]];
        [lia|rewrite Hy in *; lia..].
    + destruct (int_wrap_cases (y + -1)) as [[_ Hy]|[[_ Hy]|[_ Hy]]];
        [lia|rewrite Hy in *; lia..].
  - apply viz_grid_in in Hin. simpl in Hin.
    assert (∃ d, d ∈ Vizweb.dirs ∧ x' = (x + d.1)%Z ∧ y' = (y + d.2)%Z)
      as (d & Hd & -> & ->).
    { unfold Vizweb.dirs.
      assert ((x' = x + 1 ∧ y' = y + 0) ∨ (x' = x + -1 ∧ y' = y + 0)
              ∨ (x' = x + 0 ∧ y' = y + 1) ∨ (x' = x + 0 ∧ y' = y + -1))%Z
        as [?|[?|[?|?]]] by lia.
      - exists (1, 0)%Z. split; [set_solver|done].
      - exists (-1, 0)%Z. split; [set_solver|done].
      - exists (0, 1)%Z. split; [set_solver|done].
      - exists (0, -1)%Z. split; [set_solver|done]. }
    exists d. split; [done|]. unfold Vizweb.int_add.
    rewrite !int_wrap_id; [done|unfold Vizweb.is_int; lia..].
Qed.







(** X28. On cells of a grid whose width and height do not add up beyond
    the range of [int], [manhattan] is the [float64] of the sum of the
    coordinate distances; it is symmetric, and [0] from a cell to itself. *)
Theorem viz_manhattan_is_the_grid_distance g a b :
  Vizweb.is_int (Vizweb.W g + Vizweb.H g) →
  Vizweb.grid_in g a = true → Vizweb.grid_in g b = true →
  Vizweb.manhattan a b
  = Vizweb.float64_of_int (Z.abs (a.1 - b.1) + Z.abs (a.2 - b.2))
  ∧ Vizweb.manhattan a b = Vizweb.manhattan b a
  ∧ Vizweb.manhattan a a = 0%float.
Proof.
  intros Hsum Ha%viz_grid_in Hb%viz_grid_in. unfold Vizweb.is_int in Hsum.
  assert (Hman : ∀ p q,
            (0 ≤ p.1 < Vizweb.W g ∧ 0 ≤ p.2 < Vizweb.H g)%Z →
            (0 ≤ q.1 < Vizweb.W g ∧ 0 ≤ q.2 < Vizweb.H g)%Z →
            Vizweb.manhattan p q
            = Vizweb.float64_of_int (Z.abs (p.1 - q.1) + Z.abs (p.2 - q.2))).
  { intros p q Hp Hq.
    unfold Vizweb.manhattan, Vizweb.int_sub, Vizweb.int_neg, Vizweb.int_add.
    rewrite (int_wrap_id (p.1 - q.1)), (int_wrap_id (p.2 - q.2))
      by (unfold Vizweb.is_int; lia).
    destruct (Z.ltb_spec (p.1 - q.1) 0), (Z.ltb_spec (p.2 - q.2) 0);
      rewrite ?(int_wrap_id (- (p.1 - q.1))), ?(int_wrap_id (- (p.2 - q.2)))
        by (unfold Vizweb.is_int; lia);
      rewrite ?int_wrap_id by (unfold Vizweb.is_int; lia);
      f_equal; lia. }
  split_and!.
  - by apply Hman.
  - rewrite !Hman by done. f_equal. lia.
  - rewrite Hman by done. rewrite !Z.sub_diag. reflexivity.
Qed.

(** * The properties above at concrete inputs *)




Lemma heap_Z_NoDup : NoDup (slice heap_Z).
Proof.
  simpl. repeat (apply NoDup_cons; split; [set_solver|]). apply NoDup_nil_2.
Qed.




Lemma Swap_exchanges_and_indexes_witness :
  slice (Swap heap_Z 0 2) !! 0 = Some 2
  ∧ slice (Swap heap_Z 0 2) !! 2 = Some 0
  ∧ mem (Swap heap_Z 0 2) !! 2 = Some (set_index 0 (zitem 12 2 2))
  ∧ mem (Swap heap_Z 0 2) !! 0 = Some (set_index 2 (zitem 10 1 0))
  ∧ (∀ k, k ≠ 0 → k ≠ 2 → slice (Swap heap_Z 0 2) !! k = slice heap_Z !! k)
  ∧ ∀ c, c ≠ 0 → c ≠ 2 → mem (Swap heap_Z 0 2) !! c = mem heap_Z !! c.
Proof.
  apply (Swap_exchanges_and_indexes heap_Z 0 2 0 2 (zitem 10 1 0)
           (zitem 12 2 2) heap_Z_NoDup); reflexivity.
Defined.

Lemma reconstructPath_result_witness :
  last [0; 1; 2] = Some 2
  ∧ (∃ e, head [0; 1; 2] = Some e ∧ (e = 0 ∨ chain_map !! e = None))
  ∧ NoDup [0; 1; 2]
  ∧ ∀ i u v, [0; 1; 2] !! i = Some u → [0; 1; 2] !! S i = Some v →
             chain_map !! v = Some u ∧ v ≠ 0.
Proof.
  apply (reconstructPath_result chain_map 2 0 [0; 1; 2]).
  vm_compute. reflexivity.
Defined.

Lemma reconstructPath_loops_on_a_cycle_witness :
  reconstructPath cycle_map 1 0 = None
  ∧ ∀ n path, reconstruct_loop n cycle_map 1 0 path = None.
Proof.
  apply (reconstructPath_loops_on_a_cycle (fun v => v = 1 ∨ v = 2)
           cycle_map 1 0).
  - left. reflexivity.
  - intros v [->| ->]; (split; [lia|]).
    + exists 2. split; [vm_compute; reflexivity|right; reflexivity].
    + exists 1. split; [vm_compute; reflexivity|left; reflexivity].
Defined.

Lemma inferred_start_heads_the_path_witness :
  ∃ l, chain chain_map 2 l 0
       ∧ reconstructPath chain_map 2 0 = Some (rev (2 :: l))
       ∧ head (rev (2 :: l)) = Some 0
       ∧ last (rev (2 :: l)) = Some 2.
Proof.
  apply (inferred_start_heads_the_path chain_map 2 0).
  vm_compute. reflexivity.
Defined.

Lemma Step_returns_or_lacks_workers_witness :
  (∃ snap s',
     Step PrimFloat.add PrimFloat.ltb 0 edge_graph no_heuristic 1 fifo edge_s1
     = Returned (snap, s') None)
  ∨ (Step PrimFloat.add PrimFloat.ltb 0 edge_graph no_heuristic 1 fifo edge_s1
     = Blocked
     ∧ done edge_s1 = false
     ∧ ∃ a q' it,
         heap_Pop PrimFloat.ltb (openSet (state edge_s1)) = Some (a, q')
         ∧ mem q' !! a = Some it
         ∧ Node it ≠ 1
         ∧ (1 < Z.of_nat (length (edge_graph (Node it))))%Z).
Proof.
  apply (Step_returns_or_lacks_workers 0%float PrimFloat.add PrimFloat.ltb 0
           edge_graph no_heuristic 1 fifo 0 1 edge_s1).
  - apply fifo_fair.
  - apply fifo_never_cancelled.
  - apply edge_s1_reach.
Defined.

Lemma edge_universe_closed u (nb : @Neighbor nat float) :
  u ∈ edge_universe → nb ∈ edge_graph u → ID nb ∈ edge_universe.
Proof.
  intros Hu Hnb. destruct u as [|[|u]]; simpl in Hnb.
  - apply list_elem_of_singleton in Hnb as ->. vm_compute. reflexivity.
  - by apply elem_of_nil in Hnb.
  - by apply elem_of_nil in Hnb.
Qed.

Lemma stepping_ends_on_finite_graph_witness :
  ∃ snap s',
    step_until_done PrimFloat.add PrimFloat.ltb 0 edge_graph no_heuristic 1
                    fifo 3 (NewStepper 0%float PrimFloat.ltb no_heuristic 0 1)
      = Some (Returned (snap, s') None)
    ∧ Done snap = true.
Proof.
  apply (stepping_ends_on_finite_graph 0%float PrimFloat.add PrimFloat.ltb 0
           edge_graph no_heuristic 1 fifo edge_universe 0 1 3).
  - apply fifo_fair.
  - apply fifo_never_cancelled.
  - vm_compute. reflexivity.
  - apply edge_universe_closed.
  - intros u Hu. destruct u as [|u]; simpl; lia.
  - vm_compute. lia.
Defined.

Lemma snapshot_is_consistent_witness :
  StepIndex edge_snap2 = size (Closed edge_snap2).
Proof.
  apply (proj1 (proj2 (proj2
           (snapshot_is_consistent 0%float PrimFloat.add PrimFloat.ltb 0
              edge_graph no_heuristic 1 fifo 0 1 edge_s1 edge_snap2 edge_s2
              fifo_fair edge_s1_reach edge_step2)))).
Defined.

Lemma found_path_is_simple_witness :
  NoDup [0; 2] ∧ 1 ≤ length [0; 2] ≤ 3.
Proof.
  apply (found_path_is_simple 0%float PrimFloat.add PrimFloat.ltb
           detour_graph no_heuristic 5 fifo 4 0 2
           (mkResult [0; 2] 10%float 3 true) None).
  - apply fifo_fair.
  - vm_compute. reflexivity.
  - reflexivity.
Defined.

Lemma too_few_workers_block_witness :
  run_search detour_graph no_heuristic 4 fifo 1 0 2 = Some Blocked
  ∧ run_step detour_graph no_heuristic 4 fifo (new_stepper no_heuristic 0 2)
    = Blocked.
Proof.
  apply (too_few_workers_block 0%float PrimFloat.add PrimFloat.ltb 0
           detour_graph no_heuristic 4 fifo 0 0 2).
  - lia.
  - simpl. lia.
Defined.

Lemma isolated_start_is_not_found_witness :
  run_search edge_graph no_heuristic 1 fifo 2 1 0
  = Some (Returned (mkResult [] 0%float 1 false) (Some ErrNoPathFound)).
Proof.
  apply (isolated_start_is_not_found 0%float PrimFloat.add PrimFloat.ltb
           edge_graph no_heuristic 1 fifo 0 1 0).
  - apply fifo_fair.
  - lia.
  - reflexivity.
  - lia.
Defined.

Lemma no_worker_blocks_the_search_witness :
  SearchWithOptions 0%float PrimFloat.add PrimFloat.ltb edge_graph
                    no_heuristic fifo 8 ([WithWorkers 3] ++ [WithWorkers 0])
                    1 0 1
  = Some Blocked
  ∧ StepWithOptions PrimFloat.add PrimFloat.ltb 0 edge_graph no_heuristic
                    fifo 8 ([WithWorkers 3] ++ [WithWorkers 0])
                    (NewStepper 0%float PrimFloat.ltb no_heuristic 0 1)
    = Blocked.
Proof.
  apply (no_worker_blocks_the_search 0%float PrimFloat.add PrimFloat.ltb 0
           edge_graph no_heuristic fifo 8 [WithWorkers 3] 0 0 0 1).
  - lia.
  - lia.
  - simpl. discriminate.
Defined.


Lemma small_is_int z : (0 ≤ z ≤ 100)%Z → Vizweb.is_int z.
Proof. unfold Vizweb.is_int. lia. Qed.

Lemma viz_neighbors_witness :
  (mkNeighbor (0, 1)%Z 1%float ∈ Vizweb.Neighbors viz_grid (0, 0)%Z
   ↔ 1%float = 1%float
     ∧ Vizweb.grid_in viz_grid (0, 1)%Z = true
     ∧ Vizweb.wall viz_grid (0, 1)%Z = false
     ∧ (Z.abs (0 - 0) + Z.abs (1 - 0) = 1)%Z)
  ∧ length (Vizweb.Neighbors viz_grid (0, 0)%Z) ≤ 4.
Proof.
  apply (viz_neighbors_are_the_free_adjacent_cells viz_grid (0, 0)%Z
           (0, 1)%Z 1%float); apply small_is_int; simpl; lia.
Defined.



Lemma viz_manhattan_witness :
  Vizweb.manhattan (0, 0)%Z (2, 1)%Z
  = Vizweb.float64_of_int (Z.abs (0 - 2) + Z.abs (0 - 1))
  ∧ Vizweb.manhattan (0, 0)%Z (2, 1)%Z = Vizweb.manhattan (2, 1)%Z (0, 0)%Z
  ∧ Vizweb.manhattan (0, 0)%Z (0, 0)%Z = 0%float.
Proof.
  apply (viz_manhattan_is_the_grid_distance viz_grid (0, 0)%Z (2, 1)%Z).
  - apply small_is_int. simpl. lia.
  - reflexivity.
  - reflexivity.
Defined.

Lemma found_snapshot_path_witness :
  head (SPath edge_snap2) = Some 0
  ∧ last (SPath edge_snap2) = Some 1
  ∧ NoDup (SPath edge_snap2)
  ∧ ∃ cs, walk edge_graph (SPath edge_snap2) cs.
Proof.
  apply (found_snapshot_path_is_a_walk 0%float PrimFloat.add PrimFloat.ltb 0
           edge_graph no_heuristic 1 fifo 0 1 edge_s1 edge_snap2 edge_s2 None).
  - apply fifo_fair.
  - apply edge_s1_reach.
  - reflexivity.
  - apply edge_step2.
  - reflexivity.
Defined.
